(** * Paper UI control controllers and the MQTT on/off value

    A shallow embedding of
    [web-src/js/control/controllers.control.js] (the tabs of
    ControlPageController, the things and items of ControlController, and
    the controllers ItemController, NumberItemController,
    DimmerItemController, ColorItemController and PlayerItemController) and
    of the Java class [OnOffValue], with the properties of the specification
    stated over it.

    Conventions.
    - A JavaScript string is a [string] that holds the bytes of its UTF-8
      encoding.  The code searches strings for characters of one byte only
      (a space, a comma, an underscore) and cuts them there, which gives the
      same pieces in either encoding.  White space is that of the language,
      of one byte or more.  The upper case of a string and the order of two
      strings, which depend on all of Unicode, are parameters where the code
      applies them to strings that come from outside (the locations of the
      things).
    - A Java string is a [string] too; [OnOffValue] compares strings for
      equality, and the upper case of one with ON and OFF, for which the
      upper case of the letters a to z is modelled.
    - A JavaScript number is a double.  A finite one is held as the rational
      [q] of [Fin q] that it is, with zero for both zeros.  Where the
      language makes a number of a literal it takes the double nearest to the
      value written, [toDouble]; rounding up to an integer is exact.  An
      integer is written with the digits the language prescribes; how a
      number with a fraction is written is a parameter.
    - Time is in milliseconds, as [Date.getTime] counts it.  A callback
      given to [$timeout] runs at its due time, before any user event with
      the same or a later time stamp. *)

From Stdlib Require Import String Ascii ZArith QArith Qround List Sorted Lia
  Bool DecimalString DecimalPos DecimalZ Permutation.
Import ListNotations.

Local Open Scope Z_scope.

(** ** The JavaScript built-ins the controllers call *)

Module JS.

Inductive number : Type :=
| NaN
| PosInfinity
| NegInfinity
| Fin (q : Q).

(** The values that reach the code below: [undefined] (a scope variable never
    assigned), numbers and strings. *)
Inductive value : Type :=
| VUndefined
| VNumber (n : number)
| VString (s : string).

Definition num (z : Z) : value := VNumber (Fin (inject_Z z)).

(** *** Strings *)

(** [s.split(sep)] for a one-character separator. *)
Fixpoint split (sep : ascii) (s : string) : list string :=
  match s with
  | EmptyString => [EmptyString]
  | String c s' =>
      if Ascii.eqb c sep then EmptyString :: split sep s'
      else match split sep s' with
           | hd :: tl => String c hd :: tl
           | [] => [String c EmptyString]
           end
  end.

(** [s.indexOf(c)]: the position of the first [c], or [-1]. *)
Fixpoint indexOf (c : ascii) (s : string) : Z :=
  match s with
  | EmptyString => -1
  | String a s' =>
      if Ascii.eqb a c then 0
      else let i := indexOf c s' in if i <? 0 then -1 else i + 1
  end.

(** [s.substring(from, to)]: both ends are clamped to the string, and
    swapped when they are out of order. *)
Definition substring (s : string) (from to : Z) : string :=
  let len := Z.of_nat (String.length s) in
  let a := Z.min (Z.max from 0) len in
  let b := Z.min (Z.max to 0) len in
  let lo := Z.min a b in
  let hi := Z.max a b in
  String.substring (Z.to_nat lo) (Z.to_nat (hi - lo)) s.

(** [s.substring(from)]: up to the end of the string. *)
Definition substring_from (s : string) (from : Z) : string :=
  substring s from (Z.of_nat (String.length s)).

(** The code of a byte. *)
Definition code (c : ascii) : Z := Z.of_nat (nat_of_ascii c).

(** The white space and line terminators of one byte: TAB, LF, VT, FF, CR and
    the space. *)
Definition isWhiteSpace (c : ascii) : bool :=
  let n := code c in ((9 <=? n) && (n <=? 13)) || (n =? 32).

(** The number of bytes of the white space character or line terminator at
    the front of a string, or zero when there is none.  Beyond the six of one
    byte these are U+00A0 (C2 A0), U+1680 (E1 9A 80), U+2000 to U+200A,
    U+2028, U+2029 and U+202F (E2 80 and a third byte), U+205F (E2 81 9F),
    U+3000 (E3 80 80) and U+FEFF (EF BB BF). *)
Definition whiteSpaceLength (s : string) : nat :=
  match s with
  | EmptyString => 0%nat
  | String c0 r =>
      if isWhiteSpace c0 then 1%nat
      else
        match r with
        | String c1 r1 =>
            if (code c0 =? 194) && (code c1 =? 160) then 2%nat
            else
              match r1 with
              | String c2 _ =>
                  let three (b0 b1 lo hi : Z) : bool :=
                    (code c0 =? b0) && (code c1 =? b1)
                    && (lo <=? code c2) && (code c2 <=? hi) in
                  if three 225 154 128 128 || three 226 128 128 138
                     || three 226 128 168 169 || three 226 128 175 175
                     || three 226 129 159 159 || three 227 128 128 128
                     || three 239 187 191 191
                  then 3%nat else 0%nat
              | EmptyString => 0%nat
              end
        | EmptyString => 0%nat
        end
  end.

Fixpoint trimStart (s : string) : string :=
  match s with
  | EmptyString => EmptyString
  | String _ r =>
      match whiteSpaceLength s, r with
      | 1%nat, _ => trimStart r
      | 2%nat, String _ r1 => trimStart r1
      | 3%nat, String _ (String _ r2) => trimStart r2
      | _, _ => s
      end
  end.

(** White space at the end is what is left when, from some character on,
    the string is white space only. *)
Fixpoint trimEnd (s : string) : string :=
  match s with
  | EmptyString => EmptyString
  | String c r =>
      match trimStart s with
      | EmptyString => EmptyString
      | _ => String c (trimEnd r)
      end
  end.

Definition trim (s : string) : string := trimEnd (trimStart s).

Definition Z_to_string (z : Z) : string :=
  NilEmpty.string_of_int (Z.to_int z).

(** *** Numbers

    A finite number is the rational that the double is; the negative zero is
    not told from zero.  Where the language rounds a real number to a double
    it takes the nearest one, the one with the even significand of two at the
    same distance, and an infinity from [2^1024 - 2^970] on. *)

Definition signed (neg : bool) (z : Z) : Z := if neg then - z else z.

(** The integer nearest to [n / d], the even one of two at the same
    distance. *)
Definition roundHalfEven (n d : Z) : Z :=
  let f := n / d in
  match 2 * (n mod d) ?= d with
  | Lt => f
  | Gt => f + 1
  | Eq => if Z.even f then f else f + 1
  end.

(** The exponent [e] of the doubles around [n / d]: they are the multiples of
    [2^e], where [2^52 * 2^e <= n / d < 2^53 * 2^e], and [e] is -1074 for the
    numbers below [2^-1022]. *)
Definition exponentOf (n d : Z) : Z :=
  let g := Z.log2 n - Z.log2 d in
  let below := if 0 <=? g then n <? d * 2 ^ g else n * 2 ^ (- g) <? d in
  Z.max ((if below then g - 1 else g) - 52) (-1074).

(** The double nearest to [n / d], for positive [n] and [d], with the sign
    given. *)
Definition nearest (neg : bool) (n d : Z) : number :=
  let e := exponentOf n d in
  if 0 <=? e then
    let m := roundHalfEven n (d * 2 ^ e) in
    if 2 ^ 1024 <=? m * 2 ^ e then (if neg then NegInfinity else PosInfinity)
    else Fin (inject_Z (signed neg (m * 2 ^ e)))
  else
    let m := roundHalfEven (n * 2 ^ (- e)) d in
    Fin (Qred (Qmake (signed neg m) (Z.to_pos (2 ^ (- e))))).

(** The Number value for a real number. *)
Definition toDouble (q : Q) : number :=
  match Qnum q with
  | 0 => Fin 0
  | Zpos p => nearest false (Zpos p) (Zpos (Qden q))
  | Zneg p => nearest true (Zpos p) (Zpos (Qden q))
  end.

(** *** Reading numbers *)

(** The value of a character as a digit: [0-9], then [a-z] or [A-Z] for ten
    to thirty-five. *)
Definition digitValue (c : ascii) : option Z :=
  let n := Z.of_nat (nat_of_ascii c) in
  if (48 <=? n) && (n <=? 57) then Some (n - 48)
  else if (97 <=? n) && (n <=? 122) then Some (n - 87)
  else if (65 <=? n) && (n <=? 90) then Some (n - 55)
  else None.

(** The longest prefix of digits of the radix: its value (continuing [acc]),
    how many digits it has, and what follows it. *)
Fixpoint takeDigits (radix : Z) (s : string) (acc : Z) (count : nat)
  : Z * nat * string :=
  match s with
  | EmptyString => (acc, count, s)
  | String c s' =>
      match digitValue c with
      | Some d =>
          if d <? radix then takeDigits radix s' (acc * radix + d) (S count)
          else (acc, count, s)
      | None => (acc, count, s)
      end
  end.

Definition takeSign (s : string) : bool * string :=
  match s with
  | String "-" r => (true, r)
  | String "+" r => (false, r)
  | _ => (false, s)
  end.

(** [parseInt(s)] with no radix given: leading white space, a sign, [0x] or
    [0X] for radix sixteen, then the longest run of digits; [NaN] when there
    is none.  What follows the digits is ignored.  The result is the double
    nearest to the integer written. *)
Definition parseInt (s : string) : number :=
  let '(neg, s2) := takeSign (trimStart s) in
  let '(radix, s3) :=
    match s2 with
    | String "0" (String "x" r) => (16, r)
    | String "0" (String "X" r) => (16, r)
    | _ => (10, s2)
    end in
  let '(v, count, _) := takeDigits radix s3 0 0 in
  match count with
  | O => NaN
  | S _ => toDouble (inject_Z (signed neg v))
  end.

(** [m * 10^e] as a rational in lowest terms. *)
Definition scale10 (m e : Z) : Q :=
  if 0 <=? e then inject_Z (m * 10 ^ e)
  else Qred (Qmake m (Z.to_pos (10 ^ (- e)))).

(** A literal [0x..], [0o..] or [0b..]: every character after the prefix
    must be a digit of the radix, and there must be one. *)
Definition nonDecimalLiteral (t : string) : option number :=
  let whole (radix : Z) (r : string) : option number :=
    match takeDigits radix r 0 0 with
    | (v, S _, EmptyString) => Some (toDouble (inject_Z v))
    | _ => Some NaN
    end in
  match t with
  | String "0" (String "x" r) | String "0" (String "X" r) => whole 16 r
  | String "0" (String "o" r) | String "0" (String "O" r) => whole 8 r
  | String "0" (String "b" r) | String "0" (String "B" r) => whole 2 r
  | _ => None
  end.

(** The exponent part of a decimal literal: nothing, or [e] or [E], a sign
    and digits up to the end. *)
Definition exponentPart (r : string) : option Z :=
  match r with
  | EmptyString => Some 0
  | String c r1 =>
      if Ascii.eqb c "e" || Ascii.eqb c "E" then
        let '(neg, r2) := takeSign r1 in
        match takeDigits 10 r2 0 0 with
        | (e, S _, EmptyString) => Some (signed neg e)
        | _ => None
        end
      else None
  end.

(** A signed decimal literal: [Infinity], or digits with an optional
    fraction and exponent; there must be a digit before the exponent. *)
Definition decimalLiteral (t : string) : number :=
  let '(neg, r) := takeSign t in
  if String.eqb r "Infinity" then (if neg then NegInfinity else PosInfinity)
  else
    let '(ip, n1, r1) := takeDigits 10 r 0 0 in
    let '(m, n2, r2) :=
      match r1 with
      | String "." r1' => takeDigits 10 r1' ip 0
      | _ => (ip, O, r1)
      end in
    match (n1 + n2)%nat with
    | O => NaN
    | S _ =>
        match exponentPart r2 with
        | Some e => toDouble (scale10 (signed neg m) (e - Z.of_nat n2))
        | None => NaN
        end
    end.

(** [Number(s)] on a string: white space is trimmed at both ends, the empty
    string is zero, anything that is not a numeric literal is [NaN], and the
    value of a literal is the double nearest to it. *)
Definition Number_ofString (s : string) : number :=
  let t := trim s in
  match t with
  | EmptyString => Fin 0
  | _ => match nonDecimalLiteral t with
         | Some n => n
         | None => decimalLiteral t
         end
  end.

Definition ToNumber (v : value) : number :=
  match v with
  | VUndefined => NaN
  | VNumber n => n
  | VString s => Number_ofString s
  end.

(** The global [isNaN]: its argument is converted to a number first. *)
Definition isNaN (v : value) : bool :=
  match ToNumber v with
  | NaN => true
  | _ => false
  end.

Definition Math_ceil (v : value) : number :=
  match ToNumber v with
  | Fin q => Fin (inject_Z (Qceiling q))
  | n => n
  end.

(** [v > 0]: false when [v] is not a number. *)
Definition gt0 (v : value) : bool :=
  match ToNumber v with
  | Fin q => negb (Qle_bool q 0)
  | PosInfinity => true
  | _ => false
  end.

(** A number used as a condition: [NaN] and zero are false. *)
Definition truthy (n : number) : bool :=
  match n with
  | NaN => false
  | Fin q => negb (Qeq_bool q 0)
  | _ => true
  end.

(** *** Writing numbers *)

(** Whether the integer [w], read as a number, is the positive integer
    [x]. *)
Definition readsAs (w x : Z) : bool :=
  match toDouble (inject_Z w) with
  | Fin q => Qeq_bool q (inject_Z x)
  | _ => false
  end.

(** The digits of a positive integer [x] that is a double: of the integers
    that read as [x], one with the fewest significant digits, that is, a
    multiple of the highest power of ten, from [10^j] down, for which there is
    one; of the two such multiples around [x] the nearer one, and the one with
    the even last digit when they are as near. *)
Fixpoint shortest (x : Z) (j : nat) : Z :=
  let p := 10 ^ Z.of_nat j in
  let lo := x / p * p in
  let hi := lo + p in
  match readsAs lo x, readsAs hi x with
  | true, true =>
      match x - lo ?= hi - x with
      | Lt => lo
      | Gt => hi
      | Eq => if Z.even (x / p) then lo else hi
      end
  | true, false => lo
  | false, true => hi
  | false, false =>
      match j with
      | O => x
      | S j' => shortest x j'
      end
  end.

Fixpoint stripZeros (fuel : nat) (w : Z) : Z :=
  match fuel with
  | O => w
  | S fuel' => if w mod 10 =? 0 then stripZeros fuel' (w / 10) else w
  end.

(** A positive integer of more than twenty-one digits: its digits without
    the zeros at the end, a point after the first when there are more, and
    the exponent. *)
Definition exponential (w : Z) : string :=
  let n := String.length (Z_to_string w) in
  let digits := Z_to_string (stripZeros n w) in
  let mantissa :=
    match digits with
    | String d (String d' rest) => String d (String "." (String d' rest))
    | _ => digits
    end in
  (mantissa ++ "e+" ++ Z_to_string (Z.of_nat n - 1))%string.

(** How an integer is written.  Up to [2^53] every integer is a double and
    is written in full; beyond, the digits are the fewest that read as the
    same double, followed by zeros, or by an exponent from [10^21] on. *)
Definition integerToString (z : Z) : string :=
  if Z.abs z <=? 2 ^ 53 then Z_to_string z
  else
    let w := shortest (Z.abs z) (String.length (Z_to_string (Z.abs z))) in
    let sign := if z <? 0 then "-"%string else EmptyString in
    if w <? 10 ^ 21 then (sign ++ Z_to_string w)%string
    else (sign ++ exponential w)%string.

Definition isInteger (q : Q) : bool := Qeq_bool q (inject_Z (Qfloor q)).

Section Rendering.

(** How the engine writes a finite number that is not an integer: the
    shortest decimal that reads back as the same double, with an exponent
    where needed.  It is a parameter of the development. *)
Variable dtoa : Q -> string.

Definition Number_toString (n : number) : string :=
  match n with
  | NaN => "NaN"
  | PosInfinity => "Infinity"
  | NegInfinity => "-Infinity"
  | Fin q => if isInteger q then integerToString (Qfloor q) else dtoa q
  end.

Definition ToString (v : value) : string :=
  match v with
  | VUndefined => "undefined"
  | VNumber n => Number_toString n
  | VString s => s
  end.

End Rendering.

End JS.

Import JS.

(** ** The [$timeout] service and the event loop *)

Module Timeout.

Section Service.

Context {C : Type}.

(** A pending call: the handle [$timeout] returned for it, the time it is
    due, and the callback. *)
Record timer : Type := mkTimer { handle : nat; due : Z; callback : C }.

(** Pending calls are kept in the order they will run: by due time, and
    first registered first among equals. *)
Record service : Type := mkService { next_handle : nat; queue : list timer }.

Definition empty : service := {| next_handle := 0; queue := [] |}.

Fixpoint enqueue (t : timer) (q : list timer) : list timer :=
  match q with
  | [] => [t]
  | x :: q' => if due x <=? due t then x :: enqueue t q' else t :: q
  end.

(** [$timeout(cb, delay)] called at time [now]. *)
Definition start (now delay : Z) (cb : C) (s : service) : nat * service :=
  let t := {| handle := next_handle s; due := now + delay; callback := cb |} in
  (next_handle s,
   {| next_handle := S (next_handle s); queue := enqueue t (queue s) |}).

(** [$timeout.cancel(h)]. *)
Definition cancel (h : nat) (s : service) : service :=
  {| next_handle := next_handle s;
     queue := filter (fun t => negb (Nat.eqb (handle t) h)) (queue s) |}.

End Service.

Arguments timer : clear implicits.
Arguments service : clear implicits.

End Timeout.

Module Loop.

Section Run.

(** A controller: its variables [V], the callbacks [C] it hands to
    [$timeout], and the user actions [A] of its template. *)
Context {V C A : Type}.

(** What the controller has done so far: its variables, the pending
    timeouts, and the commands given to [itemService.sendCommand], each with
    the time it was sent. *)
Record world : Type := mkWorld {
  vars : V;
  timers : Timeout.service C;
  sent : list (Z * value)
}.

(** A callback changes the variables and sends commands; none of the
    callbacks of this file registers or cancels a timeout. *)
Variable fire : C -> V -> V * list value.
Variable handler : Z -> A -> world -> world.

Definition stamp (t : Z) (cs : list value) : list (Z * value) :=
  map (fun c => (t, c)) cs.

Fixpoint run_due (t : Z) (q : list (Timeout.timer C)) (v : V)
    (out : list (Z * value))
  : list (Timeout.timer C) * V * list (Z * value) :=
  match q with
  | [] => ([], v, out)
  | tm :: q' =>
      if Timeout.due tm <=? t then
        let '(v', cs) := fire (Timeout.callback tm) v in
        run_due t q' v' (out ++ stamp (Timeout.due tm) cs)
      else (q, v, out)
  end.

(** Time passes until [t]: every timeout due by then runs, in order. *)
Definition advance (t : Z) (w : world) : world :=
  let '(q, v, out) := run_due t (Timeout.queue (timers w)) (vars w) (sent w) in
  {| vars := v;
     timers := {| Timeout.next_handle := Timeout.next_handle (timers w);
                  Timeout.queue := q |};
     sent := out |}.

(** The user acts at the given times. *)
Fixpoint run (evs : list (Z * A)) (w : world) : world :=
  match evs with
  | [] => w
  | (t, a) :: rest => run rest (handler t a (advance t w))
  end.

End Run.

Arguments world : clear implicits.

End Loop.

(** ** ItemController.sendCommand *)

(** [$scope.sendCommand(command)] as every caller below uses it, without
    [updateState]: the command goes to [itemService.sendCommand] and the
    item's state is left alone.  The state text it refreshes is read by the
    templates only and is not kept. *)
Definition scope_sendCommand {V C : Type} (now : Z) (command : value)
    (w : Loop.world V C) : Loop.world V C :=
  {| Loop.vars := Loop.vars w;
     Loop.timers := Loop.timers w;
     Loop.sent := Loop.sent w ++ [(now, command)] |}.

(** ** DimmerItemController *)

Module Dimmer.

Record scope : Type := mkScope {
  item_state : string;
  switchState : bool;
  commandTimeout : option nat
}.

(** The closure given to [$timeout]: it holds the command of the call that
    registered it. *)
Inductive callback : Type := SendLater (command : value).

Inductive action : Type :=
| SetSwitch (state : bool)
| SetBrightness (brightness : value).

Definition world : Type := Loop.world scope callback.

Definition fire (cb : callback) (sc : scope) : scope * list value :=
  match cb with
  | SendLater command =>
      ({| item_state := item_state sc;
          switchState := switchState sc;
          commandTimeout := None |},
       [command])
  end.

Definition sendCommand (now : Z) (command : value) (w : world) : world :=
  let sc := Loop.vars w in
  let ts :=
    match commandTimeout sc with
    | Some h => Timeout.cancel h (Loop.timers w)
    | None => Loop.timers w
    end in
  let '(h, ts') := Timeout.start now 300 (SendLater command) ts in
  {| Loop.vars := {| item_state := item_state sc;
                     switchState := switchState sc;
                     commandTimeout := Some h |};
     Loop.timers := ts';
     Loop.sent := Loop.sent w |}.

Definition setSwitch (now : Z) (state : bool) (w : world) : world :=
  sendCommand now (VString (if state then "ON" else "OFF")) w.

Definition setBrightness (now : Z) (brightness : value) (w : world) : world :=
  let sc := Loop.vars w in
  let w' := {| Loop.vars := {| item_state := item_state sc;
                               switchState := gt0 brightness;
                               commandTimeout := commandTimeout sc |};
               Loop.timers := Loop.timers w;
               Loop.sent := Loop.sent w |} in
  sendCommand now brightness w'.

Definition handler (now : Z) (a : action) (w : world) : world :=
  match a with
  | SetSwitch state => setSwitch now state w
  | SetBrightness brightness => setBrightness now brightness w
  end.

(** The controller's body: an undefined state is shown as a dash, and the
    switch is on when the state reads as a positive integer. *)
Definition body (state : string) : scope :=
  let state' :=
    if String.eqb state "UNDEF" || String.eqb state "NULL" then "-"%string
    else state in
  {| item_state := state';
     switchState := gt0 (VNumber (parseInt state'));
     commandTimeout := None |}.

(** The watch on [item.state]; it runs in the first digest. *)
Definition watch_item_state (sc : scope) : scope :=
  {| item_state := item_state sc;
     switchState := gt0 (VString (item_state sc));
     commandTimeout := commandTimeout sc |}.

Definition init (state : string) : world :=
  {| Loop.vars := watch_item_state (body state);
     Loop.timers := Timeout.empty;
     Loop.sent := [] |}.

Definition advance : Z -> world -> world := Loop.advance fire.
Definition run : list (Z * action) -> world -> world := Loop.run fire handler.

End Dimmer.

(** ** ColorItemController *)

Module Color.

Record stateObject : Type := mkStateObject { h : value; s : value; b : value }.

Definition set_h (v : value) (o : stateObject) : stateObject :=
  {| h := v; s := s o; b := b o |}.
Definition set_s (v : value) (o : stateObject) : stateObject :=
  {| h := h o; s := v; b := b o |}.
Definition set_b (v : value) (o : stateObject) : stateObject :=
  {| h := h o; s := s o; b := v |}.

Record scope : Type := mkScope {
  item_state : string;
  hue : value;
  saturation : value;
  brightness : value;
  pending : bool
}.

Definition set_item_state (x : string) (sc : scope) : scope :=
  {| item_state := x; hue := hue sc; saturation := saturation sc;
     brightness := brightness sc; pending := pending sc |}.
Definition set_hue (v : value) (sc : scope) : scope :=
  {| item_state := item_state sc; hue := v; saturation := saturation sc;
     brightness := brightness sc; pending := pending sc |}.
Definition set_saturation (v : value) (sc : scope) : scope :=
  {| item_state := item_state sc; hue := hue sc; saturation := v;
     brightness := brightness sc; pending := pending sc |}.
Definition set_brightness (v : value) (sc : scope) : scope :=
  {| item_state := item_state sc; hue := hue sc; saturation := saturation sc;
     brightness := v; pending := pending sc |}.
Definition set_pending (p : bool) (sc : scope) : scope :=
  {| item_state := item_state sc; hue := hue sc; saturation := saturation sc;
     brightness := brightness sc; pending := p |}.

(** The two closures given to [$timeout]: the one of [setBrightness] and the
    one of [setColor]. *)
Inductive callback : Type := BrightnessTimeout | ColorTimeout.

Inductive action : Type :=
| SetBrightness (brightness : value)
| SetHue (hue : value)
| SetSaturation (saturation : value).

Definition world : Type := Loop.world scope callback.

Definition set_vars (sc : scope) (w : world) : world :=
  {| Loop.vars := sc; Loop.timers := Loop.timers w; Loop.sent := Loop.sent w |}.

Definition getStateAsObject (state : string) : stateObject :=
  let stateParts := split "," state in
  if (List.length stateParts =? 3)%nat then
    {| h := VNumber (parseInt (nth 0 stateParts EmptyString));
       s := VNumber (parseInt (nth 1 stateParts EmptyString));
       b := VNumber (parseInt (nth 2 stateParts EmptyString)) |}
  else {| h := num 0; s := num 0; b := num 0 |}.

(** [x ? x : 0]. *)
Definition orZero (v : value) : value :=
  match v with
  | VNumber n => if truthy n then v else num 0
  | VString EmptyString => num 0
  | VString _ => v
  | VUndefined => num 0
  end.

Definition setStates (sc : scope) : scope :=
  let stateObject := getStateAsObject (item_state sc) in
  let hue := h stateObject in
  let brightness := b stateObject in
  let saturation := s stateObject in
  set_saturation (orZero saturation)
    (set_brightness (orZero brightness) (set_hue (orZero hue) sc)).

(** [isNaN(x) ? '0' : x]. *)
Definition orZeroString (v : value) : value :=
  if isNaN v then VString "0" else v.

Definition isUninitialized (state : string) : bool :=
  String.eqb state "UNDEF" || String.eqb state "NULL" || String.eqb state "-".

(** The watch on [item.state]: [setStates] runs in the digest that follows a
    callback which changed the state. *)
Definition digest (before : string) (sc : scope) : scope :=
  if String.eqb before (item_state sc) then sc else setStates sc.

Section Rendering.

Variable dtoa : Q -> string.

Definition toState (stateObject : stateObject) : string :=
  (Number_toString dtoa (Math_ceil (h stateObject)) ++ "," ++
   Number_toString dtoa (Math_ceil (s stateObject)) ++ "," ++
   Number_toString dtoa (Math_ceil (b stateObject)))%string.

(** The callback of [setBrightness]. *)
Definition brightnessTimeout (sc : scope) : scope * list value :=
  let command := orZeroString (brightness sc) in
  (set_pending false sc, [command]).

(** The callback of [setColor]. *)
Definition colorTimeout (sc : scope) : scope * list value :=
  let stateObject := getStateAsObject (item_state sc) in
  let stateObject := set_b (orZeroString (brightness sc)) stateObject in
  let stateObject := set_s (orZeroString (saturation sc)) stateObject in
  let stateObject := set_h (orZeroString (hue sc)) stateObject in
  let '(stateObject, sc) :=
    if isUninitialized (item_state sc) then
      let stateObject := set_b (num 100) stateObject in
      let stateObject := set_s (num 100) stateObject in
      let sc := set_brightness (b stateObject) sc in
      let sc := set_saturation (s stateObject) sc in
      (stateObject, sc)
    else (stateObject, sc) in
  let sc := set_item_state (toState stateObject) sc in
  (set_pending false sc, [VString (item_state sc)]).

(** A callback runs inside [$apply]: the digest follows it. *)
Definition fire (cb : callback) (sc : scope) : scope * list value :=
  let '(sc', cs) :=
    match cb with
    | BrightnessTimeout => brightnessTimeout sc
    | ColorTimeout => colorTimeout sc
    end in
  (digest (item_state sc) sc', cs).

End Rendering.

Definition setBrightness (now : Z) (brightness : value) (w : world) : world :=
  let w := set_vars (set_brightness brightness (Loop.vars w)) w in
  if negb (pending (Loop.vars w)) then
    let '(_, ts) := Timeout.start now 300 BrightnessTimeout (Loop.timers w) in
    {| Loop.vars := set_pending true (Loop.vars w);
       Loop.timers := ts;
       Loop.sent := Loop.sent w |}
  else w.

Definition setColor (now : Z) (w : world) : world :=
  if negb (pending (Loop.vars w)) then
    let '(_, ts) := Timeout.start now 300 ColorTimeout (Loop.timers w) in
    {| Loop.vars := set_pending true (Loop.vars w);
       Loop.timers := ts;
       Loop.sent := Loop.sent w |}
  else w.

Definition setHue (now : Z) (hue : value) (w : world) : world :=
  setColor now (set_vars (set_hue hue (Loop.vars w)) w).

Definition setSaturation (now : Z) (saturation : value) (w : world) : world :=
  setColor now (set_vars (set_saturation saturation (Loop.vars w)) w).

Definition handler (now : Z) (a : action) (w : world) : world :=
  match a with
  | SetBrightness v => setBrightness now v w
  | SetHue v => setHue now v w
  | SetSaturation v => setSaturation now v w
  end.

(** The controller's body: an undefined state is shown as a dash, nothing is
    pending, and [setStates] reads the sliders from the state. *)
Definition init (state : string) : world :=
  let state' :=
    if String.eqb state "UNDEF" || String.eqb state "NULL" then "-"%string
    else state in
  {| Loop.vars := setStates {| item_state := state';
                               hue := VUndefined;
                               saturation := VUndefined;
                               brightness := VUndefined;
                               pending := false |};
     Loop.timers := Timeout.empty;
     Loop.sent := [] |}.

Definition advance (dtoa : Q -> string) : Z -> world -> world :=
  Loop.advance (fire dtoa).
Definition run (dtoa : Q -> string) : list (Z * action) -> world -> world :=
  Loop.run (fire dtoa) handler.

End Color.

(** ** PlayerItemController *)

Module Player.

(** [var isInterrupted, time]: both undefined until the first press, and
    shared by the two buttons. *)
Record scope : Type := mkScope {
  isInterrupted : option bool;
  time : option Z
}.

Inductive callback : Type :=
| HoldPrev
| HoldNext
| Settle.

Inductive action : Type := PrevDown | PrevUp | NextDown | NextUp.

Definition world : Type := Loop.world scope callback.

(** [!isInterrupted]: true when it is false or still undefined. *)
Definition notInterrupted (sc : scope) : bool :=
  match isInterrupted sc with
  | Some true => false
  | _ => true
  end.

Definition fire (cb : callback) (sc : scope) : scope * list value :=
  match cb with
  | HoldPrev => (sc, if notInterrupted sc then [VString "REWIND"] else [])
  | HoldNext => (sc, if notInterrupted sc then [VString "FASTFORWARD"] else [])
  | Settle => (sc, [VString "PLAY"])
  end.

Definition onDown (hold : callback) (now : Z) (w : world) : world :=
  let '(_, ts) := Timeout.start now 300 hold (Loop.timers w) in
  {| Loop.vars := {| isInterrupted := Some false; time := Some now |};
     Loop.timers := ts;
     Loop.sent := Loop.sent w |}.

(** [time + 300 > newTime]: false while [time] is undefined. *)
Definition withinThreshold (sc : scope) (newTime : Z) : bool :=
  match time sc with
  | Some t => newTime <? t + 300
  | None => false
  end.

Definition onUp (tap : string) (newTime : Z) (w : world) : world :=
  if withinThreshold (Loop.vars w) newTime then
    scope_sendCommand newTime (VString tap)
      {| Loop.vars := {| isInterrupted := Some true;
                         time := time (Loop.vars w) |};
         Loop.timers := Loop.timers w;
         Loop.sent := Loop.sent w |}
  else
    let '(_, ts) := Timeout.start newTime 0 Settle (Loop.timers w) in
    {| Loop.vars := Loop.vars w; Loop.timers := ts; Loop.sent := Loop.sent w |}.

Definition onPrevDown : Z -> world -> world := onDown HoldPrev.
Definition onPrevUp : Z -> world -> world := onUp "PREVIOUS".
Definition onNextDown : Z -> world -> world := onDown HoldNext.
Definition onNextUp : Z -> world -> world := onUp "NEXT".

Definition handler (now : Z) (a : action) (w : world) : world :=
  match a with
  | PrevDown => onPrevDown now w
  | PrevUp => onPrevUp now w
  | NextDown => onNextDown now w
  | NextUp => onNextUp now w
  end.

Definition init : world :=
  {| Loop.vars := {| isInterrupted := None; time := None |};
     Loop.timers := Timeout.empty;
     Loop.sent := [] |}.

Definition advance : Z -> world -> world := Loop.advance fire.
Definition run : list (Z * action) -> world -> world := Loop.run fire handler.

End Player.

(** ** ControlController.getItems *)

Module Control.

Record StateDescription : Type := mkStateDescription { sd_readOnly : bool }.

(** An item as the controller uses it.  [type], [groupType], [unit],
    [stateDescription] and [imageLoaded] may be undefined. *)
Record item : Type := mkItem {
  name : string;
  type : option string;
  groupType : option string;
  state : value;
  unit : option string;
  stateDescription : option StateDescription;
  stateText : string;
  readOnly : bool;
  imageLoaded : option bool
}.

Definition set_state (v : value) (it : item) : item :=
  {| name := name it; type := type it; groupType := groupType it; state := v;
     unit := unit it; stateDescription := stateDescription it;
     stateText := stateText it; readOnly := readOnly it;
     imageLoaded := imageLoaded it |}.
Definition set_unit (u : string) (it : item) : item :=
  {| name := name it; type := type it; groupType := groupType it;
     state := state it; unit := Some u;
     stateDescription := stateDescription it; stateText := stateText it;
     readOnly := readOnly it; imageLoaded := imageLoaded it |}.
Definition set_stateText (x : string) (it : item) : item :=
  {| name := name it; type := type it; groupType := groupType it;
     state := state it; unit := unit it;
     stateDescription := stateDescription it; stateText := x;
     readOnly := readOnly it; imageLoaded := imageLoaded it |}.
Definition set_readOnly (x : bool) (it : item) : item :=
  {| name := name it; type := type it; groupType := groupType it;
     state := state it; unit := unit it;
     stateDescription := stateDescription it; stateText := stateText it;
     readOnly := x; imageLoaded := imageLoaded it |}.
Definition set_imageLoaded (x : bool) (it : item) : item :=
  {| name := name it; type := type it; groupType := groupType it;
     state := state it; unit := unit it;
     stateDescription := stateDescription it; stateText := stateText it;
     readOnly := readOnly it; imageLoaded := Some x |}.

(** [x && x.indexOf("Number") === 0] on a field that may be undefined. *)
Definition startsWithNumber (x : option string) : bool :=
  match x with
  | Some t => String.prefix "Number" t
  | None => false
  end.

Definition isNumeric (it : item) : bool :=
  startsWithNumber (type it)
  || match type it with
     | Some t => String.eqb t "Rollershutter"
     | None => false
     end
  || startsWithNumber (groupType it).

Definition isImage (it : item) : bool :=
  match type it with
  | Some t => String.eqb t "Image"
  | None => false
  end.

Definition isReadOnly (it : item) : bool :=
  match stateDescription it with
  | Some sd => sd_readOnly sd
  | None => false
  end.

Section Collaborators.

Variable dtoa : Q -> string.

(** [util.getItemStateText], a service of another file. *)
Variable getItemStateText : item -> string.

(** The body of the test on the item's type: the state is read as a string,
    cut at its first space when that is not its first character, and replaced
    by the number it reads as. *)
Definition decodeState (it : item) : item :=
  let state := ToString dtoa (state it) in
  let '(it, state) :=
    if 0 <? indexOf " " state then
      (set_unit (substring_from state (indexOf " " state + 1)) it,
       substring state 0 (indexOf " " state))
    else (it, state) in
  let parsedValue := Number_ofString state in
  if negb (isNaN (VNumber parsedValue)) then set_state (VNumber parsedValue) it
  else it.

(** The function given to [angular.forEach].  Loading an image is started
    here and completes later; only the flag it sets at once is kept. *)
Definition each (it : item) : item :=
  let it := if isNumeric it then decodeState it else it in
  let it := if isImage it then set_imageLoaded false it else it in
  let it := set_stateText (getItemStateText it) it in
  set_readOnly (isReadOnly it) it.

(** [getItems(itemNames)] over the items of [$scope.data.items]. *)
Definition getItems (data_items : list item) (itemNames : list string)
  : list item :=
  let items :=
    filter (fun it => existsb (String.eqb (name it)) itemNames) data_items in
  map each items.

End Collaborators.

End Control.

(** ** OnOffValue (MQTT generic binding) *)

Module OnOffValue.

Inductive OnOffType : Type := ON | OFF.
Inductive OpenClosedType : Type := OPEN | CLOSED.

(** The commands [update] tells apart; any other class is [OtherCommand]. *)
Inductive Command : Type :=
| OnOffCommand (c : OnOffType)
| OpenClosedCommand (c : OpenClosedType)
| StringCommand (s : string)
| OtherCommand (className : string).

Inductive result (A : Type) : Type :=
| Return (a : A)
| IllegalArgumentException (message : string).
Arguments Return {A} a.
Arguments IllegalArgumentException {A} message.

(** The object: [boolValue] is its one mutable field. *)
Record t : Type := mkOnOffValue {
  boolValue : OnOffType;
  onValue : string;
  offValue : string;
  inverse : bool;
  receivesOnly : bool
}.

Definition set_boolValue (v : OnOffType) (o : t) : t :=
  {| boolValue := v; onValue := onValue o; offValue := offValue o;
     inverse := inverse o; receivesOnly := receivesOnly o |}.

Definition orDefault (x : option string) (d : string) : string :=
  match x with
  | Some s => s
  | None => d
  end.

Definition isTrue (x : option bool) : bool :=
  match x with
  | Some b => b
  | None => false
  end.

(** [new OnOffValue()]. *)
Definition new : t :=
  {| boolValue := OFF; onValue := "ON"; offValue := "OFF"; inverse := false;
     receivesOnly := false |}.

(** [new OnOffValue(onValue, offValue, isInversedOnOff)]; an argument may be
    null. *)
Definition new3 (onValue offValue : option string)
    (isInversedOnOff : option bool) : t :=
  {| boolValue := OFF;
     onValue := orDefault onValue "ON";
     offValue := orDefault offValue "OFF";
     inverse := isTrue isInversedOnOff;
     receivesOnly := false |}.

Definition createReceiveOnly (onValue offValue : option string)
    (isInversedOnOff : option bool) : t :=
  {| boolValue := OFF;
     onValue := orDefault onValue "ON";
     offValue := orDefault offValue "OFF";
     inverse := isTrue isInversedOnOff;
     receivesOnly := true |}.

Definition upper (c : ascii) : ascii :=
  let n := nat_of_ascii c in
  if ((97 <=? n) && (n <=? 122))%nat then ascii_of_nat (n - 32) else c.

Fixpoint toUpperCase (s : string) : string :=
  match s with
  | EmptyString => EmptyString
  | String c s' => String (upper c) (toUpperCase s')
  end.

Definition flip (v : OnOffType) : OnOffType :=
  match v with
  | ON => OFF
  | OFF => ON
  end.

(** [inverse ? (boolValue == ON ? OFF : ON) : boolValue]. *)
Definition inversed (o : t) : OnOffType :=
  if inverse o then flip (boolValue o) else boolValue o.

(** [update(String updatedValue)]: the state it returns, with the object as
    the call leaves it. *)
Definition update_String (o : t) (updatedValue : string)
  : result (OnOffType * t) :=
  let classified :=
    if String.eqb (onValue o) updatedValue
       || String.eqb "ON" (toUpperCase updatedValue)
       || String.eqb "1" updatedValue
    then Return (set_boolValue ON o)
    else if String.eqb (offValue o) updatedValue
            || String.eqb "OFF" (toUpperCase updatedValue)
            || String.eqb "0" updatedValue
    then Return (set_boolValue OFF o)
    else IllegalArgumentException
           ("Didn't recognise the on/off value " ++ updatedValue) in
  match classified with
  | Return o =>
      let o := set_boolValue (inversed o) o in
      Return (boolValue o, o)
  | IllegalArgumentException m => IllegalArgumentException m
  end.

Definition wire (o : t) : string :=
  match boolValue o with
  | ON => onValue o
  | OFF => offValue o
  end.

(** [update(Command command)]: the string it returns, with the object as the
    call leaves it. *)
Definition update_Command (o : t) (command : Command) : result (string * t) :=
  match command with
  | OnOffCommand c =>
      let o := set_boolValue c o in
      let o := set_boolValue (inversed o) o in
      Return (wire o, o)
  | OpenClosedCommand c =>
      let o := set_boolValue (match c with OPEN => ON | CLOSED => OFF end) o in
      let o := set_boolValue (inversed o) o in
      Return (wire o, o)
  | StringCommand s =>
      match update_String o s with
      | Return (v, o) =>
          let o := set_boolValue v o in
          Return (wire o, o)
      | IllegalArgumentException m => IllegalArgumentException m
      end
  | OtherCommand className =>
      IllegalArgumentException
        ("Type " ++ className ++ " not supported for OnOffValue")
  end.

(** [getValue()]. *)
Definition getValue (o : t) : OnOffType := boolValue o.

(** The two item types of [CoreItemFactory] that [channelTypeID] names. *)
Inductive ItemType : Type := CONTACT | SWITCH.

Definition channelTypeID (o : t) : ItemType :=
  if receivesOnly o then CONTACT else SWITCH.

(** A [StateDescription] as its constructor is called: minimum, maximum and
    step (null here), the pattern, the read-only flag and the options. *)
Record StateDescription : Type := mkStateDescription {
  minimum : option Q;
  maximum : option Q;
  step : option Q;
  pattern : string;
  readOnly : bool;
  options : list string
}.

Definition createStateDescription (o : t) (unit : string) (readOnly : bool)
  : StateDescription :=
  {| minimum := None; maximum := None; step := None;
     pattern := "%s " ++ unit;
     readOnly := receivesOnly o || readOnly;
     options := [] |}.

End OnOffValue.

(** * Properties *)

(** ** The timeouts run in the order of their due times *)

Module TimeoutFacts.

Section Order.

Context {V C : Type}.
Variable fire : C -> V -> V * list value.

Definition in_order (q : list (Timeout.timer C)) : Prop :=
  StronglySorted (fun a b => Timeout.due a <= Timeout.due b) q.

Lemma enqueue_Forall (P : Timeout.timer C -> Prop) (t : Timeout.timer C)
    (q : list (Timeout.timer C)) :
  P t -> Forall P q -> Forall P (Timeout.enqueue t q).
Proof.
  intros Ht Hq. induction Hq as [| x q' Hx Hq' IH]; simpl.
  - constructor; [exact Ht | constructor].
  - destruct (Timeout.due x <=? Timeout.due t).
    + constructor; assumption.
    + constructor; [exact Ht | constructor; assumption].
Qed.

(** Registering a timeout keeps the queue in order. *)
Lemma enqueue_in_order (t : Timeout.timer C) (q : list (Timeout.timer C)) :
  in_order q -> in_order (Timeout.enqueue t q).
Proof.
  unfold in_order. intros Hq.
  induction Hq as [| x q' Hq' IH Hx]; simpl.
  - constructor; [constructor | constructor].
  - destruct (Z.leb_spec (Timeout.due x) (Timeout.due t)) as [Hle | Hlt].
    + constructor; [exact IH |].
      apply enqueue_Forall; [exact Hle | exact Hx].
    + constructor; [constructor; assumption |].
      constructor; [lia |].
      eapply Forall_impl; [| exact Hx]. intros b Hb. simpl in Hb. lia.
Qed.

(** Cancelling a timeout keeps the queue in order. *)
Lemma cancel_in_order (h : nat) (s : Timeout.service C) :
  in_order (Timeout.queue s) -> in_order (Timeout.queue (Timeout.cancel h s)).
Proof.
  unfold in_order, Timeout.cancel. cbn [Timeout.queue].
  intros Hq. induction Hq as [| x q' Hq' IH Hx]; simpl.
  - constructor.
  - destruct (negb (Nat.eqb (Timeout.handle x) h)); [| exact IH].
    constructor; [exact IH |].
    rewrite Forall_forall in *. intros b Hb.
    apply filter_In in Hb. apply Hx. apply Hb.
Qed.

(** On a queue in order, [run_due] runs every timeout that is due: what it
    leaves is in order and due later. *)
Lemma run_due_complete (t : Z) (q : list (Timeout.timer C)) :
  in_order q ->
  forall (v : V) (out : list (Z * value)),
    let q' := fst (fst (Loop.run_due fire t q v out)) in
    in_order q' /\ Forall (fun tm => t < Timeout.due tm) q'.
Proof.
  unfold in_order. intros Hq.
  induction Hq as [| x q' Hq' IH Hx]; intros v out; simpl.
  - split; constructor.
  - destruct (Z.leb_spec (Timeout.due x) t) as [Hle | Hlt].
    + destruct (fire (Timeout.callback x) v) as [v' cs]. apply IH.
    + simpl. split; [constructor; assumption |].
      constructor; [exact Hlt |].
      eapply Forall_impl; [| exact Hx]. intros b Hb. simpl in Hb. lia.
Qed.

End Order.

End TimeoutFacts.

(** ** OnOffValue: reading and writing the wire string *)

Module OnOffValueFacts.

Import OnOffValue.

(** The strings [update(String)] takes for on, and for off. *)
Definition isOn (o : t) (x : string) : Prop :=
  x = onValue o \/ toUpperCase x = "ON"%string \/ x = "1"%string.

Definition isOff (o : t) (x : string) : Prop :=
  x = offValue o \/ toUpperCase x = "OFF"%string \/ x = "0"%string.

(** Encoding [command] and decoding the string that comes out. *)
Definition roundtrip (o : t) (command : OnOffType) : result OnOffType :=
  match update_Command o (OnOffCommand command) with
  | Return (x, o') =>
      match update_String o' x with
      | Return (v, _) => Return v
      | IllegalArgumentException m => IllegalArgumentException m
      end
  | IllegalArgumentException m => IllegalArgumentException m
  end.

Lemma isOn_test (o : t) (x : string) :
  String.eqb (onValue o) x || String.eqb "ON" (toUpperCase x)
    || String.eqb "1" x = true <-> isOn o x.
Proof.
  unfold isOn. rewrite !orb_true_iff, !String.eqb_eq.
  intuition congruence.
Qed.

Lemma isOff_test (o : t) (x : string) :
  String.eqb (offValue o) x || String.eqb "OFF" (toUpperCase x)
    || String.eqb "0" x = true <-> isOff o x.
Proof.
  unfold isOff. rewrite !orb_true_iff, !String.eqb_eq.
  intuition congruence.
Qed.

Lemma upper_O (c : ascii) : upper c = "O"%char <-> c = "O"%char \/ c = "o"%char.
Proof.
  destruct c as [[] [] [] [] [] [] [] []]; vm_compute;
    split; intros H; try discriminate H; auto;
    destruct H as [H | H]; discriminate H.
Qed.

Lemma upper_N (c : ascii) : upper c = "N"%char <-> c = "N"%char \/ c = "n"%char.
Proof.
  destruct c as [[] [] [] [] [] [] [] []]; vm_compute;
    split; intros H; try discriminate H; auto;
    destruct H as [H | H]; discriminate H.
Qed.

(** Comparing the upper-cased string with ["ON"] accepts exactly the four
    spellings of the word. *)
Lemma toUpperCase_ON (x : string) :
  toUpperCase x = "ON"%string <->
  x = "ON"%string \/ x = "On"%string \/ x = "oN"%string \/ x = "on"%string.
Proof.
  split.
  - destruct x as [| c1 [| c2 [| c3 r]]]; simpl; intros H; try discriminate H.
    injection H as H1 H2.
    apply upper_O in H1. apply upper_N in H2.
    destruct H1, H2; subst; auto.
  - intros [H | [H | [H | H]]]; subst; reflexivity.
Qed.

Lemma update_String_on (o : t) (x : string) :
  isOn o x ->
  update_String o x
  = Return (if inverse o then OFF else ON,
            set_boolValue (if inverse o then OFF else ON) o).
Proof.
  intros H. apply isOn_test in H. unfold update_String. rewrite H.
  unfold inversed. simpl. destruct (inverse o); reflexivity.
Qed.

Lemma update_String_off (o : t) (x : string) :
  ~ isOn o x -> isOff o x ->
  update_String o x
  = Return (if inverse o then ON else OFF,
            set_boolValue (if inverse o then ON else OFF) o).
Proof.
  intros Hn H. apply isOff_test in H. unfold update_String.
  destruct (String.eqb (onValue o) x || String.eqb "ON" (toUpperCase x)
            || String.eqb "1" x) eqn:Eon.
  - apply isOn_test in Eon. contradiction.
  - rewrite H. unfold inversed. simpl. destruct (inverse o); reflexivity.
Qed.

Lemma update_String_refused (o : t) (x : string) :
  ~ isOn o x /\ ~ isOff o x <->
  update_String o x
  = IllegalArgumentException ("Didn't recognise the on/off value " ++ x).
Proof.
  split.
  - intros [Hn Hf]. unfold update_String.
    destruct (String.eqb (onValue o) x || String.eqb "ON" (toUpperCase x)
              || String.eqb "1" x) eqn:Eon.
    { apply isOn_test in Eon. contradiction. }
    destruct (String.eqb (offValue o) x || String.eqb "OFF" (toUpperCase x)
              || String.eqb "0" x) eqn:Eoff.
    { apply isOff_test in Eoff. contradiction. }
    reflexivity.
  - intros H. split; intros Hc.
    + rewrite (update_String_on o x Hc) in H. discriminate H.
    + destruct (String.eqb (onValue o) x || String.eqb "ON" (toUpperCase x)
                || String.eqb "1" x) eqn:Eon.
      * apply isOn_test in Eon.
        rewrite (update_String_on o x Eon) in H. discriminate H.
      * assert (Hn : ~ isOn o x).
        { intros Hon. apply isOn_test in Hon. congruence. }
        rewrite (update_String_off o x Hn Hc) in H. discriminate H.
Qed.

(** C3 (as amended): [update(String)] compares the wire string exactly with
    [onValue] and with "1", and without regard to case with "ON": any match
    reads as on.  Otherwise it compares exactly with [offValue] and "0", and
    without regard to case with "OFF": any match reads as off.  Every other
    string, and no string that matches, is refused with an
    IllegalArgumentException.  The reading is inverted once, after the match,
    when [inverse] is set, and stored in the object. *)
Theorem C3_update_String_classifies :
  forall (o : t) (x : string),
    (isOn o x ->
       update_String o x
       = Return (if inverse o then OFF else ON,
                 set_boolValue (if inverse o then OFF else ON) o))
    /\ (~ isOn o x -> isOff o x ->
       update_String o x
       = Return (if inverse o then ON else OFF,
                 set_boolValue (if inverse o then ON else OFF) o))
    /\ (~ isOn o x /\ ~ isOff o x <->
        update_String o x
        = IllegalArgumentException
            ("Didn't recognise the on/off value " ++ x))
    /\ (toUpperCase x = "ON"%string <->
        x = "ON"%string \/ x = "On"%string \/ x = "oN"%string
        \/ x = "on"%string).
Proof.
  intros o x. split; [| split; [| split]].
  - apply update_String_on.
  - apply update_String_off.
  - apply update_String_refused.
  - apply toUpperCase_ON.
Qed.

(** C3, where the claim fails: "YES" is [onValue] up to case, and it is
    refused. *)
Lemma C3_custom_literal_is_case_sensitive :
  let o := new3 (Some "yes"%string) (Some "no"%string) None in
  toUpperCase "YES" = toUpperCase (onValue o)
  /\ update_String o "YES"
     = IllegalArgumentException "Didn't recognise the on/off value YES".
Proof. split; reflexivity. Qed.

(** C6 (as amended): encoding ON and decoding the result gives ON back exactly
    when [inverse] is unset, or [offValue] (the string an inverted ON is
    written as) is not itself read as on; in the remaining case it gives
    OFF. *)
Theorem C6_roundtrip_ON :
  forall o : t,
    (roundtrip o ON = Return ON <->
       inverse o = false \/ ~ isOn o (offValue o))
    /\ (inverse o = true -> isOn o (offValue o) -> roundtrip o ON = Return OFF).
Proof.
  intros o. unfold roundtrip, update_Command, inversed, wire. simpl.
  destruct (inverse o) eqn:Einv; simpl.
  - set (o' := set_boolValue OFF (set_boolValue ON o)).
    pose proof (update_String_on o' (offValue o)) as Hon.
    pose proof (update_String_off o' (offValue o)) as Hoff.
    change (inverse o') with (inverse o) in Hon, Hoff.
    change (isOn o' (offValue o)) with (isOn o (offValue o)) in Hon, Hoff.
    rewrite Einv in Hon, Hoff.
    split.
    + split.
      * intros H. right. intros Hc. rewrite (Hon Hc) in H. discriminate H.
      * intros [H | H]; [discriminate H |].
        rewrite Hoff; [reflexivity | exact H | left; reflexivity].
    + intros _ Hc. rewrite (Hon Hc). reflexivity.
  - set (o' := set_boolValue ON (set_boolValue ON o)).
    pose proof (update_String_on o' (onValue o)) as Hon.
    change (inverse o') with (inverse o) in Hon.
    rewrite Einv in Hon.
    rewrite Hon; [| left; reflexivity].
    split; [split; auto | intros H; discriminate H].
Qed.

(** C6, where the claim fails: with "0" for on, "1" for off and the inversion
    set, ON is written as "1", and "1" is read back as OFF. *)
Lemma C6_roundtrip_lost :
  let o := new3 (Some "0"%string) (Some "1"%string) (Some true) in
  inverse o = true
  /\ update_Command o (OnOffCommand ON) = Return ("1"%string, o)
  /\ update_String o "1" = Return (OFF, o)
  /\ roundtrip o ON = Return OFF.
Proof. repeat split; reflexivity. Qed.

End OnOffValueFacts.

(** ** The doubles nearest to the integers *)

Module NumberFacts.

Lemma roundHalfEven_exact (m d : Z) : 0 < d -> roundHalfEven (m * d) d = m.
Proof.
  intros Hd. unfold roundHalfEven.
  rewrite Z.div_mul by lia. rewrite Z.mod_mul by lia.
  replace (2 * 0) with 0 by lia.
  destruct (Z.compare_spec 0 d); first [reflexivity | lia].
Qed.

(** The nearest integer lies between the quotient and the one after it. *)
Lemma roundHalfEven_bounds (n d : Z) :
  0 < d -> n / d <= roundHalfEven n d <= n / d + 1.
Proof.
  intros Hd. unfold roundHalfEven.
  destruct (2 * (n mod d) ?= d); [destruct (Z.even (n / d)) | |]; lia.
Qed.

Lemma roundHalfEven_monotone (a b d : Z) :
  0 < d -> a <= b -> roundHalfEven a d <= roundHalfEven b d.
Proof.
  intros Hd Hab.
  pose proof (Z.div_le_mono a b d Hd Hab) as Hq.
  destruct (Z.eq_dec (a / d) (b / d)) as [E | Hne].
  - assert (Hr : a mod d <= b mod d).
    { pose proof (Z.div_mod a d ltac:(lia)). pose proof (Z.div_mod b d ltac:(lia)).
      rewrite E in *. lia. }
    unfold roundHalfEven. rewrite E.
    destruct (Z.compare_spec (2 * (a mod d)) d);
      destruct (Z.compare_spec (2 * (b mod d)) d);
      destruct (Z.even (b / d)); lia.
  - pose proof (roundHalfEven_bounds a d Hd). pose proof (roundHalfEven_bounds b d Hd).
    lia.
Qed.

Lemma exponentOf_integer (n : Z) :
  0 < n -> exponentOf n 1 = Z.max (Z.log2 n - 52) (-1074).
Proof.
  intros Hn. unfold exponentOf. change (Z.log2 1) with 0. rewrite Z.sub_0_r.
  pose proof (Z.log2_nonneg n) as Hl.
  destruct (Z.leb_spec 0 (Z.log2 n)) as [_ | H]; [| lia].
  destruct (Z.log2_spec n Hn) as [Hlo _].
  destruct (Z.ltb_spec n (1 * 2 ^ Z.log2 n)) as [H | _]; [lia | reflexivity].
Qed.

Lemma Qred_inject_Z (z : Z) : Qred (inject_Z z) = inject_Z z.
Proof.
  unfold Qred, inject_Z. cbn [Qnum Qden].
  pose proof (Z.ggcd_gcd z 1) as Hg.
  pose proof (Z.ggcd_correct_divisors z 1) as Hd.
  destruct (Z.ggcd z 1) as [g [aa bb]]. cbn [fst snd] in *.
  rewrite Z.gcd_1_r in Hg. subst g. destruct Hd as [Ha Hb].
  replace aa with z by lia. replace bb with 1 by lia. reflexivity.
Qed.

Lemma Qred_integer (z : Z) (k : Z) :
  0 <= k -> Qred (Qmake (z * 2 ^ k) (Z.to_pos (2 ^ k))) = inject_Z z.
Proof.
  intros Hk.
  assert (Hp : 0 < 2 ^ k) by (apply Z.pow_pos_nonneg; lia).
  rewrite <- (Qred_inject_Z z).
  apply Qred_complete. unfold Qeq, inject_Z. cbn [Qnum Qden].
  rewrite Z2Pos.id by exact Hp. lia.
Qed.

(** The double nearest to a positive integer: the integer itself up to
    [2^53], and beyond the nearest multiple of the power of two that leaves
    fifty-three bits. *)
Definition roundInteger (n : Z) : Z :=
  let p := 2 ^ Z.max (Z.log2 n - 52) 0 in
  roundHalfEven n p * p.

Lemma log2_le_52 (n : Z) : 0 < n -> n < 2 ^ 53 -> Z.log2 n <= 52.
Proof.
  intros Hn Hlt. destruct (Z.log2_spec n Hn) as [Hlo _].
  destruct (Z.le_gt_cases (Z.log2 n) 52) as [H | H]; [exact H |].
  assert (2 ^ 53 <= 2 ^ Z.log2 n) by (apply Z.pow_le_mono_r; lia). lia.
Qed.

Lemma roundInteger_small (n : Z) : 0 < n -> n < 2 ^ 53 -> roundInteger n = n.
Proof.
  intros Hn Hlt. unfold roundInteger.
  pose proof (log2_le_52 n Hn Hlt).
  replace (Z.max (Z.log2 n - 52) 0) with 0 by lia.
  change (2 ^ 0) with 1. rewrite Z.mul_1_r.
  pose proof (roundHalfEven_exact n 1 ltac:(lia)) as Hr.
  rewrite Z.mul_1_r in Hr. exact Hr.
Qed.

Lemma nearest_roundInteger (neg : bool) (n : Z) :
  0 < n ->
  nearest neg n 1
  = if 2 ^ 1024 <=? roundInteger n
    then (if neg then NegInfinity else PosInfinity)
    else Fin (inject_Z (signed neg (roundInteger n))).
Proof.
  intros Hn. unfold nearest. rewrite (exponentOf_integer n Hn).
  pose proof (Z.log2_nonneg n) as Hl.
  replace (Z.max (Z.log2 n - 52) (-1074)) with (Z.log2 n - 52) by lia.
  destruct (Z.leb_spec 0 (Z.log2 n - 52)) as [He | He].
  - unfold roundInteger.
    replace (Z.max (Z.log2 n - 52) 0) with (Z.log2 n - 52) by lia.
    rewrite Z.mul_1_l. reflexivity.
  - assert (Hlt : n < 2 ^ 53).
    { destruct (Z.log2_spec n Hn) as [_ Hhi].
      assert (2 ^ Z.succ (Z.log2 n) <= 2 ^ 53) by (apply Z.pow_le_mono_r; lia).
      lia. }
    rewrite (roundInteger_small n Hn Hlt).
    destruct (Z.leb_spec (2 ^ 1024) n) as [H | _].
    { assert (2 ^ 53 < 2 ^ 1024) by (apply Z.pow_lt_mono_r; lia). lia. }
    replace (- (Z.log2 n - 52)) with (52 - Z.log2 n) by lia.
    pose proof (roundHalfEven_exact (n * 2 ^ (52 - Z.log2 n)) 1 ltac:(lia)) as Hr.
    rewrite Z.mul_1_r in Hr. rewrite Hr. f_equal.
    destruct neg; cbn [signed].
    + rewrite <- Z.mul_opp_l. apply Qred_integer. lia.
    + apply Qred_integer. lia.
Qed.

(** What an integer reads as. *)
Lemma toDouble_inject_Z (z : Z) :
  toDouble (inject_Z z)
  = match z with
    | 0 => Fin 0
    | Zpos _ =>
        if 2 ^ 1024 <=? roundInteger z then PosInfinity
        else Fin (inject_Z (roundInteger z))
    | Zneg _ =>
        if 2 ^ 1024 <=? roundInteger (- z) then NegInfinity
        else Fin (inject_Z (- roundInteger (- z)))
    end.
Proof.
  unfold toDouble. cbn [inject_Z Qnum Qden].
  destruct z as [| p | p]; [reflexivity | |].
  - apply (nearest_roundInteger false). lia.
  - apply (nearest_roundInteger true (Z.pos p)). lia.
Qed.

(** Every integer up to [2^53] in size is a double. *)
Lemma toDouble_integer (z : Z) :
  Z.abs z <= 2 ^ 53 -> toDouble (inject_Z z) = Fin (inject_Z z).
Proof.
  intros Hz. rewrite toDouble_inject_Z.
  assert (H1024 : 2 ^ 53 < 2 ^ 1024) by (apply Z.pow_lt_mono_r; lia).
  assert (Hsmall : forall n, 0 < n -> n <= 2 ^ 53 -> roundInteger n = n).
  { intros n Hn Hle. destruct (Z.eq_dec n (2 ^ 53)) as [-> | Hne].
    - vm_compute. reflexivity.
    - apply roundInteger_small; lia. }
  destruct z as [| p | p]; [reflexivity | |].
  - rewrite (Hsmall (Z.pos p)) by lia.
    destruct (Z.leb_spec (2 ^ 1024) (Z.pos p)); [lia | reflexivity].
  - rewrite (Hsmall (- Z.neg p)) by lia.
    destruct (Z.leb_spec (2 ^ 1024) (- Z.neg p)); [lia |].
    rewrite Z.opp_involutive. reflexivity.
Qed.

(** The doubles around an integer from [2^53] on are the multiples of a power
    of two, with a factor of fifty-three bits. *)
Lemma roundInteger_large (n : Z) :
  2 ^ 53 <= n ->
  let e := Z.log2 n - 52 in
  1 <= e
  /\ roundInteger n = roundHalfEven n (2 ^ e) * 2 ^ e
  /\ 2 ^ 52 <= roundHalfEven n (2 ^ e) <= 2 ^ 53.
Proof.
  intros Hn e.
  assert (Hpos : 0 < n) by (assert (0 < 2 ^ 53) by (apply Z.pow_pos_nonneg; lia); lia).
  destruct (Z.log2_spec n Hpos) as [Hlo Hhi].
  assert (Hl : 53 <= Z.log2 n).
  { destruct (Z.le_gt_cases 53 (Z.log2 n)) as [H | H]; [exact H |].
    assert (2 ^ Z.succ (Z.log2 n) <= 2 ^ 53) by (apply Z.pow_le_mono_r; lia).
    lia. }
  assert (He : 1 <= e) by (unfold e; lia).
  assert (Hp : 0 < 2 ^ e) by (apply Z.pow_pos_nonneg; lia).
  assert (E1 : 2 ^ Z.log2 n = 2 ^ 52 * 2 ^ e).
  { rewrite <- Z.pow_add_r by lia. f_equal. unfold e. lia. }
  assert (E2 : 2 ^ Z.succ (Z.log2 n) = 2 ^ 53 * 2 ^ e).
  { rewrite <- Z.pow_add_r by lia. f_equal. unfold e. lia. }
  split; [exact He |]. split.
  - unfold roundInteger. fold e. replace (Z.max e 0) with e by lia. reflexivity.
  - pose proof (roundHalfEven_bounds n (2 ^ e) Hp) as Hb.
    assert (2 ^ 52 <= n / 2 ^ e).
    { apply Z.div_le_lower_bound; [exact Hp |]. lia. }
    assert (n / 2 ^ e < 2 ^ 53).
    { apply Z.div_lt_upper_bound; [exact Hp |]. lia. }
    lia.
Qed.

(** A multiple of a power of two with a factor of fifty-three bits is a
    double. *)
Lemma roundInteger_fixed (m e : Z) :
  2 ^ 52 <= m < 2 ^ 53 -> 0 <= e -> roundInteger (m * 2 ^ e) = m * 2 ^ e.
Proof.
  intros [Hlo Hhi] He.
  assert (Hp : 0 < 2 ^ e) by (apply Z.pow_pos_nonneg; lia).
  assert (Hl : Z.log2 (m * 2 ^ e) = 52 + e).
  { apply Z.log2_unique; [lia |].
    replace (2 ^ (52 + e)) with (2 ^ 52 * 2 ^ e)
      by (rewrite <- Z.pow_add_r by lia; reflexivity).
    replace (2 ^ Z.succ (52 + e)) with (2 ^ 53 * 2 ^ e)
      by (rewrite <- Z.pow_add_r by lia; f_equal; lia).
    split; nia. }
  unfold roundInteger. rewrite Hl.
  replace (Z.max (52 + e - 52) 0) with e by lia.
  rewrite (roundHalfEven_exact m (2 ^ e) Hp). reflexivity.
Qed.

(** Rounding twice is rounding once. *)
Lemma roundInteger_idempotent (n : Z) :
  0 < n -> roundInteger (roundInteger n) = roundInteger n.
Proof.
  intros Hn. destruct (Z.lt_ge_cases n (2 ^ 53)) as [Hlt | Hge].
  - rewrite (roundInteger_small n Hn Hlt). apply roundInteger_small; assumption.
  - destruct (roundInteger_large n Hge) as (He & -> & Hm).
    set (e := Z.log2 n - 52) in *. set (m := roundHalfEven n (2 ^ e)) in *.
    destruct (Z.eq_dec m (2 ^ 53)) as [E | Hne].
    + rewrite E.
      replace (2 ^ 53 * 2 ^ e) with (2 ^ 52 * 2 ^ (e + 1)).
      * apply roundInteger_fixed; [split; [lia |] | lia].
        apply Z.pow_lt_mono_r; lia.
      * rewrite Z.pow_add_r by lia. change (2 ^ 53) with (2 ^ 52 * 2 ^ 1). lia.
    + apply roundInteger_fixed; lia.
Qed.

Lemma roundInteger_bounds (n : Z) :
  0 < n -> 2 ^ Z.log2 n <= roundInteger n <= 2 ^ Z.succ (Z.log2 n).
Proof.
  intros Hn. destruct (Z.log2_spec n Hn) as [Hlo Hhi].
  destruct (Z.lt_ge_cases n (2 ^ 53)) as [Hlt | Hge].
  - rewrite (roundInteger_small n Hn Hlt). lia.
  - destruct (roundInteger_large n Hge) as (He & -> & Hm).
    set (e := Z.log2 n - 52) in *.
    assert (Hp : 0 < 2 ^ e) by (apply Z.pow_pos_nonneg; lia).
    pose proof (Z.log2_nonneg n).
    replace (2 ^ Z.log2 n) with (2 ^ 52 * 2 ^ e)
      by (rewrite <- Z.pow_add_r by lia; f_equal; unfold e; lia).
    replace (2 ^ Z.succ (Z.log2 n)) with (2 ^ 53 * 2 ^ e)
      by (rewrite <- Z.pow_add_r by lia; f_equal; unfold e; lia).
    split; nia.
Qed.

Lemma roundInteger_positive (n : Z) : 0 < n -> 0 < roundInteger n.
Proof.
  intros Hn. pose proof (roundInteger_bounds n Hn) as [H _].
  assert (0 < 2 ^ Z.log2 n) by (apply Z.pow_pos_nonneg; [lia | apply Z.log2_nonneg]).
  lia.
Qed.

(** Rounding keeps the order. *)
Lemma roundInteger_monotone (a b : Z) :
  0 < a -> a <= b -> roundInteger a <= roundInteger b.
Proof.
  intros Ha Hab.
  assert (Hb : 0 < b) by lia.
  pose proof (Z.log2_le_mono a b Hab) as Hl.
  destruct (Z.eq_dec (Z.log2 a) (Z.log2 b)) as [E | Hne].
  - unfold roundInteger. rewrite E.
    set (p := 2 ^ Z.max (Z.log2 b - 52) 0).
    assert (Hp : 0 < p) by (apply Z.pow_pos_nonneg; lia).
    pose proof (roundHalfEven_monotone a b p Hp Hab). nia.
  - pose proof (roundInteger_bounds a Ha) as [_ H1].
    pose proof (roundInteger_bounds b Hb) as [H2 _].
    assert (2 ^ Z.succ (Z.log2 a) <= 2 ^ Z.log2 b)
      by (apply Z.pow_le_mono_r; lia).
    lia.
Qed.

(** An integer reads as the positive integer [x] when it is positive and
    rounds to [x], short of the infinity. *)
Lemma readsAs_spec (w x : Z) :
  0 < x ->
  readsAs w x = true <-> 0 < w /\ roundInteger w = x /\ x < 2 ^ 1024.
Proof.
  intros Hx. unfold readsAs. rewrite toDouble_inject_Z.
  destruct w as [| p | p].
  - split; [| lia]. intros H. apply Qeq_bool_iff in H.
    unfold Qeq in H. cbn in H. lia.
  - destruct (Z.leb_spec (2 ^ 1024) (roundInteger (Z.pos p))) as [Hinf | Hfin].
    + split; [discriminate | lia].
    + rewrite Qeq_bool_iff. unfold Qeq, inject_Z. cbn [Qnum Qden].
      rewrite !Z.mul_1_r. split; [intros <-; lia | intros (_ & <- & _); reflexivity].
  - destruct (2 ^ 1024 <=? roundInteger (- Z.neg p)).
    + split; [discriminate | lia].
    + rewrite Qeq_bool_iff. unfold Qeq, inject_Z. cbn [Qnum Qden].
      rewrite !Z.mul_1_r. split; [| lia].
      pose proof (roundInteger_positive (- Z.neg p) ltac:(lia)). lia.
Qed.

(** The digits chosen for a double read as that double. *)
Lemma shortest_reads (x : Z) :
  0 < x -> roundInteger x = x -> x < 2 ^ 1024 ->
  forall j : nat, readsAs (shortest x j) x = true.
Proof.
  intros Hx Hfix Hfin.
  assert (Hself : readsAs x x = true) by (apply readsAs_spec; auto).
  induction j as [| j IH]; cbn [shortest].
  - change (10 ^ Z.of_nat 0) with 1. rewrite Z.div_1_r, Z.mul_1_r, Hself.
    destruct (readsAs (x + 1) x) eqn:E2; [| exact Hself].
    destruct (x - x ?= x + 1 - x); [destruct (Z.even x) | |]; assumption.
  - set (p := 10 ^ Z.of_nat (S j)).
    destruct (readsAs (x / p * p) x) eqn:E1;
      destruct (readsAs (x / p * p + p) x) eqn:E2; try assumption.
    destruct (x - x / p * p ?= x / p * p + p - x);
      [destruct (Z.even (x / p)) | |]; assumption.
Qed.

(** An integer never reads as [NaN]. *)
Lemma toDouble_inject_Z_number (z : Z) : toDouble (inject_Z z) <> NaN.
Proof.
  rewrite toDouble_inject_Z.
  destruct z as [| p | p]; [discriminate | |];
    match goal with
    | |- context [if ?c then _ else _] => destruct c
    end; discriminate.
Qed.

(** The integers that are doubles. *)
Definition isDouble (z : Z) : Prop := toDouble (inject_Z z) = Fin (inject_Z z).

Lemma inject_Z_injective (a b : Z) : inject_Z a = inject_Z b -> a = b.
Proof. intros H. injection H. auto. Qed.

Lemma isDouble_cases (c : Z) :
  isDouble c ->
  c = 0 \/ (roundInteger (Z.abs c) = Z.abs c /\ Z.abs c < 2 ^ 1024).
Proof.
  unfold isDouble. rewrite toDouble_inject_Z. intros H.
  destruct c as [| p | p]; [left; reflexivity | |]; right.
  - destruct (Z.leb_spec (2 ^ 1024) (roundInteger (Z.pos p))) as [| Hfin];
      [discriminate |].
    injection H as K'.
    cbn [Z.abs]. rewrite K' in *. split; [reflexivity | exact Hfin].
  - destruct (Z.leb_spec (2 ^ 1024) (roundInteger (- Z.neg p))) as [| Hfin];
      [discriminate |].
    injection H as K'.
    change (Z.abs (Z.neg p)) with (- Z.neg p).
    change (- Z.neg p) with (Z.pos p) in *.
    assert (E : roundInteger (Z.pos p) = Z.pos p) by lia.
    rewrite E in *. split; [reflexivity | exact Hfin].
Qed.

Lemma toDouble_positive (w : Z) :
  0 < w -> roundInteger w < 2 ^ 1024 ->
  toDouble (inject_Z w) = Fin (inject_Z (roundInteger w))
  /\ toDouble (inject_Z (- w)) = Fin (inject_Z (- roundInteger w)).
Proof.
  intros Hw Hfin. rewrite !toDouble_inject_Z.
  destruct w as [| p | p]; try lia.
  change (- Z.pos p) with (Z.neg p). change (- Z.neg p) with (Z.pos p).
  destruct (Z.leb_spec (2 ^ 1024) (roundInteger (Z.pos p))); [lia |].
  split; reflexivity.
Qed.

Lemma roundInteger_1e21 : roundInteger (10 ^ 21) = 10 ^ 21.
Proof. vm_compute. reflexivity. Qed.

(** What an integer below [10^21] in size reads as: an integer that is a
    double, and at most [10^21] in size. *)
Lemma toDouble_below_1e21 (z : Z) :
  Z.abs z < 10 ^ 21 ->
  exists r,
    toDouble (inject_Z z) = Fin (inject_Z r)
    /\ isDouble r /\ Z.abs r <= 10 ^ 21.
Proof.
  intros Hz.
  assert (H1024 : 10 ^ 21 < 2 ^ 1024) by (vm_compute; reflexivity).
  assert (Hpos : forall n, 0 < n -> n < 10 ^ 21 ->
                   roundInteger n <= 10 ^ 21
                   /\ 0 < roundInteger n
                   /\ roundInteger (roundInteger n) = roundInteger n).
  { intros n Hn Hlt. split; [| split].
    - rewrite <- roundInteger_1e21. apply roundInteger_monotone; lia.
    - apply roundInteger_positive, Hn.
    - apply roundInteger_idempotent, Hn. }
  destruct z as [| p | p].
  - exists 0. repeat split. vm_compute. discriminate.
  - destruct (Hpos (Z.pos p)) as (Hle & Hr & Hid); [lia | lia |].
    destruct (toDouble_positive (Z.pos p)) as [E _]; [lia | lia |].
    exists (roundInteger (Z.pos p)). split; [exact E |]. split; [| lia].
    unfold isDouble.
    destruct (toDouble_positive (roundInteger (Z.pos p))) as [E' _];
      [lia | lia |].
    rewrite E', Hid. reflexivity.
  - destruct (Hpos (Z.pos p)) as (Hle & Hr & Hid); [lia | lia |].
    destruct (toDouble_positive (Z.pos p)) as [_ E]; [lia | lia |].
    exists (- roundInteger (Z.pos p)). split; [exact E |]. split; [| lia].
    unfold isDouble.
    destruct (toDouble_positive (roundInteger (Z.pos p))) as [_ E'];
      [lia | lia |].
    rewrite E', Hid. reflexivity.
Qed.

(** What an integer reads as: an infinity, or an integer that is a
    double. *)
Lemma toDouble_inject_Z_cases (z : Z) :
  toDouble (inject_Z z) = PosInfinity
  \/ toDouble (inject_Z z) = NegInfinity
  \/ exists r, toDouble (inject_Z z) = Fin (inject_Z r) /\ isDouble r.
Proof.
  assert (Hpos : forall n, 0 < n -> roundInteger n < 2 ^ 1024 ->
                   isDouble (roundInteger n) /\ isDouble (- roundInteger n)).
  { intros n Hn Hfin. pose proof (roundInteger_positive n Hn) as Hr.
    pose proof (roundInteger_idempotent n Hn) as Hid.
    destruct (toDouble_positive (roundInteger n) Hr) as [E1 E2];
      [rewrite Hid; exact Hfin |].
    unfold isDouble. rewrite E1, E2, Hid. split; reflexivity. }
  rewrite toDouble_inject_Z. destruct z as [| p | p].
  - right. right. exists 0. split; [reflexivity | vm_compute; reflexivity].
  - destruct (Z.leb_spec (2 ^ 1024) (roundInteger (Z.pos p))) as [| Hfin];
      [left; reflexivity |].
    right. right. exists (roundInteger (Z.pos p)).
    split; [reflexivity | apply Hpos; [lia | exact Hfin]].
  - change (- Z.neg p) with (Z.pos p).
    destruct (Z.leb_spec (2 ^ 1024) (roundInteger (Z.pos p))) as [| Hfin];
      [right; left; reflexivity |].
    right. right. exists (- roundInteger (Z.pos p)).
    split; [reflexivity | apply Hpos; [lia | exact Hfin]].
Qed.

End NumberFacts.

(** ** Integers as JavaScript writes and reads them *)

Module DecimalFacts.

Local Open Scope string_scope.
Local Open Scope Z_scope.

Definition isDecimalDigit (c : ascii) : bool :=
  let n := Z.of_nat (nat_of_ascii c) in (48 <=? n) && (n <=? 57).

Fixpoint allDigits (x : string) : bool :=
  match x with
  | EmptyString => true
  | String c x' => isDecimalDigit c && allDigits x'
  end.

(** The number a string of decimal digits writes, continuing [acc]. *)
Fixpoint digitsValue (acc : Z) (x : string) : Z :=
  match x with
  | EmptyString => acc
  | String c x' => digitsValue (acc * 10 + (Z.of_nat (nat_of_ascii c) - 48)) x'
  end.

(** What may follow the digits of a number: nothing, or a character that is
    not a decimal digit. *)
Definition stops (tail : string) : bool :=
  match tail with
  | EmptyString => true
  | String c _ => negb (isDecimalDigit c)
  end.

(** Whether a string starts with the [x] or [X] that, after a single zero,
    announces hexadecimal digits. *)
Definition startsWithX (tail : string) : bool :=
  match tail with
  | String c _ => Ascii.eqb c "x" || Ascii.eqb c "X"
  | EmptyString => false
  end.

Lemma takeDigits_stops (tail : string) (acc : Z) (n : nat) :
  stops tail = true -> takeDigits 10 tail acc n = (acc, n, tail).
Proof.
  destruct tail as [| c t]; [reflexivity |]. cbn [stops takeDigits].
  intros H. apply negb_true_iff in H. unfold isDecimalDigit in H.
  cbv zeta in H. unfold digitValue. rewrite H.
  set (k := Z.of_nat (nat_of_ascii c)) in *.
  destruct ((97 <=? k) && (k <=? 122)) eqn:E1.
  - apply andb_prop in E1. destruct E1 as [E1 _]. apply Z.leb_le in E1.
    destruct (Z.ltb_spec (k - 87) 10); [lia | reflexivity].
  - destruct ((65 <=? k) && (k <=? 90)) eqn:E2; [| reflexivity].
    apply andb_prop in E2. destruct E2 as [E2 _]. apply Z.leb_le in E2.
    destruct (Z.ltb_spec (k - 55) 10); [lia | reflexivity].
Qed.

Lemma takeDigits_tail (x : string) :
  forall (tail : string) (acc : Z) (n : nat),
    allDigits x = true -> stops tail = true ->
    takeDigits 10 (x ++ tail) acc n
    = (digitsValue acc x, (n + String.length x)%nat, tail).
Proof.
  induction x as [| c x' IH]; intros tail acc n H Ht.
  - cbn [append digitsValue String.length]. rewrite Nat.add_0_r.
    apply takeDigits_stops. exact Ht.
  - cbn [allDigits] in H. apply andb_prop in H. destruct H as [Hc Hx].
    cbn [append takeDigits digitsValue String.length]. unfold digitValue.
    unfold isDecimalDigit in Hc. cbv zeta in Hc. rewrite Hc.
    apply andb_prop in Hc. destruct Hc as [H1 H2].
    apply Z.leb_le in H1, H2.
    destruct (Z.ltb_spec (Z.of_nat (nat_of_ascii c) - 48) 10) as [_ | Hc]; [| lia].
    rewrite (IH _ _ _ Hx Ht). rewrite Nat.add_succ_r. reflexivity.
Qed.

Lemma append_empty (x : string) : x ++ "" = x.
Proof. induction x as [| c x' IH]; cbn; [reflexivity | rewrite IH; reflexivity]. Qed.

Lemma takeDigits_allDigits (x : string) :
  forall (acc : Z) (n : nat),
    allDigits x = true ->
    takeDigits 10 x acc n
    = (digitsValue acc x, (n + String.length x)%nat, EmptyString).
Proof.
  intros acc n H. pose proof (takeDigits_tail x "" acc n H eq_refl) as E.
  rewrite append_empty in E. exact E.
Qed.

Lemma isDecimalDigit_cases (c : ascii) :
  isDecimalDigit c = true ->
  c = "0"%char \/ c = "1"%char \/ c = "2"%char \/ c = "3"%char
  \/ c = "4"%char \/ c = "5"%char \/ c = "6"%char \/ c = "7"%char
  \/ c = "8"%char \/ c = "9"%char.
Proof.
  destruct c as [[] [] [] [] [] [] [] []]; vm_compute; intros H;
    try discriminate H; tauto.
Qed.

(** *** White space *)

(** No white space starts with a character of one byte that is not itself
    white space. *)
Lemma whiteSpaceLength_ascii (c : ascii) (r : string) :
  code c < 128 -> isWhiteSpace c = false -> whiteSpaceLength (String c r) = 0%nat.
Proof.
  intros Hc Hws. unfold whiteSpaceLength. rewrite Hws.
  destruct r as [| c1 r1]; [reflexivity |].
  replace (code c =? 194) with false by (symmetry; apply Z.eqb_neq; lia).
  cbn [andb]. destruct r1 as [| c2 r2]; [reflexivity |]. cbv zeta beta.
  replace (code c =? 225) with false by (symmetry; apply Z.eqb_neq; lia).
  replace (code c =? 226) with false by (symmetry; apply Z.eqb_neq; lia).
  replace (code c =? 227) with false by (symmetry; apply Z.eqb_neq; lia).
  replace (code c =? 239) with false by (symmetry; apply Z.eqb_neq; lia).
  reflexivity.
Qed.

Lemma trimStart_plain (s : string) :
  whiteSpaceLength s = 0%nat -> trimStart s = s.
Proof.
  destruct s as [| c r]; [reflexivity |]. intros H.
  cbn [trimStart]. rewrite H. reflexivity.
Qed.

(** The characters of one byte that are not white space. *)
Definition plain (c : ascii) : bool := (code c <? 128) && negb (isWhiteSpace c).

Fixpoint noSpace (x : string) : bool :=
  match x with
  | EmptyString => true
  | String c x' => plain c && noSpace x'
  end.

Lemma whiteSpaceLength_plain (c : ascii) (r : string) :
  plain c = true -> whiteSpaceLength (String c r) = 0%nat.
Proof.
  unfold plain. intros H. apply andb_prop in H. destruct H as [H1 H2].
  apply Z.ltb_lt in H1. apply negb_true_iff in H2.
  apply whiteSpaceLength_ascii; assumption.
Qed.

Lemma trimEnd_noSpace (x : string) : noSpace x = true -> trimEnd x = x.
Proof.
  induction x as [| c x' IH]; [reflexivity |]. cbn [noSpace].
  intros H. apply andb_prop in H. destruct H as [Hc Hx].
  cbn [trimEnd].
  rewrite (trimStart_plain (String c x')) by (apply whiteSpaceLength_plain, Hc).
  rewrite (IH Hx). reflexivity.
Qed.

(** [trim] leaves a string without white space as it is. *)
Lemma trim_noSpace (x : string) : noSpace x = true -> trim x = x.
Proof.
  intros H. unfold trim.
  assert (E : trimStart x = x).
  { destruct x as [| c x']; [reflexivity |]. cbn [noSpace] in H.
    apply andb_prop in H. destruct H as [Hc _].
    apply trimStart_plain, whiteSpaceLength_plain, Hc. }
  rewrite E. apply trimEnd_noSpace, H.
Qed.

Lemma plain_digit (c : ascii) : isDecimalDigit c = true -> plain c = true.
Proof.
  intros H. apply isDecimalDigit_cases in H.
  repeat (destruct H as [-> | H]); try subst c; reflexivity.
Qed.

Lemma allDigits_noSpace (x : string) : allDigits x = true -> noSpace x = true.
Proof.
  induction x as [| c x' IH]; [reflexivity |]. cbn [allDigits noSpace].
  intros H. apply andb_prop in H. destruct H as [Hc Hx].
  rewrite (plain_digit c Hc), (IH Hx). reflexivity.
Qed.

(** *** parseInt *)

(** [parseInt] on a string of digits, after a minus sign or not, and before
    anything that is not a digit: the digits are read in decimal, unless they
    are a single zero before an [x]. *)
Lemma parseInt_digits (x tail : string) :
  x <> EmptyString -> allDigits x = true -> stops tail = true ->
  (x = "0" -> startsWithX tail = false) ->
  parseInt (x ++ tail) = toDouble (inject_Z (digitsValue 0 x))
  /\ parseInt (String "-" (x ++ tail))
     = toDouble (inject_Z (- digitsValue 0 x))
  /\ parseInt (String "+" (x ++ tail))
     = toDouble (inject_Z (digitsValue 0 x)).
Proof.
  intros Hne Hall Hstops Hhex. destruct x as [| c1 x1]; [congruence |].
  pose proof Hall as H.
  cbn [allDigits] in H. apply andb_prop in H. destruct H as [Hc1 Hx1].
  unfold parseInt.
  rewrite (trimStart_plain (String c1 x1 ++ tail))
    by (apply whiteSpaceLength_plain, plain_digit, Hc1).
  rewrite (trimStart_plain (String "-" (String c1 x1 ++ tail)))
    by (apply whiteSpaceLength_plain; reflexivity).
  rewrite (trimStart_plain (String "+" (String c1 x1 ++ tail)))
    by (apply whiteSpaceLength_plain; reflexivity).
  cbn [takeSign append].
  assert (Hdigits :
            takeDigits 10 (String c1 (x1 ++ tail)) 0 0
            = (digitsValue 0 (String c1 x1), S (String.length x1), tail)).
  { exact (takeDigits_tail (String c1 x1) tail 0 0%nat Hall Hstops). }
  destruct x1 as [| c2 x2].
  - (* a single digit *)
    cbn [append] in *.
    destruct tail as [| c t].
    + apply isDecimalDigit_cases in Hc1.
      repeat (destruct Hc1 as [-> | Hc1]); try subst c1; repeat split; reflexivity.
    + apply isDecimalDigit_cases in Hc1.
      destruct Hc1 as [-> | Hc1].
      * specialize (Hhex eq_refl). cbn [startsWithX] in Hhex.
        apply orb_false_elim in Hhex. destruct Hhex as [Hx HX].
        destruct c as [[] [] [] [] [] [] [] []];
          try discriminate Hx; try discriminate HX;
          cbv beta iota; rewrite Hdigits; repeat split; reflexivity.
      * repeat (destruct Hc1 as [-> | Hc1]); try subst c1;
          cbv beta iota; rewrite Hdigits; repeat split; reflexivity.
  - cbn [allDigits] in Hx1. apply andb_prop in Hx1. destruct Hx1 as [Hc2 Hx2].
    cbn [append] in *.
    apply isDecimalDigit_cases in Hc1. apply isDecimalDigit_cases in Hc2.
    repeat (destruct Hc1 as [-> | Hc1]); try subst c1;
      repeat (destruct Hc2 as [-> | Hc2]); try subst c2;
      cbv beta iota; rewrite Hdigits; repeat split; reflexivity.
Qed.

Lemma parseInt_allDigits (x : string) :
  x <> EmptyString -> allDigits x = true ->
  parseInt x = toDouble (inject_Z (digitsValue 0 x))
  /\ parseInt (String "-" x) = toDouble (inject_Z (- digitsValue 0 x)).
Proof.
  intros Hne Hall.
  pose proof (parseInt_digits x "" Hne Hall eq_refl (fun _ => eq_refl)) as H.
  rewrite append_empty in H. split; apply H.
Qed.

(** *** Integers as they are written *)

Lemma uint_allDigits (d : Decimal.uint) :
  allDigits (NilEmpty.string_of_uint d) = true.
Proof. induction d; cbn [NilEmpty.string_of_uint allDigits]; auto. Qed.

Lemma digitsValue_acc (d : Decimal.uint) :
  forall acc : positive,
    digitsValue (Z.pos acc) (NilEmpty.string_of_uint d)
    = Z.pos (Pos.of_uint_acc d acc).
Proof.
  induction d as [| d IH | d IH | d IH | d IH | d IH | d IH | d IH | d IH
                  | d IH | d IH]; intros acc;
    cbn [NilEmpty.string_of_uint digitsValue Pos.of_uint_acc];
    [reflexivity | rewrite <- IH; f_equal; vm_compute (Z.of_nat _); lia ..].
Qed.

Lemma digitsValue_uint (d : Decimal.uint) :
  digitsValue 0 (NilEmpty.string_of_uint d) = Z.of_uint d.
Proof.
  unfold Z.of_uint.
  induction d as [| d IH | d IH | d IH | d IH | d IH | d IH | d IH | d IH
                  | d IH | d IH];
    cbn [NilEmpty.string_of_uint digitsValue Pos.of_uint];
    [reflexivity | exact IH | apply (digitsValue_acc d) ..].
Qed.

Lemma uint_nonempty (d : Decimal.uint) :
  d <> Decimal.Nil -> NilEmpty.string_of_uint d <> EmptyString.
Proof. destruct d; [congruence | discriminate ..]. Qed.

(** How an integer is written: a string of digits, after a minus sign when
    it is negative. *)
Lemma Z_to_string_shape (z : Z) :
  exists x,
    x <> EmptyString /\ allDigits x = true /\ digitsValue 0 x = Z.abs z
    /\ Z_to_string z = (if z <? 0 then String "-" x else x).
Proof.
  unfold Z_to_string. destruct z as [| p | p]; cbn [Z.to_int NilEmpty.string_of_int].
  - exists "0". repeat split. discriminate.
  - exists (NilEmpty.string_of_uint (Pos.to_uint p)).
    split; [apply uint_nonempty, Unsigned.to_uint_nonnil |].
    split; [apply uint_allDigits |].
    split; [| reflexivity].
    rewrite digitsValue_uint. unfold Z.of_uint. rewrite Unsigned.of_to.
    reflexivity.
  - exists (NilEmpty.string_of_uint (Pos.to_uint p)).
    split; [apply uint_nonempty, Unsigned.to_uint_nonnil |].
    split; [apply uint_allDigits |].
    split; [| reflexivity].
    rewrite digitsValue_uint. unfold Z.of_uint. rewrite Unsigned.of_to.
    reflexivity.
Qed.

(** A negative integer is written as a minus sign and its size. *)
Lemma Z_to_string_opp (w : Z) :
  0 < w -> Z_to_string (- w) = String "-" (Z_to_string w).
Proof. destruct w as [| p | p]; [lia | reflexivity | lia]. Qed.

(** [parseInt] reads an integer as it is written, whatever follows it that
    is not a digit (nor an [x] after a single zero), as the double nearest to
    it. *)
Lemma parseInt_Z_to_string_tail (z : Z) (tail : string) :
  stops tail = true -> (z = 0 -> startsWithX tail = false) ->
  parseInt (Z_to_string z ++ tail) = toDouble (inject_Z z).
Proof.
  intros Hstops Hhex.
  destruct (Z_to_string_shape z) as (x & Hne & Hall & Hv & ->).
  assert (Hx : x = "0" -> startsWithX tail = false).
  { intros ->. apply Hhex. cbn in Hv. lia. }
  destruct (parseInt_digits x tail Hne Hall Hstops Hx) as (Hp & Hn & _).
  destruct (Z.ltb_spec z 0).
  - cbn [append]. rewrite Hn, Hv. f_equal. f_equal. lia.
  - rewrite Hp, Hv. f_equal. f_equal. lia.
Qed.

(** The same after a plus sign, for an integer that is not negative. *)
Lemma parseInt_plus_Z_to_string_tail (z : Z) (tail : string) :
  0 <= z -> stops tail = true -> (z = 0 -> startsWithX tail = false) ->
  parseInt (String "+" (Z_to_string z ++ tail)) = toDouble (inject_Z z).
Proof.
  intros Hz Hstops Hhex.
  destruct (Z_to_string_shape z) as (x & Hne & Hall & Hv & ->).
  assert (Hx : x = "0" -> startsWithX tail = false).
  { intros ->. apply Hhex. cbn in Hv. lia. }
  destruct (parseInt_digits x tail Hne Hall Hstops Hx) as (_ & _ & Hp).
  destruct (Z.ltb_spec z 0); [lia |].
  rewrite Hp, Hv. f_equal. f_equal. lia.
Qed.

(** Strings of white space of one byte. *)
Fixpoint spaces (ws : string) : bool :=
  match ws with
  | EmptyString => true
  | String c ws' => isWhiteSpace c && spaces ws'
  end.

(** [parseInt] skips the white space at the front. *)
Lemma parseInt_spaces (ws rest : string) :
  spaces ws = true -> parseInt (ws ++ rest) = parseInt rest.
Proof.
  intros H.
  assert (E : trimStart (ws ++ rest) = trimStart rest).
  { induction ws as [| c ws' IH]; [reflexivity |].
    cbn [spaces] in H. apply andb_prop in H. destruct H as [Hc Hws].
    cbn [append trimStart whiteSpaceLength]. rewrite Hc. exact (IH Hws). }
  unfold parseInt. rewrite E. reflexivity.
Qed.

Lemma indexOf_spaces (ws : string) :
  spaces ws = true -> indexOf "," ws = -1.
Proof.
  induction ws as [| c ws' IH]; [reflexivity |]. cbn [spaces indexOf].
  intros H. apply andb_prop in H. destruct H as [Hc Hws].
  destruct (Ascii.eqb_spec c ",") as [-> | _]; [discriminate Hc |].
  rewrite (IH Hws). reflexivity.
Qed.

Lemma parseInt_Z_to_string (z : Z) :
  parseInt (Z_to_string z) = toDouble (inject_Z z).
Proof.
  pose proof (parseInt_Z_to_string_tail z "" eq_refl (fun _ => eq_refl)) as H.
  rewrite append_empty in H. exact H.
Qed.

Lemma indexOf_allDigits (c : ascii) (x : string) :
  isDecimalDigit c = false -> allDigits x = true -> indexOf c x = -1.
Proof.
  intros Hc. induction x as [| a x' IH]; intros H; [reflexivity |].
  cbn [allDigits] in H. apply andb_prop in H. destruct H as [Ha Hx].
  cbn [indexOf]. destruct (Ascii.eqb_spec a c) as [-> | _]; [congruence |].
  rewrite (IH Hx). reflexivity.
Qed.

(** A written integer holds no comma and no space. *)
Lemma Z_to_string_clean (z : Z) :
  indexOf "," (Z_to_string z) = -1 /\ indexOf " " (Z_to_string z) = -1.
Proof.
  destruct (Z_to_string_shape z) as (x & _ & Hall & _ & ->).
  destruct (z <? 0); cbn [indexOf Ascii.eqb Bool.eqb];
    rewrite !indexOf_allDigits by (reflexivity || exact Hall);
    split; reflexivity.
Qed.

Lemma indexOf_negative (c : ascii) (x : string) :
  indexOf c x < 0 -> indexOf c x = -1.
Proof.
  induction x as [| a x' IH]; [reflexivity |].
  cbn [indexOf]. destruct (Ascii.eqb a c); [lia |].
  destruct (Z.ltb_spec (indexOf c x') 0); [reflexivity | lia].
Qed.

(** A character that neither of two strings holds is not in the two put
    together. *)
Lemma indexOf_app_none (c : ascii) (x y : string) :
  indexOf c x = -1 -> indexOf c y = -1 -> indexOf c (x ++ y) = -1.
Proof.
  intros Hx Hy. induction x as [| a x' IH]; [exact Hy |].
  cbn [indexOf append] in *. destruct (Ascii.eqb a c); [discriminate |].
  destruct (Z.ltb_spec (indexOf c x') 0) as [Hlt | Hge]; [| lia].
  rewrite IH by (apply indexOf_negative; exact Hlt). reflexivity.
Qed.

(** A string without the separator is its own single part. *)
Lemma split_clean (sep : ascii) (x : string) :
  indexOf sep x = -1 -> split sep x = [x].
Proof.
  induction x as [| a x' IH]; [reflexivity |].
  cbn [indexOf split]. destruct (Ascii.eqb a sep); [discriminate |].
  destruct (Z.ltb_spec (indexOf sep x') 0) as [Hlt | Hge]; [| lia].
  intros _. rewrite IH by (apply indexOf_negative; exact Hlt). reflexivity.
Qed.

(** [split] cuts after a first part that is without the separator. *)
Lemma split_append (sep : ascii) (x rest : string) :
  indexOf sep x = -1 ->
  split sep (x ++ String sep rest) = x :: split sep rest.
Proof.
  induction x as [| a x' IH]; cbn [indexOf split append].
  - intros _. rewrite Ascii.eqb_refl. reflexivity.
  - destruct (Ascii.eqb a sep); [discriminate |].
    destruct (Z.ltb_spec (indexOf sep x') 0) as [Hlt | Hge]; [| lia].
    intros _. rewrite IH by (apply indexOf_negative; exact Hlt). reflexivity.
Qed.

(** The first occurrence of a character that the part before it is
    without. *)
Lemma indexOf_append (c : ascii) (x rest : string) :
  indexOf c x = -1 ->
  indexOf c (x ++ String c rest) = Z.of_nat (String.length x).
Proof.
  induction x as [| a x' IH]; cbn [indexOf append String.length].
  - intros _. rewrite Ascii.eqb_refl. reflexivity.
  - destruct (Ascii.eqb a c); [discriminate |].
    destruct (Z.ltb_spec (indexOf c x') 0) as [Hlt | Hge]; [| lia].
    intros _. rewrite IH by (apply indexOf_negative; exact Hlt).
    destruct (Z.ltb_spec (Z.of_nat (String.length x')) 0); lia.
Qed.

(** *** Number *)

Lemma Number_ofString_allDigits (x : string) :
  x <> EmptyString -> allDigits x = true ->
  Number_ofString x = toDouble (inject_Z (digitsValue 0 x))
  /\ Number_ofString (String "-" x) = toDouble (inject_Z (- digitsValue 0 x)).
Proof.
  intros Hne Hall. pose proof (allDigits_noSpace x Hall) as Hns.
  unfold Number_ofString.
  rewrite (trim_noSpace x Hns).
  rewrite (trim_noSpace (String "-" x)) by (cbn [noSpace]; rewrite Hns; reflexivity).
  destruct x as [| c1 x1]; [congruence |].
  pose proof Hall as H.
  cbn [allDigits] in H. apply andb_prop in H. destruct H as [Hc1 Hx1].
  assert (Hdec : forall neg,
             (let '(ip, n1, r1) := takeDigits 10 (String c1 x1) 0 0 in
              let '(m, n2, r2) :=
                match r1 with
                | String "." r1' => takeDigits 10 r1' ip 0
                | _ => (ip, O, r1)
                end in
              match (n1 + n2)%nat with
              | O => NaN
              | S _ =>
                  match exponentPart r2 with
                  | Some e => toDouble (scale10 (signed neg m) (e - Z.of_nat n2))
                  | None => NaN
                  end
              end)
             = toDouble (inject_Z (signed neg (digitsValue 0 (String c1 x1))))).
  { intros neg. rewrite (takeDigits_allDigits _ 0 0%nat Hall).
    cbn [Nat.add String.length exponentPart]. unfold scale10.
    cbn [Z.of_nat Z.sub Z.opp Z.add Z.leb Z.compare].
    rewrite Z.pow_0_r, Z.mul_1_r. reflexivity. }
  unfold decimalLiteral.
  destruct x1 as [| c2 x2].
  - apply isDecimalDigit_cases in Hc1.
    repeat (destruct Hc1 as [-> | Hc1]); try subst c1; split; reflexivity.
  - cbn [allDigits] in Hx1. apply andb_prop in Hx1. destruct Hx1 as [Hc2 Hx2].
    apply isDecimalDigit_cases in Hc1. apply isDecimalDigit_cases in Hc2.
    repeat (destruct Hc1 as [-> | Hc1]); try subst c1;
      repeat (destruct Hc2 as [-> | Hc2]); try subst c2;
      cbn [nonDecimalLiteral takeSign String.eqb Ascii.eqb Bool.eqb];
      cbv beta iota;
      (split; [exact (Hdec false) | exact (Hdec true)]).
Qed.

(** [Number] reads an integer as it is written, as the double nearest to
    it. *)
Lemma Number_ofString_Z_to_string (z : Z) :
  Number_ofString (Z_to_string z) = toDouble (inject_Z z).
Proof.
  destruct (Z_to_string_shape z) as (x & Hne & Hall & Hv & ->).
  destruct (Number_ofString_allDigits x Hne Hall) as [Hp Hn].
  destruct (Z.ltb_spec z 0).
  - rewrite Hn, Hv. f_equal. f_equal. lia.
  - rewrite Hp, Hv. f_equal. f_equal. lia.
Qed.

End DecimalFacts.

(** ** Numbers written and read back *)

Module WritingFacts.

Import NumberFacts DecimalFacts.

Local Open Scope string_scope.
Local Open Scope Z_scope.

Lemma isInteger_inject_Z (z : Z) : isInteger (inject_Z z) = true.
Proof. unfold isInteger. rewrite Qfloor_Z. apply Qeq_bool_iff. reflexivity. Qed.

Section Rendering.

Variable dtoa : Q -> string.

Lemma Number_toString_inject_Z (z : Z) :
  Number_toString dtoa (Fin (inject_Z z)) = integerToString z.
Proof.
  unfold Number_toString. rewrite isInteger_inject_Z, Qfloor_Z. reflexivity.
Qed.

(** An integer up to [2^53] in size is written in full. *)
Lemma Number_toString_integer (z : Z) :
  Z.abs z <= 2 ^ 53 ->
  Number_toString dtoa (Fin (inject_Z z)) = Z_to_string z.
Proof.
  intros Hz. rewrite Number_toString_inject_Z. unfold integerToString.
  destruct (Z.leb_spec (Z.abs z) (2 ^ 53)); [reflexivity | lia].
Qed.

End Rendering.

(** An integer below [10^21] in size that is a double is written as an
    integer that reads as it. *)
Lemma integerToString_plain (c : Z) :
  isDouble c -> Z.abs c < 10 ^ 21 ->
  exists w,
    integerToString c = Z_to_string w
    /\ toDouble (inject_Z w) = Fin (inject_Z c).
Proof.
  intros Hd Hc. unfold integerToString.
  destruct (Z.leb_spec (Z.abs c) (2 ^ 53)) as [Hsmall | Hbig].
  - exists c. split; [reflexivity | exact Hd].
  - assert (H53 : 0 < 2 ^ 53) by (vm_compute; reflexivity).
    destruct (isDouble_cases c Hd) as [-> | [Hfix Hfin]]; [cbn in Hbig; lia |].
    set (x := Z.abs c) in *.
    set (w := shortest x (String.length (Z_to_string x))).
    assert (Hx : 0 < x) by lia.
    pose proof (shortest_reads x Hx Hfix Hfin (String.length (Z_to_string x)))
      as Hr.
    fold w in Hr. apply (readsAs_spec w x Hx) in Hr.
    destruct Hr as (Hw & Hrw & _).
    assert (Hlt : w < 10 ^ 21).
    { destruct (Z.lt_ge_cases w (10 ^ 21)) as [H | H]; [exact H |].
      pose proof (roundInteger_monotone (10 ^ 21) w ltac:(lia) H) as Hm.
      rewrite roundInteger_1e21, Hrw in Hm. lia. }
    destruct (Z.ltb_spec w (10 ^ 21)) as [_ | H]; [| lia].
    destruct (toDouble_positive w Hw ltac:(lia)) as [Ep En].
    rewrite Hrw in Ep, En.
    destruct (Z.ltb_spec c 0) as [Hneg | Hpos].
    + exists (- w). split.
      * rewrite (Z_to_string_opp w Hw). reflexivity.
      * rewrite En. f_equal. f_equal. unfold x. lia.
    + exists w. split; [reflexivity |].
      rewrite Ep. f_equal. f_equal. unfold x. lia.
Qed.

Section ReadBack.

Variable dtoa : Q -> string.

(** A number that was read from an integer below [10^21] in size is written
    without a space, and in a way that [Number] reads as the same number. *)
Lemma Number_toString_reads_back (r : Z) :
  isDouble r -> Z.abs r <= 10 ^ 21 ->
  Number_ofString (Number_toString dtoa (Fin (inject_Z r)))
  = Fin (inject_Z r)
  /\ indexOf " " (Number_toString dtoa (Fin (inject_Z r))) = -1.
Proof.
  intros Hd Hr. rewrite Number_toString_inject_Z.
  destruct (Z.eq_dec (Z.abs r) (10 ^ 21)) as [E | Hne].
  - assert (Hcase : r = 10 ^ 21 \/ r = - 10 ^ 21) by lia.
    destruct Hcase as [-> | ->]; vm_compute; split; reflexivity.
  - destruct (integerToString_plain r Hd ltac:(lia)) as (w & -> & Hw).
    rewrite Number_ofString_Z_to_string.
    split; [exact Hw | apply Z_to_string_clean].
Qed.

(** An integer below [10^21] in size that is a double is written without a
    comma, and in a way that [parseInt] reads as the same integer. *)
Lemma Number_toString_parseInt (c : Z) :
  isDouble c -> Z.abs c < 10 ^ 21 ->
  parseInt (Number_toString dtoa (Fin (inject_Z c))) = Fin (inject_Z c)
  /\ indexOf "," (Number_toString dtoa (Fin (inject_Z c))) = -1.
Proof.
  intros Hd Hc. rewrite Number_toString_inject_Z.
  destruct (integerToString_plain c Hd Hc) as (w & -> & Hw).
  rewrite parseInt_Z_to_string.
  split; [exact Hw | apply Z_to_string_clean].
Qed.

End ReadBack.

End WritingFacts.

(** ** ColorItemController: the state string *)

Module ColorFacts.

Import Color.

Local Open Scope string_scope.

Lemma split_not_nil (sep : ascii) (x : string) : split sep x <> [].
Proof.
  destruct x as [| c x']; simpl; [discriminate |].
  destruct (Ascii.eqb c sep); [discriminate |].
  destruct (split sep x'); discriminate.
Qed.

(** The parts of [split], joined again by the separator, are the string. *)
Lemma concat_split (sep : ascii) (x : string) :
  String.concat (String sep EmptyString) (split sep x) = x.
Proof.
  induction x as [| c x' IH]; simpl; [reflexivity |].
  destruct (Ascii.eqb_spec c sep) as [-> | Hne].
  - pose proof (split_not_nil sep x') as Hnil.
    destruct (split sep x') as [| p ps]; [congruence |].
    simpl in *. rewrite IH. reflexivity.
  - pose proof (split_not_nil sep x') as Hnil.
    destruct (split sep x') as [| p ps]; [congruence |].
    destruct ps as [| p' ps']; simpl in *; rewrite <- IH; reflexivity.
Qed.

(** No part of [split] holds the separator. *)
Lemma split_parts_clean (sep : ascii) (x : string) :
  Forall (fun p => indexOf sep p = -1) (split sep x).
Proof.
  induction x as [| c x' IH]; simpl.
  - repeat constructor.
  - destruct (Ascii.eqb_spec c sep) as [-> | Hne].
    + constructor; [reflexivity | exact IH].
    + pose proof (split_not_nil sep x') as Hnil.
      destruct (split sep x') as [| p ps]; [congruence |].
      inversion IH as [| ? ? Hp Hps]; subst.
      constructor; [| exact Hps].
      simpl. destruct (Ascii.eqb_spec c sep) as [-> | _]; [congruence |].
      rewrite Hp. reflexivity.
Qed.

Lemma ceiling_is_rounding_up (q : Q) :
  (inject_Z (Qceiling q) - 1 < q /\ q <= inject_Z (Qceiling q))%Q.
Proof.
  split; [| apply Qle_ceiling].
  pose proof (Qceiling_lt q) as H.
  unfold Zminus in H. rewrite inject_Z_plus in H. exact H.
Qed.

Section Rendering.

Variable dtoa : Q -> string.

(** C8: [toState] writes each channel rounded up to an integer (the least
    integer that is not below it), in decimal, and joins the three with
    commas.  The channels are finite numbers that round up to integers of at
    most [2^53] in size, the integers that JavaScript writes digit by
    digit. *)
Theorem C8_toState_rounds_up :
  forall qh qs qb : Q,
    Z.abs (Qceiling qh) <= 2 ^ 53 ->
    Z.abs (Qceiling qs) <= 2 ^ 53 ->
    Z.abs (Qceiling qb) <= 2 ^ 53 ->
    toState dtoa {| h := VNumber (Fin qh);
                    s := VNumber (Fin qs);
                    b := VNumber (Fin qb) |}
    = Z_to_string (Qceiling qh) ++ "," ++ Z_to_string (Qceiling qs) ++ ","
        ++ Z_to_string (Qceiling qb)
    /\ (inject_Z (Qceiling qh) - 1 < qh /\ qh <= inject_Z (Qceiling qh))%Q
    /\ (inject_Z (Qceiling qs) - 1 < qs /\ qs <= inject_Z (Qceiling qs))%Q
    /\ (inject_Z (Qceiling qb) - 1 < qb /\ qb <= inject_Z (Qceiling qb))%Q.
Proof.
  intros qh qs qb Hh Hs Hb.
  split; [| auto using ceiling_is_rounding_up].
  unfold toState, Math_ceil. cbn [h s b ToNumber].
  rewrite !WritingFacts.Number_toString_integer by assumption.
  reflexivity.
Qed.

(** The callback of [setColor] over an undefined state. *)
Lemma colorTimeout_uninitialized (sc : scope) :
  item_state sc = "UNDEF" \/ item_state sc = "NULL" \/ item_state sc = "-" ->
  let state :=
    Number_toString dtoa (Math_ceil (orZeroString (hue sc))) ++ ",100,100" in
  colorTimeout dtoa sc
  = ({| item_state := state;
        hue := hue sc;
        saturation := num 100;
        brightness := num 100;
        pending := false |},
     [VString state]).
Proof.
  intros Hst state. unfold colorTimeout.
  assert (Hu : isUninitialized (item_state sc) = true).
  { unfold isUninitialized.
    destruct Hst as [-> | [-> | ->]]; reflexivity. }
  rewrite Hu. reflexivity.
Qed.

End Rendering.

(** What [parseInt] ignores after the digits of the integer [z] in a part of
    the state: nothing, or a string without a comma that does not start with
    a digit, nor, after a single zero, with the [x] of a hexadecimal
    number. *)
Definition ignored (z : Z) (tail : string) : Prop :=
  DecimalFacts.stops tail = true
  /\ indexOf "," tail = -1
  /\ (z = 0 -> DecimalFacts.startsWithX tail = false).

(** A part of the state with no digit at its front: after white space and a
    sign it is empty or goes on with something else than a digit. *)
Definition numberless (part : string) : bool :=
  match trimStart part with
  | String "-" rest | String "+" rest => DecimalFacts.stops rest
  | rest => DecimalFacts.stops rest
  end.

Lemma parseInt_numberless (part : string) :
  numberless part = true -> parseInt part = NaN.
Proof.
  unfold numberless, parseInt.
  destruct (trimStart part) as [| c rest]; [reflexivity |].
  assert (Hstop : forall t, DecimalFacts.stops t = true ->
                    (let '(radix, s3) :=
                       match t with
                       | String "0" (String "x" r) => (16, r)
                       | String "0" (String "X" r) => (16, r)
                       | _ => (10, t)
                       end in
                     let '(v, count, _) := takeDigits radix s3 0 0 in
                     match count with
                     | O => NaN
                     | S _ => toDouble (inject_Z (signed true v))
                     end) = NaN
                    /\ (let '(radix, s3) :=
                          match t with
                          | String "0" (String "x" r) => (16, r)
                          | String "0" (String "X" r) => (16, r)
                          | _ => (10, t)
                          end in
                        let '(v, count, _) := takeDigits radix s3 0 0 in
                        match count with
                        | O => NaN
                        | S _ => toDouble (inject_Z (signed false v))
                        end) = NaN).
  { intros [| c' t'] H; [split; reflexivity |].
    pose proof (DecimalFacts.takeDigits_stops (String c' t') 0 0%nat H) as E.
    cbn [DecimalFacts.stops] in H.
    destruct c' as [[] [] [] [] [] [] [] []]; try discriminate H;
      cbv beta iota; rewrite E; split; reflexivity. }
  destruct c as [[] [] [] [] [] [] [] []]; intros H; cbn [takeSign];
    first [ exact (proj1 (Hstop _ H)) | exact (proj2 (Hstop _ H)) ].
Qed.

Lemma getStateAsObject_parts (p0 p1 p2 : string) :
  indexOf "," p0 = -1 -> indexOf "," p1 = -1 -> indexOf "," p2 = -1 ->
  getStateAsObject (p0 ++ "," ++ p1 ++ "," ++ p2)
  = {| h := VNumber (parseInt p0);
       s := VNumber (parseInt p1);
       b := VNumber (parseInt p2) |}.
Proof.
  intros H0 H1 H2. unfold getStateAsObject.
  change (p0 ++ "," ++ p1 ++ "," ++ p2)
    with (p0 ++ String "," (p1 ++ String "," p2)).
  rewrite (DecimalFacts.split_append "," _ _ H0).
  rewrite (DecimalFacts.split_append "," _ _ H1).
  rewrite (DecimalFacts.split_clean "," _ H2).
  reflexivity.
Qed.

(** A part of the state that starts with the integer [z]: white space, the
    integer as it is written, after a plus sign or not when it is not
    negative, and then something that [parseInt] ignores. *)
Definition startsWith (z : Z) (part : string) : Prop :=
  exists ws tail,
    DecimalFacts.spaces ws = true
    /\ ignored z tail
    /\ (part = ws ++ Z_to_string z ++ tail
        \/ 0 <= z /\ part = ws ++ String "+" (Z_to_string z ++ tail)).

(** What one part gives: the integer written at its front, when it is at
    most [2^53] in size. *)
Lemma parseInt_part (z : Z) (part : string) :
  Z.abs z <= 2 ^ 53 -> startsWith z part ->
  parseInt part = Fin (inject_Z z) /\ indexOf "," part = -1.
Proof.
  intros Hz (ws & tail & Hws & (Hstops & Hcomma & Hhex) & Hpart).
  pose proof (DecimalFacts.Z_to_string_clean z) as [Hclean _].
  pose proof (DecimalFacts.indexOf_spaces ws Hws) as Hwsc.
  destruct Hpart as [-> | [Hpos ->]]; split.
  - rewrite (DecimalFacts.parseInt_spaces _ _ Hws).
    rewrite (DecimalFacts.parseInt_Z_to_string_tail z tail Hstops Hhex).
    apply NumberFacts.toDouble_integer, Hz.
  - repeat apply DecimalFacts.indexOf_app_none; assumption.
  - rewrite (DecimalFacts.parseInt_spaces _ _ Hws).
    rewrite (DecimalFacts.parseInt_plus_Z_to_string_tail z tail Hpos Hstops
               Hhex).
    apply NumberFacts.toDouble_integer, Hz.
  - apply DecimalFacts.indexOf_app_none; [exact Hwsc |].
    change (String "+" (Z_to_string z ++ tail))
      with ("+" ++ (Z_to_string z ++ tail)).
    repeat apply DecimalFacts.indexOf_app_none;
      first [assumption | reflexivity].
Qed.

(** C9 (as amended): [getStateAsObject] cuts the state at its commas: the
    parts are what lies between the commas (joined by commas they are the
    state again, and none holds a comma).  Of exactly three parts each is
    read by [parseInt], which gives the integer written at the front of the
    part, after white space and with or without a sign, and ignores what
    follows its digits, and gives [NaN] for a part with no digit at its
    front.  Any other number of parts gives zero for all three. *)
Theorem C9_getStateAsObject_reads_integers :
  (forall (zh zs zb : Z) (ph ps pb : string),
      Z.abs zh <= 2 ^ 53 -> Z.abs zs <= 2 ^ 53 -> Z.abs zb <= 2 ^ 53 ->
      startsWith zh ph -> startsWith zs ps -> startsWith zb pb ->
      getStateAsObject (ph ++ "," ++ ps ++ "," ++ pb)
      = {| h := num zh; s := num zs; b := num zb |})
  /\ (forall p0 p1 p2 : string,
        indexOf "," p0 = -1 -> indexOf "," p1 = -1 -> indexOf "," p2 = -1 ->
        let o := getStateAsObject (p0 ++ "," ++ p1 ++ "," ++ p2) in
        (numberless p0 = true -> h o = VNumber NaN)
        /\ (numberless p1 = true -> s o = VNumber NaN)
        /\ (numberless p2 = true -> b o = VNumber NaN))
  /\ (forall state : string,
        String.concat "," (split "," state) = state
        /\ Forall (fun p => indexOf "," p = -1) (split "," state)
        /\ (forall p0 p1 p2, split "," state = [p0; p1; p2] ->
              getStateAsObject state
              = {| h := VNumber (parseInt p0);
                   s := VNumber (parseInt p1);
                   b := VNumber (parseInt p2) |})
        /\ (List.length (split "," state) <> 3%nat ->
            getStateAsObject state = {| h := num 0; s := num 0; b := num 0 |}))
  /\ getStateAsObject "10,20,30" = {| h := num 10; s := num 20; b := num 30 |}
  /\ getStateAsObject "0x1F,0,0" = {| h := num 31; s := num 0; b := num 0 |}
  /\ getStateAsObject "garbage" = {| h := num 0; s := num 0; b := num 0 |}.
Proof.
  split; [| split; [| split; [| repeat split]]].
  - intros zh zs zb ph ps pb Hh Hs Hb Ih Is Ib.
    destruct (parseInt_part zh ph Hh Ih) as [Eh Ch].
    destruct (parseInt_part zs ps Hs Is) as [Es Cs].
    destruct (parseInt_part zb pb Hb Ib) as [Eb Cb].
    rewrite (getStateAsObject_parts _ _ _ Ch Cs Cb), Eh, Es, Eb. reflexivity.
  - intros p0 p1 p2 H0 H1 H2 o. unfold o.
    rewrite (getStateAsObject_parts _ _ _ H0 H1 H2). cbn [h s b].
    repeat split; intros H; rewrite (parseInt_numberless _ H); reflexivity.
  - intros state. split; [apply concat_split |].
    split; [apply split_parts_clean |]. split.
    + intros p0 p1 p2 H. unfold getStateAsObject. rewrite H. reflexivity.
    + intros H. unfold getStateAsObject.
      destruct (Nat.eqb_spec (List.length (split "," state)) 3);
        [contradiction | reflexivity].
Qed.

(** C9 at a state with a fraction, a sign and a unit in its parts. *)
Lemma C9_reads_the_front :
  getStateAsObject " 10.9,+20px,-30"
  = {| h := num 10; s := num 20; b := num (-30) |}.
Proof.
  change " 10.9,+20px,-30" with (" 10.9" ++ "," ++ "+20px" ++ "," ++ "-30").
  apply (proj1 C9_getStateAsObject_reads_integers 10 20 (-30));
    try (vm_compute; discriminate).
  - exists " ", ".9". split; [reflexivity |].
    split; [repeat split; intros H; discriminate H | left; reflexivity].
  - exists "", "px". split; [reflexivity |].
    split; [repeat split; intros H; discriminate H |].
    right. split; [lia | reflexivity].
  - exists "", "". split; [reflexivity |].
    split; [repeat split; intros H; discriminate H | left; reflexivity].
Defined.

(** C9, where the claim fails: the three parts of "10.9,20.9,30.9" are not
    what comes out, their fractions are dropped; and three empty parts give
    no number at all. *)
Lemma C9_fractions_are_dropped :
  split "," "10.9,20.9,30.9" = ["10.9"; "20.9"; "30.9"]
  /\ getStateAsObject "10.9,20.9,30.9"
     = {| h := num 10; s := num 20; b := num 30 |}
  /\ split "," ",," = [""; ""; ""]
  /\ getStateAsObject ",,"
     = {| h := VNumber NaN; s := VNumber NaN; b := VNumber NaN |}.
Proof. repeat split; vm_compute; reflexivity. Qed.

(** C8 at the channels of the specification: 99.1 (as the decimal, and as
    the double nearest to it), 0 and 0 are written "100,0,0". *)
Lemma C8_toState_99_1 :
  (Z.abs (Qceiling (991 # 10)) <= 2 ^ 53
   /\ Z.abs (Qceiling 0) <= 2 ^ 53)
  /\ toState (fun _ => "") {| h := VNumber (Fin (991 # 10));
                              s := num 0; b := num 0 |} = "100,0,0"
  /\ toState (fun _ => "")
       {| h := VNumber (Fin (3486771274003251 # 35184372088832));
          s := num 0; b := num 0 |} = "100,0,0".
Proof.
  assert (H1 : Z.abs (Qceiling (991 # 10)) <= 2 ^ 53) by (vm_compute; discriminate).
  assert (H0 : Z.abs (Qceiling 0) <= 2 ^ 53) by (vm_compute; discriminate).
  split; [split; assumption |].
  split.
  - exact (proj1 (C8_toState_rounds_up (fun _ => "") (991 # 10) 0 0 H1 H0 H0)).
  - vm_compute. reflexivity.
Defined.

End ColorFacts.

(** ** getItems: reading a numeric state *)

Module ControlFacts.

Import Control.

Local Open Scope string_scope.

(** A position found by [indexOf] cuts the string in two around the first
    occurrence of the character. *)
Lemma indexOf_cut (c : ascii) (x : string) :
  0 <= indexOf c x ->
  exists pre post,
    x = pre ++ String c post
    /\ indexOf c pre = -1
    /\ indexOf c x = Z.of_nat (String.length pre).
Proof.
  induction x as [| a x' IH]; simpl; [lia |].
  destruct (Ascii.eqb_spec a c) as [-> | Hne].
  - intros _. exists EmptyString, x'. repeat split.
  - destruct (Z.ltb_spec (indexOf c x') 0) as [Hlt | Hge]; [lia |].
    intros _. destruct (IH Hge) as (pre & post & Hx & Hpre & Hi).
    exists (String a pre), post. repeat split.
    + simpl. rewrite <- Hx. reflexivity.
    + simpl. destruct (Ascii.eqb_spec a c); [congruence |].
      rewrite Hpre. reflexivity.
    + rewrite Hi. simpl String.length. lia.
Qed.

Lemma length_append (x y : string) :
  String.length (x ++ y) = (String.length x + String.length y)%nat.
Proof. induction x as [| a x' IH]; simpl; [reflexivity | rewrite IH; reflexivity]. Qed.

Lemma substring_prefix (pre rest : string) :
  String.substring 0 (String.length pre) (pre ++ rest) = pre.
Proof.
  induction pre as [| a pre' IH]; simpl.
  - destruct rest; reflexivity.
  - rewrite IH. reflexivity.
Qed.

Lemma substring_all (x : string) :
  String.substring 0 (String.length x) x = x.
Proof.
  induction x as [| a x' IH]; simpl; [reflexivity | rewrite IH; reflexivity].
Qed.

Lemma substring_suffix (pre : string) (c : ascii) (post : string) :
  String.substring (S (String.length pre)) (String.length post)
    (pre ++ String c post) = post.
Proof.
  induction pre as [| a pre' IH]; simpl.
  - apply substring_all.
  - exact IH.
Qed.

Lemma substring_cut_left (pre : string) (c : ascii) (post : string) :
  substring (pre ++ String c post) 0 (Z.of_nat (String.length pre)) = pre.
Proof.
  unfold substring. rewrite length_append. simpl String.length.
  set (n := String.length pre). set (m := String.length post).
  replace (Z.min (Z.max 0 0) (Z.of_nat (n + S m))) with 0 by lia.
  replace (Z.min (Z.max (Z.of_nat n) 0) (Z.of_nat (n + S m)))
    with (Z.of_nat n) by lia.
  replace (Z.min 0 (Z.of_nat n)) with 0 by lia.
  replace (Z.max 0 (Z.of_nat n) - 0) with (Z.of_nat n) by lia.
  rewrite Nat2Z.id. apply substring_prefix.
Qed.

Lemma substring_cut_right (pre : string) (c : ascii) (post : string) :
  substring_from (pre ++ String c post) (Z.of_nat (String.length pre) + 1)
  = post.
Proof.
  unfold substring_from, substring. rewrite length_append. simpl String.length.
  set (n := String.length pre). set (m := String.length post).
  replace (Z.min (Z.max (Z.of_nat n + 1) 0) (Z.of_nat (n + S m)))
    with (Z.of_nat (S n)) by lia.
  replace (Z.min (Z.max (Z.of_nat (n + S m)) 0) (Z.of_nat (n + S m)))
    with (Z.of_nat (n + S m)) by lia.
  replace (Z.min (Z.of_nat (S n)) (Z.of_nat (n + S m)))
    with (Z.of_nat (S n)) by lia.
  replace (Z.max (Z.of_nat (S n)) (Z.of_nat (n + S m)) - Z.of_nat (S n))
    with (Z.of_nat m) by lia.
  rewrite !Nat2Z.id. apply substring_suffix.
Qed.

(** What [decodeState] stores for the numeric part it read. *)
Definition stored (numeric : string) (before : value) : value :=
  match Number_ofString numeric with
  | NaN => before
  | n => VNumber n
  end.

Section Collaborators.

Variable dtoa : Q -> string.
Variable getItemStateText : item -> string.

Lemma each_numeric (it : item) :
  isNumeric it = true ->
  state (each dtoa getItemStateText it) = state (decodeState dtoa it)
  /\ unit (each dtoa getItemStateText it) = unit (decodeState dtoa it).
Proof.
  intros H. unfold each. rewrite H.
  destruct (isImage (decodeState dtoa it)); split; reflexivity.
Qed.

Lemma decodeState_cut (it : item) (x : string) :
  state it = VString x -> 0 < indexOf " " x ->
  state (decodeState dtoa it)
  = stored (substring x 0 (indexOf " " x)) (state it)
  /\ unit (decodeState dtoa it)
     = Some (substring_from x (indexOf " " x + 1)).
Proof.
  intros Hst Hi. unfold decodeState, stored. rewrite Hst. cbn [ToString].
  destruct (Z.ltb_spec 0 (indexOf " " x)) as [_ | Hle]; [| lia].
  unfold isNaN. cbn [ToNumber].
  destruct (Number_ofString (substring x 0 (indexOf " " x)));
    cbn [negb]; split; cbn [state unit set_unit set_state];
    first [reflexivity | exact Hst].
Qed.

Lemma decodeState_whole (it : item) (x : string) :
  state it = VString x -> indexOf " " x <= 0 ->
  state (decodeState dtoa it) = stored x (state it)
  /\ unit (decodeState dtoa it) = unit it.
Proof.
  intros Hst Hi. unfold decodeState, stored. rewrite Hst. cbn [ToString].
  destruct (Z.ltb_spec 0 (indexOf " " x)) as [Hlt | _]; [lia |].
  unfold isNaN. cbn [ToNumber].
  destruct (Number_ofString x); cbn [negb]; split;
    cbn [state unit set_unit set_state]; first [reflexivity | exact Hst].
Qed.

(** C7 (as amended): for an item of a numeric type whose state is the string
    [x], [getItems] cuts [x] at its first space when that space is not the
    first character, and reads what precedes it by [Number]: when that is a
    number, it becomes the state and what follows the space becomes the
    unit.  A string with no space, or with a space in front, is read whole
    and the unit is left alone.  When the part read is not a number the state
    stays as it was, and where nothing was cut off the item is displayed as
    before: state and unit are untouched, and the text is the one that
    [getItemStateText] gives for the item as it was. *)
Theorem C7_numeric_state_decoding :
  forall (it : item) (x : string),
    isNumeric it = true ->
    state it = VString x ->
    let i := indexOf " " x in
    let it' := each dtoa getItemStateText it in
    (0 < i ->
       x = substring x 0 i ++ " " ++ substring_from x (i + 1)
       /\ indexOf " " (substring x 0 i) = -1
       /\ (Number_ofString (substring x 0 i) <> NaN ->
           state it' = VNumber (Number_ofString (substring x 0 i))
           /\ unit it' = Some (substring_from x (i + 1)))
       /\ (Number_ofString (substring x 0 i) = NaN -> state it' = state it))
    /\ (i <= 0 ->
        (Number_ofString x <> NaN ->
         state it' = VNumber (Number_ofString x) /\ unit it' = unit it)
        /\ (Number_ofString x = NaN ->
            state it' = state it /\ unit it' = unit it
            /\ (isImage it = false -> stateText it' = getItemStateText it))).
Proof.
  intros it x Hnum Hst i it'.
  destruct (each_numeric it Hnum) as [Es Eu].
  split.
  - intros Hi.
    destruct (indexOf_cut " " x) as (pre & post & Hx & Hpre & Hlen);
      [fold i; lia |].
    destruct (decodeState_cut it x Hst Hi) as [Ds Du].
    fold i in Hlen, Ds, Du.
    assert (Hl : substring x 0 i = pre).
    { rewrite Hlen, Hx. apply substring_cut_left. }
    assert (Hr : substring_from x (i + 1) = post).
    { rewrite Hlen, Hx. apply substring_cut_right. }
    split; [rewrite Hl, Hr; exact Hx |].
    split; [rewrite Hl; exact Hpre |].
    unfold it'. rewrite Es, Eu, Ds, Du. unfold stored. split.
    + intros Hn. split; [| reflexivity].
      destruct (Number_ofString (substring x 0 i)); [congruence | | |];
        reflexivity.
    + intros ->. reflexivity.
  - intros Hi.
    destruct (decodeState_whole it x Hst Hi) as [Ds Du].
    unfold it'. rewrite Es, Eu, Ds, Du. unfold stored. split.
    + intros Hn. split; [| reflexivity].
      destruct (Number_ofString x); [congruence | | |]; reflexivity.
    + intros Hn. rewrite Hn. split; [reflexivity |]. split; [reflexivity |].
      intros Himg. unfold each. rewrite Hnum.
      assert (Hd : decodeState dtoa it = it).
      { unfold decodeState. rewrite Hst. cbn [ToString]. fold i.
        destruct (Z.ltb_spec 0 i) as [Hlt | _]; [lia |].
        unfold isNaN. cbn [ToNumber]. rewrite Hn. reflexivity. }
      rewrite Hd, Himg. reflexivity.
Qed.

End Collaborators.

(** A temperature item as the REST interface delivers it. *)
Definition temperature (state : string) : item :=
  {| name := "Temperature"; type := Some "Number:Temperature";
     groupType := None; state := VString state; unit := None;
     stateDescription := None; stateText := ""; readOnly := false;
     imageLoaded := None |}.

(** C7 at the strings of the specification: "23.5 °C" becomes the number
    23.5 with the unit "°C", and "abc" is left as it is. *)
Lemma C7_numeric_state_examples :
  (isNumeric (temperature "23.5 °C") = true
   /\ state (temperature "23.5 °C") = VString "23.5 °C")
  /\ (let it' := each (fun _ => "") (fun _ => "") (temperature "23.5 °C") in
      state it' = VNumber (Fin (47 # 2)) /\ unit it' = Some "°C")
  /\ (let it' := each (fun _ => "") (fun _ => "") (temperature "abc") in
      state it' = VString "abc" /\ unit it' = None).
Proof.
  split; [split; reflexivity |].
  pose proof (C7_numeric_state_decoding (fun _ => "") (fun _ => "")
                (temperature "23.5 °C") "23.5 °C" eq_refl eq_refl) as H.
  split.
  - destruct H as [H _].
    destruct (H ltac:(vm_compute; reflexivity)) as (_ & _ & Hn & _).
    destruct Hn as [Hs Hu]; [vm_compute; discriminate |].
    split; [rewrite Hs | rewrite Hu]; vm_compute; reflexivity.
  - vm_compute. split; reflexivity.
Defined.

(** C7, where the claim fails: " 5 W" holds a space, and it is not cut there:
    no unit is stored, and the whole string, which is not a number, stays as
    the state. *)
Lemma C7_leading_space_is_not_cut :
  let it' := each (fun _ => "") (fun _ => "") (temperature " 5 W") in
  indexOf " " " 5 W" = 0
  /\ unit it' = None
  /\ state it' = VString " 5 W".
Proof. vm_compute. repeat split; reflexivity. Qed.

End ControlFacts.

(** ** PlayerItemController: tap or hold *)

Module PlayerFacts.

Import Player.

Local Open Scope string_scope.
Local Open Scope list_scope.

(** The commands of a trace that are the given word. *)
Definition count (word : string) (out : list (Z * value)) : nat :=
  List.length
    (filter (fun e => match snd e with
                      | VString x => String.eqb x word
                      | _ => false
                      end) out).

(** Nothing is pending: no timeout of an earlier press is left. *)
Definition quiet (w : world) : Prop := Timeout.queue (Loop.timers w) = [].

Lemma advance_quiet (t : Z) (w : world) : quiet w -> advance t w = w.
Proof.
  destruct w as [v [n q] out]. unfold quiet. simpl. intros ->. reflexivity.
Qed.

Lemma player_run_cons (t : Z) (a : action) (rest : list (Z * action)) (w : world) :
  run ((t, a) :: rest) w = run rest (handler t a (advance t w)).
Proof. reflexivity. Qed.

Lemma player_run_nil (w : world) : run [] w = w.
Proof. reflexivity. Qed.

(** A press and a release before the threshold, with nothing pending
    before: the tap command, at the release, and nothing else, however long
    one waits. *)
Lemma tap_cycle (w : world) (t0 t1 t : Z) :
  quiet w -> t0 <= t1 < t0 + 300 -> t1 <= t ->
  Loop.sent (advance t (run [(t0, PrevDown); (t1, PrevUp)] w))
  = Loop.sent w ++ [(t1, VString "PREVIOUS")].
Proof.
  intros Hq Ht Hle. rewrite !player_run_cons, player_run_nil.
  rewrite (advance_quiet t0 w Hq).
  destruct w as [v [n q] out]. unfold quiet in Hq. simpl in Hq. subst q.
  unfold advance, Loop.advance, handler, onPrevDown, onPrevUp, onDown, onUp,
    withinThreshold, scope_sendCommand.
  cbn -[Z.add Z.leb Z.ltb].
  destruct (Z.leb_spec (t0 + 300) t1) as [Hc | _]; [lia |].
  cbn -[Z.add Z.leb Z.ltb].
  destruct (Z.ltb_spec t1 (t0 + 300)) as [_ | Hc]; [| lia].
  cbn -[Z.add Z.leb Z.ltb].
  destruct (Z.leb_spec (t0 + 300) t); cbn -[Z.add]; rewrite ?app_nil_r;
    reflexivity.
Qed.

(** A press held to the threshold or beyond, with nothing pending before:
    the hold command when the threshold is reached, then PLAY at the
    release, and no tap command. *)
Lemma hold_cycle (w : world) (t0 t1 t : Z) :
  quiet w -> t0 + 300 <= t1 -> t1 <= t ->
  Loop.sent (advance t (run [(t0, PrevDown); (t1, PrevUp)] w))
  = Loop.sent w ++ [(t0 + 300, VString "REWIND"); (t1, VString "PLAY")].
Proof.
  intros Hq Ht Hle. rewrite !player_run_cons, player_run_nil.
  rewrite (advance_quiet t0 w Hq).
  destruct w as [v [n q] out]. unfold quiet in Hq. simpl in Hq. subst q.
  unfold advance, Loop.advance, handler, onPrevDown, onPrevUp, onDown, onUp,
    withinThreshold, scope_sendCommand.
  cbn -[Z.add Z.leb Z.ltb].
  destruct (Z.leb_spec (t0 + 300) t1) as [_ | Hc]; [| lia].
  cbn -[Z.add Z.leb Z.ltb].
  destruct (Z.ltb_spec t1 (t0 + 300)) as [Hc | _]; [lia |].
  cbn -[Z.add Z.leb Z.ltb].
  replace (t1 + 0) with t1 by lia.
  destruct (Z.leb_spec t1 t) as [_ | Hc]; [| lia].
  cbn -[Z.add]. rewrite <- app_assoc. reflexivity.
Qed.

(** After a press and a release before the threshold the timeout of the
    press is still pending. *)
Lemma release_keeps_timeout (w : world) (t0 t1 : Z) :
  quiet w -> t0 <= t1 < t0 + 300 ->
  Timeout.queue (Loop.timers (run [(t0, PrevDown); (t1, PrevUp)] w))
  = [{| Timeout.handle := Timeout.next_handle (Loop.timers w);
        Timeout.due := t0 + 300;
        Timeout.callback := HoldPrev |}].
Proof.
  intros Hq Ht. rewrite !player_run_cons, player_run_nil.
  rewrite (advance_quiet t0 w Hq).
  destruct w as [v [n q] out]. unfold quiet in Hq. simpl in Hq. subst q.
  unfold advance, Loop.advance, handler, onPrevDown, onPrevUp, onDown, onUp,
    withinThreshold, scope_sendCommand.
  cbn -[Z.add Z.leb Z.ltb].
  destruct (Z.leb_spec (t0 + 300) t1) as [Hc | _]; [lia |].
  cbn -[Z.add Z.leb Z.ltb].
  destruct (Z.ltb_spec t1 (t0 + 300)) as [_ | Hc]; [| lia].
  reflexivity.
Qed.

(** C4 (as amended): at a release less than 300 ms after the press, the
    handler sets the interrupted flag and sends the tap command at once.  It
    does not cancel the timeout of the press, which stays pending; the
    callback of that timeout sends nothing when it finds the flag set.  So a
    press and an early release, with nothing pending before, send the tap
    command and nothing else, however long one waits. *)
Theorem C4_release_before_threshold :
  (forall (w : world) (t0 newTime : Z),
      time (Loop.vars w) = Some t0 ->
      newTime < t0 + 300 ->
      onPrevUp newTime w
      = {| Loop.vars := {| isInterrupted := Some true; time := Some t0 |};
           Loop.timers := Loop.timers w;
           Loop.sent := Loop.sent w ++ [(newTime, VString "PREVIOUS")] |}
      /\ onNextUp newTime w
         = {| Loop.vars := {| isInterrupted := Some true; time := Some t0 |};
              Loop.timers := Loop.timers w;
              Loop.sent := Loop.sent w ++ [(newTime, VString "NEXT")] |})
  /\ (forall sc : scope,
        isInterrupted sc = Some true ->
        fire HoldPrev sc = (sc, []) /\ fire HoldNext sc = (sc, []))
  /\ (forall (w : world) (t0 t1 t : Z),
        quiet w -> t0 <= t1 < t0 + 300 -> t1 <= t ->
        Timeout.queue (Loop.timers (run [(t0, PrevDown); (t1, PrevUp)] w))
        = [{| Timeout.handle := Timeout.next_handle (Loop.timers w);
              Timeout.due := t0 + 300;
              Timeout.callback := HoldPrev |}]
        /\ Loop.sent (advance t (run [(t0, PrevDown); (t1, PrevUp)] w))
           = Loop.sent w ++ [(t1, VString "PREVIOUS")]).
Proof.
  split; [| split].
  - intros w t0 newTime Ht Hlt.
    unfold onPrevUp, onNextUp, onUp, withinThreshold, scope_sendCommand.
    rewrite Ht.
    destruct (Z.ltb_spec newTime (t0 + 300)) as [_ | Hc]; [| lia].
    cbn [Loop.vars Loop.timers Loop.sent].
    split; reflexivity.
  - intros sc Hsc. unfold fire, notInterrupted. rewrite Hsc.
    split; reflexivity.
  - intros w t0 t1 t Hq Ht Hle. split.
    + exact (release_keeps_timeout w t0 t1 Hq Ht).
    + exact (tap_cycle w t0 t1 t Hq Ht Hle).
Qed.

(** C4 at a press at 0 and a release at 100. *)
Lemma C4_release_at_100 :
  onPrevUp 100 (onPrevDown 0 init)
  = {| Loop.vars := {| isInterrupted := Some true; time := Some 0 |};
       Loop.timers := Loop.timers (onPrevDown 0 init);
       Loop.sent := [(100, VString "PREVIOUS")] |}.
Proof.
  exact (proj1 (proj1 C4_release_before_threshold (onPrevDown 0 init) 0 100
                  eq_refl eq_refl)).
Defined.

(** C4, where the claim fails: after the release the timeout of the press is
    still pending, and it runs at 300.  When the button has been pressed
    again by then (here at 200), that run sends the hold command. *)
Lemma C4_timeout_survives_release :
  Timeout.queue (Loop.timers (run [(0, PrevDown); (100, PrevUp)] init))
  = [{| Timeout.handle := 0; Timeout.due := 300;
        Timeout.callback := HoldPrev |}]
  /\ Loop.sent
       (advance 300 (run [(0, PrevDown); (100, PrevUp); (200, PrevDown)] init))
     = [(100, VString "PREVIOUS"); (300, VString "REWIND")].
Proof. split; vm_compute; reflexivity. Qed.

(** C5 (each press/release cycle sends exactly one of the tap command and
    the hold command, never both) fails in the code on two quick presses of
    the same button.  The second cycle lasts from 200 to 350: within it the
    timeout of the first press, never cancelled, finds the flag reset by the
    second press and sends REWIND (at 300), and the release sends
    PREVIOUS. *)
Theorem C5_second_press_sends_hold_and_tap :
  let out :=
    Loop.sent
      (advance 1000
         (run [(0, PrevDown); (100, PrevUp); (200, PrevDown); (350, PrevUp)]
            init)) in
  out = [(100, VString "PREVIOUS"); (300, VString "REWIND");
         (350, VString "PREVIOUS")]
  /\ count "REWIND" (filter (fun e => (200 <=? fst e)%Z) out) = 1%nat
  /\ count "PREVIOUS" (filter (fun e => (200 <=? fst e)%Z) out) = 1%nat.
Proof. vm_compute. repeat split; reflexivity. Qed.

(** A press/release cycle that starts with nothing pending sends exactly one
    of the two commands: the tap command when the release comes before
    300 ms, the hold command otherwise (followed by PLAY at the release). *)
Theorem isolated_cycle_sends_one :
  forall (w : world) (t0 t1 t : Z),
    quiet w -> Loop.sent w = [] -> t0 <= t1 -> t1 <= t ->
    let out := Loop.sent (advance t (run [(t0, PrevDown); (t1, PrevUp)] w)) in
    (t1 < t0 + 300 ->
       count "PREVIOUS" out = 1%nat /\ count "REWIND" out = 0%nat)
    /\ (t0 + 300 <= t1 ->
       count "PREVIOUS" out = 0%nat /\ count "REWIND" out = 1%nat
       /\ count "PLAY" out = 1%nat).
Proof.
  intros w t0 t1 t Hq Hs H01 H1t out. split; intros H.
  - unfold out. rewrite tap_cycle by (auto; lia). rewrite Hs.
    split; reflexivity.
  - unfold out. rewrite hold_cycle by (auto; lia). rewrite Hs.
    repeat split; reflexivity.
Qed.

(** The two cycles of the specification: press at 0 and release at 100, and
    press at 0 and release at 400. *)
Lemma isolated_cycle_examples :
  (let out := Loop.sent (advance 1000 (run [(0, PrevDown); (100, PrevUp)] init)) in
   count "PREVIOUS" out = 1%nat /\ count "REWIND" out = 0%nat)
  /\ (let out := Loop.sent (advance 1000 (run [(0, PrevDown); (400, PrevUp)] init)) in
      count "PREVIOUS" out = 0%nat /\ count "REWIND" out = 1%nat
      /\ count "PLAY" out = 1%nat).
Proof.
  split.
  - exact (proj1 (isolated_cycle_sends_one init 0 100 1000 eq_refl eq_refl
                    ltac:(lia) ltac:(lia)) ltac:(lia)).
  - exact (proj2 (isolated_cycle_sends_one init 0 400 1000 eq_refl eq_refl
                    ltac:(lia) ltac:(lia)) ltac:(lia)).
Defined.

End PlayerFacts.

(** ** Traces: the debounce of the dimmer and of the colour sliders *)

Module Trace.

(** Events come in the order of their times, none before [now]. *)
Fixpoint ordered {A : Type} (now : Z) (evs : list (Z * A)) : Prop :=
  match evs with
  | [] => True
  | (t, _) :: rest => now <= t /\ ordered t rest
  end.

(** The time of the last event, [t0] when there is none. *)
Definition last_time {A : Type} (t0 : Z) (evs : list (Z * A)) : Z :=
  fold_left (fun _ e => fst e) evs t0.

(** What the last event carries, [a0] when there is none. *)
Definition last_of {A : Type} (a0 : A) (evs : list (Z * A)) : A :=
  fold_left (fun _ e => snd e) evs a0.

(** All events fall in the 300 ms that start at [t1]. *)
Definition within_window {A : Type} (t1 : Z) (evs : list (Z * A)) : Prop :=
  Forall (fun e => t1 <= fst e < t1 + 300) evs.

(** [n] events, [step] ms apart, from [t] on. *)
Fixpoint every {A : Type} (step : Z) (n : nat) (t : Z) (a : A)
  : list (Z * A) :=
  match n with
  | O => []
  | S n' => (t, a) :: every step n' (t + step) a
  end.

(** The quotient of [t] by [w], rounded up. *)
Definition ceil_div (t w : Z) : Z := (t + w - 1) / w.

End Trace.

Module DimmerFacts.

Import Dimmer Trace.

Local Open Scope string_scope.
Local Open Scope list_scope.

(** The command a user action asks for. *)
Definition command_of (a : action) : value :=
  match a with
  | SetSwitch state => VString (if state then "ON" else "OFF")
  | SetBrightness brightness => brightness
  end.

(** A single timeout is pending, registered at [now] for the command [c],
    and [commandTimeout] holds its handle. *)
Definition armed (now : Z) (c : value) (w : world) : Prop :=
  exists h,
    commandTimeout (Loop.vars w) = Some h
    /\ Timeout.queue (Loop.timers w)
       = [{| Timeout.handle := h; Timeout.due := now + 300;
             Timeout.callback := SendLater c |}].

Lemma dimmer_run_cons (t : Z) (a : action) (rest : list (Z * action))
    (w : world) :
  run ((t, a) :: rest) w = run rest (handler t a (advance t w)).
Proof. reflexivity. Qed.

(** Both actions end in [sendCommand]. *)
Lemma handler_sendCommand (now : Z) (a : action) (w : world) :
  exists sw,
    handler now a w
    = sendCommand now (command_of a)
        {| Loop.vars := {| item_state := item_state (Loop.vars w);
                           switchState := sw;
                           commandTimeout := commandTimeout (Loop.vars w) |};
           Loop.timers := Loop.timers w;
           Loop.sent := Loop.sent w |}.
Proof.
  destruct a as [state | brightness].
  - exists (switchState (Loop.vars w)).
    destruct w as [[st sw ct] ts out]. reflexivity.
  - exists (gt0 brightness). reflexivity.
Qed.

(** A submit while a timeout is pending cancels it and registers a new
    one, due 300 ms later. *)
Lemma sendCommand_restarts (now : Z) (a : action) (w : world) (h : nat) :
  commandTimeout (Loop.vars w) = Some h ->
  Loop.timers (handler now a w)
  = snd (Timeout.start now 300 (SendLater (command_of a))
           (Timeout.cancel h (Loop.timers w)))
  /\ commandTimeout (Loop.vars (handler now a w))
     = Some (Timeout.next_handle (Loop.timers w))
  /\ Loop.sent (handler now a w) = Loop.sent w.
Proof.
  intros Hct. destruct (handler_sendCommand now a w) as [sw ->].
  unfold sendCommand. cbn [Loop.vars Loop.timers Loop.sent commandTimeout].
  rewrite Hct. repeat split.
Qed.

(** What one event does to an armed controller: when the timeout was due it
    has run and sent its command, and a new one is armed; otherwise it is
    cancelled, nothing is sent, and a new one is armed. *)
Lemma dimmer_step (now t : Z) (c : value) (a : action) (w : world) :
  armed now c w ->
  let w' := handler t a (advance t w) in
  armed t (command_of a) w'
  /\ ((now + 300 <= t /\ Loop.sent w' = Loop.sent w ++ [(now + 300, c)])
      \/ (t < now + 300 /\ Loop.sent w' = Loop.sent w)).
Proof.
  intros (h & Hct & Hq) w'.
  destruct w as [[st sw ct] [n q] out]. simpl in Hct, Hq. subst ct q.
  destruct (handler_sendCommand t a
              (advance t {| Loop.vars := {| item_state := st; switchState := sw;
                                            commandTimeout := Some h |};
                            Loop.timers := {| Timeout.next_handle := n;
                                              Timeout.queue :=
                                                [{| Timeout.handle := h;
                                                    Timeout.due := now + 300;
                                                    Timeout.callback := SendLater c |}] |};
                            Loop.sent := out |})) as [sw' Hh].
  unfold w'. rewrite Hh. clear Hh w'.
  unfold armed, advance, Loop.advance, sendCommand.
  cbn -[Z.add Z.leb].
  destruct (Z.leb_spec (now + 300) t) as [Hdue | Hearly].
  - cbn -[Z.add Z.leb]. split.
    + exists n. split; reflexivity.
    + left. split; [exact Hdue | reflexivity].
  - cbn -[Z.add Z.leb]. rewrite Nat.eqb_refl. cbn -[Z.add Z.leb]. split.
    + exists n. split; reflexivity.
    + right. split; [exact Hearly | reflexivity].
Qed.

(** The first event, on a controller with nothing pending. *)
Lemma dimmer_first (state : string) (t : Z) (a : action) :
  armed t (command_of a) (handler t a (advance t (init state)))
  /\ Loop.sent (handler t a (advance t (init state))) = [].
Proof.
  destruct (handler_sendCommand t a (advance t (init state))) as [sw Hh].
  rewrite Hh. split; [| reflexivity].
  exists 0%nat. split; reflexivity.
Qed.

(** Letting time pass over an armed controller sends at most one command:
    the one of the pending timeout, at its due time. *)
Lemma dimmer_advance (now t : Z) (c : value) (w : world) :
  armed now c w ->
  (t < now + 300 /\ Loop.sent (advance t w) = Loop.sent w)
  \/ (now + 300 <= t
      /\ Loop.sent (advance t w) = Loop.sent w ++ [(now + 300, c)]).
Proof.
  intros (h & Hct & Hq).
  destruct w as [[st sw ct] [n q] out]. simpl in Hct, Hq. subst ct q.
  unfold advance, Loop.advance. cbn -[Z.add Z.leb].
  destruct (Z.leb_spec (now + 300) t) as [Hdue | Hearly].
  - right. split; [exact Hdue | reflexivity].
  - left. split; [exact Hearly | reflexivity].
Qed.

(** Once armed, the rest of a trace keeps the controller armed, sends at
    most one command per 300 ms, and never more commands than events. *)
Lemma dimmer_rest_bound (t1 : Z) (rest : list (Z * action)) :
  forall (now : Z) (c : value) (w : world) (n : nat),
    armed now c w -> ordered now rest ->
    300 * Z.of_nat (List.length (Loop.sent w)) <= now - t1 ->
    (List.length (Loop.sent w) + 1 <= n)%nat ->
    let w' := run rest w in
    (exists c', armed (last_time now rest) c' w')
    /\ 300 * Z.of_nat (List.length (Loop.sent w')) <= last_time now rest - t1
    /\ (List.length (Loop.sent w') + 1 <= n + List.length rest)%nat.
Proof.
  induction rest as [| [t a] rest IH]; intros now c w n Harm Hord Hrate Hn.
  - simpl. repeat split; [exists c; exact Harm | exact Hrate | lia].
  - destruct Hord as [Hle Hord].
    rewrite dimmer_run_cons. cbn [last_time fold_left fst].
    fold (last_time t rest).
    destruct (dimmer_step now t c a w Harm) as (Harm' & Hsent).
    specialize (IH t (command_of a) (handler t a (advance t w)) (S n)
                  Harm' Hord).
    cbn [List.length].
    destruct Hsent as [[Hdue Hs] | [Hearly Hs]]; rewrite Hs in IH.
    + rewrite length_app in IH. cbn [List.length] in IH.
      destruct IH as (Ha & Hr & Hc); [lia | lia |].
      repeat split; [exact Ha | exact Hr | lia].
    + destruct IH as (Ha & Hr & Hc); [lia | lia |].
      repeat split; [exact Ha | exact Hr | lia].
Qed.

(** The rate of the dimmer: a trace of [N] events that spans [T] ms sends at
    most [N] commands, and at most one more than [T / 300]. *)
Lemma dimmer_rate_bound (state : string) (t1 : Z) (a1 : action)
    (rest : list (Z * action)) (t_end : Z) :
  ordered t1 rest ->
  let out :=
    Loop.sent (advance t_end (run ((t1, a1) :: rest) (init state))) in
  (List.length out <= List.length ((t1, a1) :: rest))%nat
  /\ 300 * (Z.of_nat (List.length out) - 1) <= last_time t1 rest - t1.
Proof.
  intros Hord out. unfold out. clear out. rewrite dimmer_run_cons.
  destruct (dimmer_first state t1 a1) as [Harm Hs].
  destruct (dimmer_rest_bound t1 rest t1 _ _ 1%nat Harm Hord)
    as ([c Ha] & Hr & Hc).
  { rewrite Hs. simpl. lia. }
  { rewrite Hs. simpl. lia. }
  destruct (dimmer_advance _ t_end _ _ Ha) as [[_ He] | [_ He]]; rewrite He.
  - cbn [List.length]. split; lia.
  - rewrite length_app. cbn [List.length]. split; lia.
Qed.

(** Events that all fall in the 300 ms after the first leave the controller
    armed for the last of them, with nothing sent. *)
Lemma dimmer_window (t1 : Z) (rest : list (Z * action)) :
  forall (now : Z) (a : action) (w : world),
    armed now (command_of a) w -> t1 <= now -> within_window t1 rest ->
    let w' := run rest w in
    armed (last_time now rest) (command_of (last_of a rest)) w'
    /\ Loop.sent w' = Loop.sent w.
Proof.
  induction rest as [| [t a'] rest IH]; intros now a w Harm Hnow Hwin.
  - simpl. split; [exact Harm | reflexivity].
  - inversion Hwin as [| ? ? Ht Hwin']; subst. cbn [fst] in Ht.
    rewrite dimmer_run_cons.
    cbn [last_time last_of fold_left fst snd].
    fold (last_time t rest). fold (last_of a' rest).
    destruct (dimmer_step now t _ a' w Harm) as (Harm' & Hsent).
    destruct (IH t a' _ Harm' ltac:(lia) Hwin') as (Ha & Hs).
    split; [exact Ha |].
    rewrite Hs. destruct Hsent as [[Hdue _] | [_ He]]; [lia | exact He].
Qed.

(** Coalescing in the dimmer: submissions within one window send one
    command, that of the last submission, 300 ms after it. *)
Lemma dimmer_coalesce (state : string) (t1 : Z) (a1 : action)
    (rest : list (Z * action)) (t_end : Z) :
  within_window t1 rest ->
  last_time t1 rest + 300 <= t_end ->
  Loop.sent (advance t_end (run ((t1, a1) :: rest) (init state)))
  = [(last_time t1 rest + 300, command_of (last_of a1 rest))].
Proof.
  intros Hwin Hend. rewrite dimmer_run_cons.
  destruct (dimmer_first state t1 a1) as [Harm Hs].
  destruct (dimmer_window t1 rest t1 a1 _ Harm ltac:(lia) Hwin) as (Ha & Hs').
  destruct (dimmer_advance _ t_end _ _ Ha) as [[Hc _] | [_ He]]; [lia |].
  rewrite He, Hs', Hs. reflexivity.
Qed.

End DimmerFacts.

Module ColorTrace.

Import Color Trace.

Local Open Scope string_scope.
Local Open Scope list_scope.

(** The timeout a user action registers when none is pending. *)
Definition callback_of (a : action) : callback :=
  match a with
  | SetBrightness _ => BrightnessTimeout
  | SetHue _ => ColorTimeout
  | SetSaturation _ => ColorTimeout
  end.

(** The slider an action moves. *)
Definition moved (a : action) (sc : scope) : scope :=
  match a with
  | SetBrightness v => set_brightness v sc
  | SetHue v => set_hue v sc
  | SetSaturation v => set_saturation v sc
  end.

(** A single timeout is pending, due at [d], and [pending] is set. *)
Definition waiting (d : Z) (cb : callback) (w : world) : Prop :=
  pending (Loop.vars w) = true
  /\ exists h,
       Timeout.queue (Loop.timers w)
       = [{| Timeout.handle := h; Timeout.due := d; Timeout.callback := cb |}].

(** Nothing is pending. *)
Definition idle (w : world) : Prop :=
  pending (Loop.vars w) = false /\ Timeout.queue (Loop.timers w) = [].

(** The slider moves of a trace, as brightness actions. *)
Definition brightness_events (evs : list (Z * value)) : list (Z * action) :=
  map (fun e => (fst e, SetBrightness (snd e))) evs.

(** A submit while a timeout is pending moves the slider and does nothing
    else: no timeout is registered, and the pending one keeps its due
    time. *)
Lemma handler_pending (now : Z) (a : action) (w : world) :
  pending (Loop.vars w) = true ->
  handler now a w = set_vars (moved a (Loop.vars w)) w.
Proof.
  intros Hp. destruct w as [[st hu sa br pe] ts out]. simpl in Hp. subst pe.
  destruct a; reflexivity.
Qed.

(** A submit while nothing is pending moves the slider and registers one
    timeout, due in 300 ms. *)
Lemma handler_idle (now : Z) (a : action) (w : world) :
  idle w ->
  waiting (now + 300) (callback_of a) (handler now a w)
  /\ Loop.sent (handler now a w) = Loop.sent w
  /\ Loop.vars (handler now a w) = set_pending true (moved a (Loop.vars w)).
Proof.
  intros [Hp Hq].
  destruct w as [[st hu sa br pe] [n q] out]. simpl in Hp, Hq. subst pe q.
  destruct a; (split; [split; [reflexivity | exists n; reflexivity]
                      | split; reflexivity]).
Qed.

Section Rendering.

Variable dtoa : Q -> string.

Lemma color_run_cons (t : Z) (a : action) (rest : list (Z * action))
    (w : world) :
  run dtoa ((t, a) :: rest) w
  = run dtoa rest (handler t a (advance dtoa t w)).
Proof. reflexivity. Qed.

(** Each callback sends exactly one command and clears [pending]. *)
Lemma fire_one (cb : callback) (sc : scope) :
  exists sc' c, fire dtoa cb sc = (sc', [c]) /\ pending sc' = false.
Proof.
  destruct cb; unfold fire.
  - unfold brightnessTimeout. eexists. eexists. split; [reflexivity |].
    unfold digest. destruct (String.eqb _ _); reflexivity.
  - unfold colorTimeout.
    destruct (isUninitialized (item_state sc));
      (eexists; eexists; split; [reflexivity |]);
      unfold digest; destruct (String.eqb _ _); reflexivity.
Qed.

(** The callback of [setBrightness] sends the brightness slider's value, or
    '0' when that is not a number, and leaves every slider alone. *)
Lemma fire_brightness (sc : scope) :
  fire dtoa BrightnessTimeout sc
  = (set_pending false sc, [orZeroString (brightness sc)]).
Proof.
  unfold fire, brightnessTimeout, digest. cbn [item_state set_pending].
  rewrite String.eqb_refl. reflexivity.
Qed.

Lemma advance_early (t d : Z) (cb : callback) (w : world) :
  waiting d cb w -> t < d -> advance dtoa t w = w.
Proof.
  intros (_ & h & Hq) Hlt.
  destruct w as [sc [n q] out]. simpl in Hq. subst q.
  unfold advance, Loop.advance. cbn -[Z.leb fire].
  destruct (Z.leb_spec d t) as [Hc | _]; [lia | reflexivity].
Qed.

Lemma advance_due (t d : Z) (cb : callback) (w : world) :
  waiting d cb w -> d <= t ->
  idle (advance dtoa t w)
  /\ Loop.vars (advance dtoa t w) = fst (fire dtoa cb (Loop.vars w))
  /\ Loop.sent (advance dtoa t w)
     = Loop.sent w ++ Loop.stamp d (snd (fire dtoa cb (Loop.vars w))).
Proof.
  intros (_ & h & Hq) Hle.
  destruct w as [sc [n q] out]. simpl in Hq. subst q.
  unfold advance, Loop.advance. cbn -[Z.leb fire].
  destruct (Z.leb_spec d t) as [_ | Hc]; [| lia].
  destruct (fire_one cb sc) as (sc' & c & Hf & Hp).
  rewrite Hf. cbn. repeat split. exact Hp.
Qed.

(** What one event does to a controller with a pending timeout: when the
    timeout was due it has run and sent one command, and the event registers
    a new one; otherwise the event changes neither the timeouts nor what was
    sent. *)
Lemma color_step (t d : Z) (cb : callback) (a : action) (w : world) :
  waiting d cb w ->
  let w' := handler t a (advance dtoa t w) in
  (d <= t /\ waiting (t + 300) (callback_of a) w'
   /\ List.length (Loop.sent w') = S (List.length (Loop.sent w)))
  \/ (t < d /\ waiting d cb w' /\ Loop.sent w' = Loop.sent w
      /\ Loop.timers w' = Loop.timers w).
Proof.
  intros Hw w'. destruct (Z.le_gt_cases d t) as [Hle | Hlt].
  - left. split; [exact Hle |].
    destruct (advance_due t d cb w Hw Hle) as (Hidle & _ & Hs).
    destruct (handler_idle t a _ Hidle) as (Hw' & Hs' & _).
    split; [exact Hw' |].
    unfold w'. rewrite Hs', Hs.
    destruct (fire_one cb (Loop.vars w)) as (sc' & c & Hf & _).
    rewrite Hf. cbn. rewrite length_app. cbn. lia.
  - right. split; [exact Hlt |].
    unfold w'. rewrite (advance_early t d cb w Hw Hlt).
    destruct Hw as (Hp & h & Hq).
    rewrite (handler_pending t a w Hp).
    repeat split.
    + destruct a; exact Hp.
    + exists h. exact Hq.
Qed.

(** Letting time pass over a pending timeout sends at most one command. *)
Lemma color_advance (t d : Z) (cb : callback) (w : world) :
  waiting d cb w ->
  (List.length (Loop.sent (advance dtoa t w)) <= S (List.length (Loop.sent w)))%nat.
Proof.
  intros Hw. destruct (Z.le_gt_cases d t) as [Hle | Hlt].
  - destruct (advance_due t d cb w Hw Hle) as (_ & _ & Hs). rewrite Hs.
    destruct (fire_one cb (Loop.vars w)) as (sc' & c & Hf & _).
    rewrite Hf. cbn. rewrite length_app. cbn. lia.
  - rewrite (advance_early t d cb w Hw Hlt). lia.
Qed.

(** While a timeout is pending, the rest of a trace keeps one pending, sends
    at most one command per 300 ms, and never more commands than events. *)
Lemma color_rest_bound (t1 : Z) (rest : list (Z * action)) :
  forall (now d : Z) (cb : callback) (w : world) (n : nat),
    waiting d cb w -> ordered now rest -> d <= now + 300 ->
    300 * (Z.of_nat (List.length (Loop.sent w)) + 1) <= d - t1 ->
    (List.length (Loop.sent w) + 1 <= n)%nat ->
    let w' := run dtoa rest w in
    exists d' cb',
      waiting d' cb' w'
      /\ d' <= last_time now rest + 300
      /\ 300 * (Z.of_nat (List.length (Loop.sent w')) + 1) <= d' - t1
      /\ (List.length (Loop.sent w') + 1 <= n + List.length rest)%nat.
Proof.
  induction rest as [| [t a] rest IH];
    intros now d cb w n Hw Hord Hd Hrate Hn.
  - change (run dtoa [] w) with w. unfold last_time. cbn [fold_left List.length].
    exists d, cb. split; [exact Hw | split; [lia | split; lia]].
  - destruct Hord as [Hle Hord].
    rewrite color_run_cons. cbn [last_time fold_left fst].
    fold (last_time t rest). cbn [List.length].
    destruct (color_step t d cb a w Hw)
      as [(Hdue & Hw' & Hlen) | (Hearly & Hw' & Hs & _)].
    + destruct (IH t (t + 300) _ _ (S n) Hw' Hord) as (d' & cb' & H1 & H2 & H3 & H4);
        [lia | rewrite Hlen; lia | rewrite Hlen; lia |].
      exists d', cb'. split; [exact H1 | split; [lia | split; lia]].
    + destruct (IH t d _ _ (S n) Hw' Hord) as (d' & cb' & H1 & H2 & H3 & H4);
        [lia | rewrite Hs; lia | rewrite Hs; lia |].
      exists d', cb'. split; [exact H1 | split; [lia | split; lia]].
Qed.

(** The rate of the colour sliders: a trace of [N] events that spans [T] ms
    sends at most [N] commands, and at most one more than [T / 300]. *)
Lemma color_rate_bound (state : string) (t1 : Z) (a1 : action)
    (rest : list (Z * action)) (t_end : Z) :
  ordered t1 rest ->
  let out :=
    Loop.sent (advance dtoa t_end (run dtoa ((t1, a1) :: rest) (init state))) in
  (List.length out <= List.length ((t1, a1) :: rest))%nat
  /\ 300 * (Z.of_nat (List.length out) - 1) <= last_time t1 rest - t1.
Proof.
  intros Hord out. unfold out. clear out. rewrite color_run_cons.
  assert (Hi : idle (advance dtoa t1 (init state))) by (split; reflexivity).
  destruct (handler_idle t1 a1 _ Hi) as (Hw & Hs & _).
  assert (Hs0 : Loop.sent (handler t1 a1 (advance dtoa t1 (init state))) = [])
    by (rewrite Hs; reflexivity).
  destruct (color_rest_bound t1 rest t1 (t1 + 300) _ _ 1%nat Hw Hord)
    as (d' & cb' & H1 & H2 & H3 & H4).
  { lia. }
  { rewrite Hs0. simpl. lia. }
  { rewrite Hs0. simpl. lia. }
  pose proof (color_advance t_end d' cb' _ H1) as Hend.
  cbn [List.length]. split; lia.
Qed.

(** Brightness moves that all fall before the pending timeout is due leave
    it pending, send nothing, and leave the last value in the slider. *)
Lemma color_window (d : Z) (evs : list (Z * value)) :
  forall (v : value) (w : world),
    waiting d BrightnessTimeout w -> brightness (Loop.vars w) = v ->
    Forall (fun e => fst e < d) evs ->
    let w' := run dtoa (brightness_events evs) w in
    waiting d BrightnessTimeout w'
    /\ brightness (Loop.vars w') = last_of v evs
    /\ Loop.sent w' = Loop.sent w.
Proof.
  induction evs as [| [t v'] evs IH]; intros v w Hw Hv Hwin.
  - change (run dtoa (brightness_events []) w) with w.
    split; [exact Hw | split; [exact Hv | reflexivity]].
  - inversion Hwin as [| ? ? Ht Hwin']; subst. cbn [fst] in Ht.
    cbn [brightness_events map fst snd]. fold (brightness_events evs).
    rewrite color_run_cons.
    cbn [last_of fold_left snd]. fold (last_of v' evs).
    rewrite (advance_early t d _ w Hw Ht).
    destruct Hw as (Hp & h & Hq).
    rewrite (handler_pending t _ w Hp).
    destruct (IH v' (set_vars (moved (SetBrightness v') (Loop.vars w)) w))
      as (H1 & H2 & H3); [split; [exact Hp | exists h; exact Hq]
                         | reflexivity | exact Hwin' |].
    split; [exact H1 | split; [exact H2 | exact H3]].
Qed.

(** Coalescing in the brightness slider: moves within one window send one
    command when the window closes, carrying the last value. *)
Lemma color_coalesce (state : string) (t1 : Z) (v1 : value)
    (rest : list (Z * value)) (t_end : Z) :
  within_window t1 rest ->
  t1 + 300 <= t_end ->
  Loop.sent
    (advance dtoa t_end
       (run dtoa (brightness_events ((t1, v1) :: rest)) (init state)))
  = [(t1 + 300, orZeroString (last_of v1 rest))].
Proof.
  intros Hwin Hend.
  cbn [brightness_events map fst snd]. fold (brightness_events rest).
  rewrite color_run_cons.
  assert (Hi : idle (advance dtoa t1 (init state))) by (split; reflexivity).
  destruct (handler_idle t1 (SetBrightness v1) _ Hi) as (Hw & Hs & Hv).
  destruct (color_window (t1 + 300) rest v1 _ Hw) as (H1 & H2 & H3).
  { rewrite Hv. reflexivity. }
  { eapply Forall_impl; [| exact Hwin]. intros e He. simpl in He. lia. }
  destruct (advance_due t_end (t1 + 300) _ _ H1 Hend) as (_ & _ & Hsent).
  rewrite Hsent, H3, Hs, fire_brightness. cbn [snd Loop.stamp map].
  rewrite H2. reflexivity.
Qed.

(** The first event of a fresh controller, once its timeout has run. *)
Lemma color_first_command (state : string) (t : Z) (a : action) (t_end : Z) :
  t + 300 <= t_end ->
  Loop.sent (advance dtoa t_end (run dtoa [(t, a)] (init state)))
  = Loop.stamp (t + 300)
      (snd (fire dtoa (callback_of a)
              (set_pending true (moved a (Loop.vars (init state)))))).
Proof.
  intros Hend. rewrite color_run_cons.
  change (run dtoa [] ?w) with w.
  assert (Hi : idle (advance dtoa t (init state))) by (split; reflexivity).
  destruct (handler_idle t a _ Hi) as (Hw & Hs & Hv).
  destruct (advance_due t_end (t + 300) _ _ Hw Hend) as (_ & _ & Hsent).
  rewrite Hsent, Hs, Hv. reflexivity.
Qed.

Lemma init_uninitialized (state : string) :
  state = "UNDEF" \/ state = "NULL" \/ state = "-" ->
  Loop.vars (init state)
  = {| item_state := "-"; hue := num 0; saturation := num 0;
       brightness := num 0; pending := false |}.
Proof. intros [-> | [-> | ->]]; reflexivity. Qed.

(** C10: when the callback of [setColor] runs while the item's state is
    "UNDEF", "NULL" or "-", the command it sends and stores as the new state
    is the hue rounded up, then 100 and 100, whatever saturation and
    brightness the sliders held, and both sliders are set to 100.  So on a
    controller created over such a state, a move of the hue slider sends the
    hue with 100 and 100, and a move of the saturation slider to any value
    sends "0,100,100". *)
Theorem C10_uninitialized_state_forces_100 :
  (forall sc : scope,
      item_state sc = "UNDEF" \/ item_state sc = "NULL" \/ item_state sc = "-" ->
      let state :=
        (Number_toString dtoa (Math_ceil (orZeroString (hue sc)))
         ++ ",100,100")%string in
      colorTimeout dtoa sc
      = ({| item_state := state;
            hue := hue sc;
            saturation := num 100;
            brightness := num 100;
            pending := false |},
         [VString state]))
  /\ (forall (state : string) (t : Z) (v : value) (t_end : Z),
        state = "UNDEF" \/ state = "NULL" \/ state = "-" ->
        t + 300 <= t_end ->
        Loop.sent (advance dtoa t_end (run dtoa [(t, SetHue v)] (init state)))
        = [(t + 300,
            VString (Number_toString dtoa (Math_ceil (orZeroString v))
                     ++ ",100,100")%string)]
        /\ Loop.sent
             (advance dtoa t_end (run dtoa [(t, SetSaturation v)] (init state)))
           = [(t + 300, VString "0,100,100")]).
Proof.
  split.
  - exact (ColorFacts.colorTimeout_uninitialized dtoa).
  - intros state t v t_end Hst Hend.
    rewrite !color_first_command by exact Hend.
    rewrite (init_uninitialized state Hst).
    unfold fire. cbn [callback_of moved].
    rewrite !ColorFacts.colorTimeout_uninitialized
      by (right; right; reflexivity).
    split; reflexivity.
Qed.

End Rendering.

(** C10 at a hue of 200.5 over the state "-", with the other sliders at 40
    and 7: the command is "201,100,100". *)
Lemma C10_uninitialized_at_dash :
  colorTimeout (fun _ => "")
    {| item_state := "-"; hue := VNumber (Fin (401 # 2));
       saturation := num 40; brightness := num 7; pending := true |}
  = ({| item_state := "201,100,100"; hue := VNumber (Fin (401 # 2));
        saturation := num 100; brightness := num 100; pending := false |},
     [VString "201,100,100"]).
Proof.
  exact (proj1 (C10_uninitialized_state_forces_100 (fun _ => ""))
           {| item_state := "-"; hue := VNumber (Fin (401 # 2));
              saturation := num 40; brightness := num 7; pending := true |}
           (or_intror (or_intror eq_refl))).
Defined.

End ColorTrace.

(** ** The debounce: what a submit does, and how many commands go out *)

Module Debounce.

Import Trace.

Local Open Scope string_scope.
Local Open Scope list_scope.

(** C1 (as amended): in the colour controller a submit while a timeout is
    pending registers no timeout and leaves the pending one, with its due
    time, as it is.  In the dimmer a submit while a timeout is pending
    cancels it and registers a new one, due 300 ms after the submit.  In
    both, [N] submissions in the order of their times, the last [T] ms after
    the first, send at most [N] commands and at most one more than [T / 300],
    however long one waits afterwards. *)
Theorem C1_debounce_rate :
  forall dtoa : Q -> string,
    (forall (now : Z) (a : Color.action) (w : Color.world),
        Color.pending (Loop.vars w) = true ->
        Loop.timers (Color.handler now a w) = Loop.timers w
        /\ Loop.sent (Color.handler now a w) = Loop.sent w
        /\ Color.pending (Loop.vars (Color.handler now a w)) = true)
    /\ (forall (now : Z) (a : Dimmer.action) (w : Dimmer.world) (h : nat),
          Dimmer.commandTimeout (Loop.vars w) = Some h ->
          Loop.timers (Dimmer.handler now a w)
          = snd (Timeout.start now 300
                   (Dimmer.SendLater (DimmerFacts.command_of a))
                   (Timeout.cancel h (Loop.timers w)))
          /\ Loop.sent (Dimmer.handler now a w) = Loop.sent w)
    /\ (forall (state : string) (t1 : Z) (a1 : Color.action)
               (rest : list (Z * Color.action)) (t_end : Z),
          ordered t1 rest ->
          let out :=
            Loop.sent
              (Color.advance dtoa t_end
                 (Color.run dtoa ((t1, a1) :: rest) (Color.init state))) in
          (List.length out <= List.length ((t1, a1) :: rest))%nat
          /\ 300 * (Z.of_nat (List.length out) - 1) <= last_time t1 rest - t1)
    /\ (forall (state : string) (t1 : Z) (a1 : Dimmer.action)
               (rest : list (Z * Dimmer.action)) (t_end : Z),
          ordered t1 rest ->
          let out :=
            Loop.sent
              (Dimmer.advance t_end
                 (Dimmer.run ((t1, a1) :: rest) (Dimmer.init state))) in
          (List.length out <= List.length ((t1, a1) :: rest))%nat
          /\ 300 * (Z.of_nat (List.length out) - 1) <= last_time t1 rest - t1).
Proof.
  intros dtoa. split; [| split; [| split]].
  - intros now a w Hp. rewrite (ColorTrace.handler_pending now a w Hp).
    split; [reflexivity | split; [reflexivity |]].
    destruct a; exact Hp.
  - intros now a w h Hct.
    destruct (DimmerFacts.sendCommand_restarts now a w h Hct) as (H1 & _ & H3).
    split; assumption.
  - intros state t1 a1 rest t_end Hord.
    exact (ColorTrace.color_rate_bound dtoa state t1 a1 rest t_end Hord).
  - intros state t1 a1 rest t_end Hord.
    exact (DimmerFacts.dimmer_rate_bound state t1 a1 rest t_end Hord).
Qed.

(** C1 at thirty-one moves of the brightness slider of a colour item, 100 ms
    apart: at most eleven commands. *)
Lemma C1_rate_of_a_drag :
  ordered 0 (every 100 30 100 (Color.SetBrightness (num 50)))
  /\ (let out :=
        Loop.sent
          (Color.advance (fun _ => "") 10000
             (Color.run (fun _ => "")
                ((0, Color.SetBrightness (num 50))
                 :: every 100 30 100 (Color.SetBrightness (num 50)))
                (Color.init "120,80,100"))) in
      (List.length out <= 31)%nat
      /\ 300 * (Z.of_nat (List.length out) - 1) <= 3000).
Proof.
  assert (H : ordered 0 (every 100 30 100 (Color.SetBrightness (num 50)))).
  { cbn. repeat split; lia. }
  split; [exact H |].
  exact (proj1 (proj2 (proj2 (C1_debounce_rate (fun _ => ""))))
           "120,80,100" 0 (Color.SetBrightness (num 50))
           (every 100 30 100 (Color.SetBrightness (num 50))) 10000 H).
Defined.

(** C1, where the claim fails.  In the dimmer a second submit, 100 ms after
    the first, leaves one timeout pending, and it is a new one: handle 1, due
    at 400.  Thirty-one submits 100 ms apart, over 3000 ms, send one command
    (at 3300), and two submits 3000 ms apart to a colour item send two: in
    neither case the ten commands of 3000 / 300. *)
Lemma C1_restart_and_count :
  Timeout.queue
    (Loop.timers
       (Dimmer.run [(0, Dimmer.SetBrightness (num 5));
                    (100, Dimmer.SetBrightness (num 12))]
          (Dimmer.init "0")))
  = [{| Timeout.handle := 1; Timeout.due := 400;
        Timeout.callback := Dimmer.SendLater (num 12) |}]
  /\ Loop.sent
       (Dimmer.advance 10000
          (Dimmer.run (every 100 31 0 (Dimmer.SetBrightness (num 50)))
             (Dimmer.init "0")))
     = [(3300, num 50)]
  /\ Loop.sent
       (Color.advance (fun _ => "") 10000
          (Color.run (fun _ => "")
             [(0, Color.SetBrightness (num 50));
              (3000, Color.SetBrightness (num 60))]
             (Color.init "120,80,100")))
     = [(300, num 50); (3300, num 60)]
  /\ ceil_div 3000 300 = 10.
Proof. repeat split; vm_compute; reflexivity. Qed.

End Debounce.

(** ** OnOffValue: commands, and what an update leaves alone *)

Module OnOffValueMore.

Import OnOffValue OnOffValueFacts.

Local Open Scope string_scope.

(** What [update(Command)] stores for an on/off command: the command,
    inverted when [inverse] is set. *)
Definition stored (o : t) (c : OnOffType) : OnOffType :=
  if inverse o then flip c else c.

(** The configuration of a value: everything but [boolValue]. *)
Definition sameConfiguration (o o' : t) : Prop :=
  onValue o' = onValue o /\ offValue o' = offValue o
  /\ inverse o' = inverse o /\ receivesOnly o' = receivesOnly o.

Lemma update_OnOff (o : t) (c : OnOffType) :
  update_Command o (OnOffCommand c)
  = Return (wire (set_boolValue (stored o c) o), set_boolValue (stored o c) o).
Proof.
  unfold update_Command, inversed, stored. cbn [inverse boolValue set_boolValue].
  destruct (inverse o); reflexivity.
Qed.

Lemma update_String_command_on (o : t) (x : string) :
  isOn o x ->
  update_Command o (StringCommand x) = update_Command o (OnOffCommand ON).
Proof.
  intros H. rewrite update_OnOff. unfold update_Command.
  rewrite (update_String_on o x H). unfold stored. cbn [flip].
  destruct (inverse o); reflexivity.
Qed.

Lemma update_String_command_off (o : t) (x : string) :
  ~ isOn o x -> isOff o x ->
  update_Command o (StringCommand x) = update_Command o (OnOffCommand OFF).
Proof.
  intros Hn H. rewrite update_OnOff. unfold update_Command.
  rewrite (update_String_off o x Hn H). unfold stored. cbn [flip].
  destruct (inverse o); reflexivity.
Qed.

Lemma update_String_command_refused (o : t) (x : string) :
  ~ isOn o x -> ~ isOff o x ->
  update_Command o (StringCommand x)
  = IllegalArgumentException ("Didn't recognise the on/off value " ++ x).
Proof.
  intros Hn Hf. unfold update_Command.
  rewrite (proj1 (update_String_refused o x) (conj Hn Hf)). reflexivity.
Qed.

Lemma isOn_dec (o : t) (x : string) : isOn o x \/ ~ isOn o x.
Proof.
  destruct (String.eqb (onValue o) x || String.eqb "ON" (toUpperCase x)
            || String.eqb "1" x) eqn:E.
  - left. apply isOn_test. exact E.
  - right. intros H. apply isOn_test in H. congruence.
Qed.

Lemma isOff_dec (o : t) (x : string) : isOff o x \/ ~ isOff o x.
Proof.
  destruct (String.eqb (offValue o) x || String.eqb "OFF" (toUpperCase x)
            || String.eqb "0" x) eqn:E.
  - left. apply isOff_test. exact E.
  - right. intros H. apply isOff_test in H. congruence.
Qed.

(** [update(Command)] writes one of the two configured strings, never the
    string it was given: an open/closed command is taken as the on/off
    command of the same sense, and a string command as the on/off command it
    spells.  The string returned is the one of the value stored, which
    [getValue] then returns.  It throws exactly for a string that spells
    neither, and for a command of any other type. *)
Theorem update_Command_normalises :
  forall (o : t) (command : Command),
    (forall x o', update_Command o command = Return (x, o') ->
       (x = onValue o \/ x = offValue o)
       /\ x = wire o'
       /\ (getValue o' = ON -> x = onValue o)
       /\ (getValue o' = OFF -> x = offValue o))
    /\ update_Command o (OpenClosedCommand OPEN)
       = update_Command o (OnOffCommand ON)
    /\ update_Command o (OpenClosedCommand CLOSED)
       = update_Command o (OnOffCommand OFF)
    /\ (forall x, isOn o x ->
          update_Command o (StringCommand x)
          = update_Command o (OnOffCommand ON))
    /\ (forall x, ~ isOn o x -> isOff o x ->
          update_Command o (StringCommand x)
          = update_Command o (OnOffCommand OFF))
    /\ ((exists m, update_Command o command = IllegalArgumentException m) <->
        (exists className, command = OtherCommand className)
        \/ (exists x, command = StringCommand x /\ ~ isOn o x /\ ~ isOff o x)).
Proof.
  intros o command.
  assert (Hwire : forall c x o',
             update_Command o (OnOffCommand c) = Return (x, o') ->
             (x = onValue o \/ x = offValue o) /\ x = wire o'
             /\ (getValue o' = ON -> x = onValue o)
             /\ (getValue o' = OFF -> x = offValue o)).
  { intros c x o' H. rewrite update_OnOff in H. injection H as <- <-.
    unfold wire, getValue. cbn [boolValue set_boolValue onValue offValue].
    destruct (stored o c); repeat split; auto; intros E; discriminate E. }
  split; [| split; [reflexivity | split; [reflexivity | split; [| split]]]].
  - intros x o' H. destruct command as [c | c | y | className].
    + exact (Hwire c x o' H).
    + destruct c; [apply (Hwire ON) | apply (Hwire OFF)]; exact H.
    + destruct (isOn_dec o y) as [Hon | Hn].
      * rewrite (update_String_command_on o y Hon) in H. exact (Hwire ON x o' H).
      * destruct (isOff_dec o y) as [Hoff | Hf].
        -- rewrite (update_String_command_off o y Hn Hoff) in H.
           exact (Hwire OFF x o' H).
        -- rewrite (update_String_command_refused o y Hn Hf) in H.
           discriminate H.
    + discriminate H.
  - apply update_String_command_on.
  - apply update_String_command_off.
  - split.
    + intros [m H]. destruct command as [c | c | y | className].
      * rewrite update_OnOff in H. discriminate H.
      * destruct c; discriminate H.
      * right. exists y. split; [reflexivity |].
        destruct (isOn_dec o y) as [Hon | Hn].
        { rewrite (update_String_command_on o y Hon), update_OnOff in H.
          discriminate H. }
        destruct (isOff_dec o y) as [Hoff | Hf].
        { rewrite (update_String_command_off o y Hn Hoff), update_OnOff in H.
          discriminate H. }
        split; assumption.
      * left. exists className. reflexivity.
    + intros [[className ->] | [y (-> & Hn & Hf)]].
      * eexists. reflexivity.
      * eexists. apply update_String_command_refused; assumption.
Qed.

(** Encoding any on/off command and decoding the string written gives the
    command back exactly when the string written is [onValue], or [offValue]
    is not itself read as on.  So with an [offValue] that is not read as on,
    both commands come back, with and without inversion. *)
Theorem roundtrip_both_commands :
  forall (o : t) (c : OnOffType),
    (roundtrip o c = Return c <->
       stored o c = ON \/ ~ isOn o (offValue o))
    /\ (~ isOn o (offValue o) -> roundtrip o c = Return c).
Proof.
  intros o c.
  assert (Hiff : roundtrip o c = Return c <->
                 stored o c = ON \/ ~ isOn o (offValue o)).
  { unfold roundtrip. rewrite update_OnOff.
    set (o' := set_boolValue (stored o c) o).
    pose proof (update_String_on o' (wire o')) as Hon.
    pose proof (update_String_off o' (wire o')) as Hoff.
    change (inverse o') with (inverse o) in Hon, Hoff.
    unfold wire in *. cbn [boolValue o' set_boolValue onValue offValue] in *.
    change (isOn (set_boolValue (stored o c) o)) with (isOn o) in *.
    change (isOff (set_boolValue (stored o c) o)) with (isOff o) in *.
    unfold stored in *.
    destruct (inverse o), c; cbn [flip] in *.
    - (* inverted ON: written as offValue *)
      split.
      + intros H. right. intros Hc. rewrite (Hon Hc) in H. discriminate H.
      + intros [H | H]; [discriminate H |].
        rewrite Hoff; [reflexivity | exact H | left; reflexivity].
    - rewrite Hon by (left; reflexivity). split; auto.
    - rewrite Hon by (left; reflexivity). split; auto.
    - split.
      + intros H. right. intros Hc. rewrite (Hon Hc) in H. discriminate H.
      + intros [H | H]; [discriminate H |].
        rewrite Hoff; [reflexivity | exact H | left; reflexivity]. }
  split; [exact Hiff |].
  intros H. apply Hiff. right. exact H.
Qed.

Lemma update_Command_configuration (o : t) (command : Command) (x : string)
    (o' : t) :
  update_Command o command = Return (x, o') -> sameConfiguration o o'.
Proof.
  intros H.
  assert (Hc : forall c, update_Command o (OnOffCommand c) = Return (x, o') ->
                         sameConfiguration o o').
  { intros c Hc. rewrite update_OnOff in Hc. injection Hc as _ <-.
    repeat split. }
  destruct command as [c | c | y | className].
  - exact (Hc c H).
  - destruct c; [apply (Hc ON) | apply (Hc OFF)]; exact H.
  - destruct (isOn_dec o y) as [Hon | Hn].
    + rewrite (update_String_command_on o y Hon) in H. exact (Hc ON H).
    + destruct (isOff_dec o y) as [Hoff | Hf].
      * rewrite (update_String_command_off o y Hn Hoff) in H. exact (Hc OFF H).
      * rewrite (update_String_command_refused o y Hn Hf) in H. discriminate H.
  - discriminate H.
Qed.

(** A sequence of commands, each applied to the value the one before left;
    a command that throws leaves the value as it was. *)
Fixpoint updates (o : t) (commands : list Command) : t :=
  match commands with
  | [] => o
  | command :: rest =>
      match update_Command o command with
      | Return (_, o') => updates o' rest
      | IllegalArgumentException _ => updates o rest
      end
  end.

Lemma updates_configuration (commands : list Command) :
  forall o : t, sameConfiguration o (updates o commands).
Proof.
  induction commands as [| command rest IH]; intros o; simpl.
  - repeat split.
  - destruct (update_Command o command) as [[x o'] | m] eqn:E.
    + destruct (update_Command_configuration o command x o' E)
        as (H1 & H2 & H3 & H4).
      destruct (IH o') as (K1 & K2 & K3 & K4).
      repeat split; congruence.
    + apply IH.
Qed.

(** Updates change [boolValue] only.  So the item type and the state
    description are fixed when the value is made: a value of a public
    constructor stays a SWITCH whose description is read-only only on
    request, and a value of [createReceiveOnly] stays a CONTACT whose
    description is always read-only; the description never lists options. *)
Theorem configuration_is_fixed :
  forall (on off : option string) (inv : option bool)
         (commands : list Command) (unit : string) (ro : bool),
    sameConfiguration (new3 on off inv) (updates (new3 on off inv) commands)
    /\ channelTypeID (updates new commands) = SWITCH
    /\ channelTypeID (updates (new3 on off inv) commands) = SWITCH
    /\ channelTypeID (updates (createReceiveOnly on off inv) commands)
       = CONTACT
    /\ readOnly (createStateDescription
                   (updates (new3 on off inv) commands) unit ro) = ro
    /\ readOnly (createStateDescription
                   (updates (createReceiveOnly on off inv) commands) unit ro)
       = true
    /\ options (createStateDescription
                  (updates (createReceiveOnly on off inv) commands) unit ro)
       = [].
Proof.
  intros on off inv commands unit ro.
  pose proof (updates_configuration commands new) as (_ & _ & _ & H0).
  pose proof (updates_configuration commands (new3 on off inv)) as H3.
  pose proof (updates_configuration commands (createReceiveOnly on off inv))
    as (_ & _ & _ & Hr).
  split; [exact H3 |]. destruct H3 as (_ & _ & _ & H3).
  unfold channelTypeID, createStateDescription. cbn [readOnly options].
  rewrite H0, H3, Hr. repeat split.
Qed.

End OnOffValueMore.

(** ** ItemController and NumberItemController *)

Module Item.

Import Control.

(** The scope of an item's controller: the item, the edit flag, and the
    commands given to [itemService.sendCommand], each with the item's
    name. *)
Record scope : Type := mkScope {
  item : Control.item;
  editMode : bool;
  sent : list (string * value)
}.

Definition set_item (it : Control.item) (sc : scope) : scope :=
  {| item := it; editMode := editMode sc; sent := sent sc |}.
Definition set_editMode (x : bool) (sc : scope) : scope :=
  {| item := item sc; editMode := x; sent := sent sc |}.

Section Collaborators.

Variable dtoa : Q -> string.
Variable getItemStateText : Control.item -> string.

(** [$scope.sendCommand(command, updateState)] of ItemController. *)
Definition sendCommand (command : value) (updateState : bool) (sc : scope)
  : scope :=
  let sc := {| item := item sc; editMode := editMode sc;
               sent := sent sc ++ [(name (item sc), command)] |} in
  let sc := if updateState then set_item (set_state command (item sc)) sc
            else sc in
  set_item (set_stateText (getItemStateText (item sc)) (item sc)) sc.

Definition editState (sc : scope) : scope := set_editMode true sc.

(** [$scope.updateState()] of ItemController. *)
Definition updateState (sc : scope) : scope :=
  let sc := sendCommand (state (item sc)) false sc in
  set_editMode false sc.

(** [$scope.updateState()] of NumberItemController: the unit, when the item
    has one, is written after the state and a space. *)
Definition Number_updateState (sc : scope) : scope :=
  let state :=
    match unit (item sc) with
    | Some (String c u) =>
        VString (ToString dtoa (state (item sc)) ++ " " ++ String c u)
    | _ => state (item sc)
    end in
  let sc := sendCommand state false sc in
  set_editMode false sc.

End Collaborators.

End Item.

Module ItemFacts.

Import Control Item.

Local Open Scope string_scope.

Section Collaborators.

Variable dtoa : Q -> string.
Variable getItemStateText : Control.item -> string.

Lemma each_fields (it : Control.item) :
  name (each dtoa getItemStateText it) = name it
  /\ (isNumeric it = true ->
      state (each dtoa getItemStateText it) = state (decodeState dtoa it)
      /\ unit (each dtoa getItemStateText it) = unit (decodeState dtoa it))
  /\ (isNumeric it = false ->
      state (each dtoa getItemStateText it) = state it
      /\ unit (each dtoa getItemStateText it) = unit it).
Proof.
  unfold each.
  assert (Hn : name (decodeState dtoa it) = name it).
  { unfold decodeState.
    destruct (0 <? indexOf " " (ToString dtoa (state it)))%Z;
      match goal with
      | |- context [isNaN ?v] => destruct (isNaN v)
      end; reflexivity. }
  destruct (isNumeric it).
  - split; [| split; [| intros H; discriminate H]].
    + destruct (isImage (decodeState dtoa it)); exact Hn.
    + intros _. destruct (isImage (decodeState dtoa it)); split; reflexivity.
  - split; [| split; [intros H; discriminate H |]].
    + destruct (isImage it); reflexivity.
    + intros _. destruct (isImage it); split; reflexivity.
Qed.

(** What [getItems] reads from a state written as an integer, a space and
    a unit. *)
Lemma each_integer_with_unit (it : Control.item) (z : Z) (u : string) :
  isNumeric it = true ->
  state it = VString (Z_to_string z ++ " " ++ u) ->
  state (each dtoa getItemStateText it) = VNumber (toDouble (inject_Z z))
  /\ unit (each dtoa getItemStateText it) = Some u.
Proof.
  intros Hnum Hst.
  destruct (each_fields it) as (_ & Hf & _). destruct (Hf Hnum) as [-> ->].
  clear Hf.
  destruct (DecimalFacts.Z_to_string_clean z) as [_ Hclean].
  assert (Hlen : (0 < String.length (Z_to_string z))%nat).
  { destruct (DecimalFacts.Z_to_string_shape z) as (x & Hne & _ & _ & ->).
    destruct (z <? 0)%Z; [simpl; lia |].
    destruct x; [congruence | simpl; lia]. }
  pose proof (DecimalFacts.indexOf_append " " (Z_to_string z) u Hclean) as Hi.
  change (String " " u) with (" " ++ u) in Hi.
  destruct (ControlFacts.decodeState_cut dtoa it _ Hst) as [Hs Hu].
  { rewrite Hi. lia. }
  rewrite Hs, Hu, Hi.
  change (" " ++ u) with (String " " u).
  rewrite ControlFacts.substring_cut_left, ControlFacts.substring_cut_right.
  unfold ControlFacts.stored.
  rewrite DecimalFacts.Number_ofString_Z_to_string.
  pose proof (NumberFacts.toDouble_inject_Z_number z) as Hn.
  destruct (toDouble (inject_Z z)); [congruence | | |]; split; reflexivity.
Qed.

(** A numeric item read by [getItems] and written back by
    NumberItemController, unedited, gives the wire string it came from: an
    integer, a space and a unit (which may itself hold spaces) are cut into
    number and unit and joined again.  An integer without a unit is sent as
    the number itself.  The integer is at most [2^53] in size: such an
    integer is a double, and JavaScript writes it digit by digit. *)
Theorem numeric_item_round_trip :
  forall (it : Control.item) (z : Z) (c : ascii) (u : string)
         (sc : Item.scope),
    isNumeric it = true ->
    (Z.abs z <= 2 ^ 53)%Z ->
    (state it = VString (Z_to_string z ++ " " ++ String c u) ->
     sent (Number_updateState dtoa getItemStateText
             (set_item (each dtoa getItemStateText it) sc))
     = (sent sc ++ [(name it, VString (Z_to_string z ++ " " ++ String c u))])%list)
    /\ (state it = VString (Z_to_string z) -> unit it = None ->
        sent (Number_updateState dtoa getItemStateText
                (set_item (each dtoa getItemStateText it) sc))
        = (sent sc ++ [(name it, VNumber (Fin (inject_Z z)))])%list).
Proof.
  intros it z c u sc Hnum Hz. split.
  - intros Hst.
    destruct (each_integer_with_unit it z (String c u) Hnum Hst) as [Hs Hu].
    rewrite (NumberFacts.toDouble_integer z Hz) in Hs.
    destruct (each_fields it) as (Hn & _ & _).
    unfold Number_updateState, sendCommand.
    cbn [item set_item sent set_editMode editMode].
    rewrite Hu, Hs, Hn. cbn [ToString].
    rewrite (WritingFacts.Number_toString_integer dtoa z Hz). reflexivity.
  - intros Hst Hunit.
    destruct (each_fields it) as (Hn & Hf & _). destruct (Hf Hnum) as [Es Eu].
    destruct (DecimalFacts.Z_to_string_clean z) as [_ Hclean].
    destruct (ControlFacts.decodeState_whole dtoa it _ Hst) as [Hs Hu].
    { rewrite Hclean. lia. }
    unfold Number_updateState, sendCommand.
    cbn [item set_item sent set_editMode editMode].
    rewrite Eu, Es, Hu, Hs, Hunit, Hn. unfold ControlFacts.stored.
    rewrite DecimalFacts.Number_ofString_Z_to_string.
    rewrite (NumberFacts.toDouble_integer z Hz). reflexivity.
Qed.

End Collaborators.

(** The round trip at a power of 42 W. *)
Lemma numeric_item_round_trip_42_W :
  let it := {| name := "Power"; type := Some "Number:Power";
               groupType := None; state := VString "42 W"; unit := None;
               stateDescription := None; stateText := ""; readOnly := false;
               imageLoaded := None |} in
  sent (Number_updateState (fun _ => "") (fun _ => "")
          (set_item (each (fun _ => "") (fun _ => "") it)
             {| item := it; editMode := true; sent := [] |}))
  = [("Power", VString "42 W")].
Proof.
  exact (proj1 (numeric_item_round_trip (fun _ => "") (fun _ => "")
                  {| name := "Power"; type := Some "Number:Power";
                     groupType := None; state := VString "42 W";
                     unit := None; stateDescription := None; stateText := "";
                     readOnly := false; imageLoaded := None |}
                  42 "W" "" {| item := {| name := "Power";
                                          type := Some "Number:Power";
                                          groupType := None;
                                          state := VString "42 W";
                                          unit := None;
                                          stateDescription := None;
                                          stateText := ""; readOnly := false;
                                          imageLoaded := None |};
                               editMode := true; sent := [] |}
                  eq_refl ltac:(vm_compute; discriminate)) eq_refl).
Defined.

End ItemFacts.

(** ** ColorItemController: the state written and read back *)

Module ColorRoundTrip.

Import Color.

Local Open Scope string_scope.

(** A number with no fraction: an infinity, or an integer that is a
    double. *)
Definition whole (n : number) : Prop :=
  match n with
  | NaN => False
  | PosInfinity | NegInfinity => True
  | Fin q => exists z, q = inject_Z z /\ NumberFacts.isDouble z
  end.

(** [parseInt] gives [NaN] or a number with no fraction. *)
Lemma parseInt_whole (x : string) : parseInt x = NaN \/ whole (parseInt x).
Proof.
  unfold parseInt.
  destruct (takeSign (trimStart x)) as [neg s2].
  match goal with
  | |- context [let '(radix, s3) := ?m in _] => destruct m as [radix s3]
  end.
  destruct (takeDigits radix s3 0 0) as [[v count] rest].
  destruct count; [left; reflexivity | right].
  destruct (NumberFacts.toDouble_inject_Z_cases (signed neg v))
    as [-> | [-> | (r & -> & Hr)]]; cbn [whole]; auto.
  exists r. split; [reflexivity | exact Hr].
Qed.

(** A slider after [setStates]: a number with no fraction, which both
    callbacks send as it is. *)
Definition settled (v : value) : Prop :=
  (exists n, v = VNumber n /\ whole n)
  /\ isNaN v = false
  /\ orZeroString v = v.

Lemma settled_whole (n : number) : whole n -> settled (VNumber n).
Proof.
  intros H. split; [exists n; split; [reflexivity | exact H] |].
  unfold orZeroString, isNaN. cbn [ToNumber].
  destruct n; [destruct H | | |]; split; reflexivity.
Qed.

Lemma settled_zero : settled (num 0).
Proof.
  apply settled_whole. exists 0%Z.
  split; [reflexivity | vm_compute; reflexivity].
Qed.

Lemma orZero_parseInt (x : string) : settled (orZero (VNumber (parseInt x))).
Proof.
  destruct (parseInt_whole x) as [-> | H]; [exact settled_zero |].
  unfold orZero. destruct (truthy (parseInt x));
    [apply settled_whole, H | exact settled_zero].
Qed.

Lemma getStateAsObject_settled (state : string) :
  settled (orZero (h (getStateAsObject state)))
  /\ settled (orZero (s (getStateAsObject state)))
  /\ settled (orZero (b (getStateAsObject state))).
Proof.
  unfold getStateAsObject.
  destruct (List.length (split "," state) =? 3)%nat; cbn [h s b].
  - split; [| split]; apply orZero_parseInt.
  - change (orZero (num 0)) with (num 0).
    split; [| split]; exact settled_zero.
Qed.

(** A one and [n] zeros. *)
Definition oneAndZeros (n : nat) : string :=
  String "1" (string_of_list_ascii (repeat "0"%char n)).

(** After [setStates] each of the three sliders holds a number with no
    fraction, whatever the item's state is: the integer at the front of its
    part of the state, as a double, zero for a part that is not a number, and
    an infinity for an integer from [2^1024] on, as a one and 309 zeros.  It
    is
    never [NaN], so neither callback then falls back to '0'.  The state and
    the pending flag are left alone. *)
Theorem setStates_gives_whole_numbers :
  forall sc : scope,
    settled (hue (setStates sc))
    /\ settled (saturation (setStates sc))
    /\ settled (brightness (setStates sc))
    /\ item_state (setStates sc) = item_state sc
    /\ pending (setStates sc) = pending sc
    /\ (forall state,
          settled (hue (Loop.vars (init state)))
          /\ settled (saturation (Loop.vars (init state)))
          /\ settled (brightness (Loop.vars (init state))))
    /\ hue (Loop.vars (init "120.7,x,-0"))
       = num 120
    /\ saturation (Loop.vars (init "120.7,x,-0")) = num 0
    /\ brightness (Loop.vars (init "120.7,x,-0")) = num 0
    /\ hue (Loop.vars (init (oneAndZeros 309 ++ ",0,0")))
       = VNumber PosInfinity.
Proof.
  intros sc.
  destruct (getStateAsObject_settled (item_state sc)) as (Hh & Hs & Hb).
  split; [exact Hh |]. split; [exact Hs |]. split; [exact Hb |].
  split; [reflexivity |]. split; [reflexivity |]. split.
  - intros state. unfold init. cbn [Loop.vars].
    match goal with
    | |- context [setStates ?x] =>
        destruct (getStateAsObject_settled (item_state x)) as (Kh & Ks & Kb)
    end.
    split; [exact Kh |]. split; [exact Ks | exact Kb].
  - repeat split; vm_compute; reflexivity.
Qed.

Section Rendering.

Variable dtoa : Q -> string.

(** The state that [toState] writes is read back by [getStateAsObject] as the
    three channels rounded up, and written again it is the same string.  The
    channels are finite numbers below [10^21] in size, which are written
    without an exponent; they are doubles, and so are the integers they
    round up to. *)
Theorem toState_getStateAsObject_round_trip :
  forall qh qs qb : Q,
    NumberFacts.isDouble (Qceiling qh) ->
    NumberFacts.isDouble (Qceiling qs) ->
    NumberFacts.isDouble (Qceiling qb) ->
    (Z.abs (Qceiling qh) < 10 ^ 21)%Z ->
    (Z.abs (Qceiling qs) < 10 ^ 21)%Z ->
    (Z.abs (Qceiling qb) < 10 ^ 21)%Z ->
    let o := {| h := VNumber (Fin qh); s := VNumber (Fin qs);
                b := VNumber (Fin qb) |} in
    getStateAsObject (toState dtoa o)
    = {| h := num (Qceiling qh); s := num (Qceiling qs);
         b := num (Qceiling qb) |}
    /\ toState dtoa (getStateAsObject (toState dtoa o)) = toState dtoa o.
Proof.
  intros qh qs qb Dh Ds Db Hh Hs Hb o.
  destruct (WritingFacts.Number_toString_parseInt dtoa _ Dh Hh) as [Ph Ch].
  destruct (WritingFacts.Number_toString_parseInt dtoa _ Ds Hs) as [Ps Cs].
  destruct (WritingFacts.Number_toString_parseInt dtoa _ Db Hb) as [Pb Cb].
  assert (E : getStateAsObject (toState dtoa o)
              = {| h := num (Qceiling qh); s := num (Qceiling qs);
                   b := num (Qceiling qb) |}).
  { unfold o, toState, Math_ceil. cbn [h s b ToNumber].
    rewrite (ColorFacts.getStateAsObject_parts _ _ _ Ch Cs Cb).
    rewrite Ph, Ps, Pb. reflexivity. }
  split; [exact E |]. rewrite E.
  unfold o, toState, Math_ceil, num. cbn [h s b ToNumber].
  rewrite !Qceiling_Z. reflexivity.
Qed.

End Rendering.

(** The round trip at 99.1, 0.5 and 100. *)
Lemma round_trip_99_1 :
  getStateAsObject
    (toState (fun _ => "")
       {| h := VNumber (Fin (991 # 10)); s := VNumber (Fin (1 # 2));
          b := num 100 |})
  = {| h := num 100; s := num 1; b := num 100 |}.
Proof.
  exact (proj1 (toState_getStateAsObject_round_trip (fun _ => "")
                  (991 # 10) (1 # 2) (inject_Z 100)
                  ltac:(vm_compute; reflexivity)
                  ltac:(vm_compute; reflexivity)
                  ltac:(vm_compute; reflexivity)
                  ltac:(vm_compute; reflexivity)
                  ltac:(vm_compute; reflexivity)
                  ltac:(vm_compute; reflexivity))).
Defined.

End ColorRoundTrip.

(** ** Traces: what holds at every moment *)

Module TraceInvariants.

Import Trace.

Local Open Scope string_scope.
Local Open Scope list_scope.
Local Open Scope Z_scope.

(** *** The dimmer *)

(** No timeout is pending and [commandTimeout] is undefined, or one is and
    [commandTimeout] holds its handle. *)
Definition dimmer_ok (w : Dimmer.world) : Prop :=
  (Dimmer.commandTimeout (Loop.vars w) = None
   /\ Timeout.queue (Loop.timers w) = [])
  \/ exists h d c,
       Dimmer.commandTimeout (Loop.vars w) = Some h
       /\ Timeout.queue (Loop.timers w)
          = [{| Timeout.handle := h; Timeout.due := d;
                Timeout.callback := Dimmer.SendLater c |}].

Lemma dimmer_advance_ok (t : Z) (w : Dimmer.world) :
  dimmer_ok w -> dimmer_ok (Dimmer.advance t w).
Proof.
  intros [[Hct Hq] | (h & d & c & Hct & Hq)];
    destruct w as [[st sw ct] [n q] out]; simpl in Hct, Hq; subst ct q;
    unfold Dimmer.advance, Loop.advance; cbn -[Z.leb].
  - left. split; reflexivity.
  - destruct (d <=? t).
    + left. split; reflexivity.
    + right. exists h, d, c. split; reflexivity.
Qed.

Lemma dimmer_handler_ok (now : Z) (a : Dimmer.action) (w : Dimmer.world) :
  dimmer_ok w -> dimmer_ok (Dimmer.handler now a w).
Proof.
  intros Hok. destruct (DimmerFacts.handler_sendCommand now a w) as [sw ->].
  right.
  destruct Hok as [[Hct Hq] | (h & d & c & Hct & Hq)];
    destruct w as [[st sw0 ct] [n q] out]; simpl in Hct, Hq; subst ct q;
    unfold Dimmer.sendCommand; cbn -[Z.add].
  - exists n, (now + 300), (DimmerFacts.command_of a). split; reflexivity.
  - rewrite Nat.eqb_refl. cbn -[Z.add].
    exists n, (now + 300), (DimmerFacts.command_of a). split; reflexivity.
Qed.

Lemma dimmer_run_ok (evs : list (Z * Dimmer.action)) :
  forall w : Dimmer.world, dimmer_ok w -> dimmer_ok (Dimmer.run evs w).
Proof.
  induction evs as [| [t a] rest IH]; intros w Hok; [exact Hok |].
  rewrite DimmerFacts.dimmer_run_cons.
  apply IH, dimmer_handler_ok, dimmer_advance_ok, Hok.
Qed.

(** However the events fall, the rest of a trace leaves the dimmer armed for
    its last command. *)
Lemma dimmer_run_armed (rest : list (Z * Dimmer.action)) :
  forall (now : Z) (a : Dimmer.action) (w : Dimmer.world),
    DimmerFacts.armed now (DimmerFacts.command_of a) w ->
    DimmerFacts.armed (last_time now rest)
      (DimmerFacts.command_of (last_of a rest)) (Dimmer.run rest w).
Proof.
  induction rest as [| [t a'] rest IH]; intros now a w Harm; [exact Harm |].
  rewrite DimmerFacts.dimmer_run_cons.
  cbn [last_time last_of fold_left fst snd].
  fold (last_time t rest). fold (last_of a' rest).
  apply IH. exact (proj1 (DimmerFacts.dimmer_step now t _ a' w Harm)).
Qed.

(** *** The colour sliders *)

Definition color_ok (w : Color.world) : Prop :=
  ColorTrace.idle w \/ exists d cb, ColorTrace.waiting d cb w.

Section Rendering.

Variable dtoa : Q -> string.

Lemma advance_idle (t : Z) (w : Color.world) :
  ColorTrace.idle w -> Color.advance dtoa t w = w.
Proof.
  intros [_ Hq]. destruct w as [sc [n q] out]. simpl in Hq. subst q.
  reflexivity.
Qed.

Lemma color_advance_ok (t : Z) (w : Color.world) :
  color_ok w -> color_ok (Color.advance dtoa t w).
Proof.
  intros [Hi | (d & cb & Hw)].
  - rewrite (advance_idle t w Hi). left. exact Hi.
  - destruct (Z.le_gt_cases d t) as [Hle | Hlt].
    + left. exact (proj1 (ColorTrace.advance_due dtoa t d cb w Hw Hle)).
    + rewrite (ColorTrace.advance_early dtoa t d cb w Hw Hlt).
      right. exists d, cb. exact Hw.
Qed.

Lemma color_handler_ok (now : Z) (a : Color.action) (w : Color.world) :
  color_ok w -> color_ok (Color.handler now a w).
Proof.
  intros [Hi | (d & cb & Hw)]; right.
  - exists (now + 300), (ColorTrace.callback_of a).
    exact (proj1 (ColorTrace.handler_idle now a w Hi)).
  - exists d, cb. destruct Hw as (Hp & h & Hq).
    rewrite (ColorTrace.handler_pending now a w Hp).
    split; [destruct a; exact Hp | exists h; exact Hq].
Qed.

Lemma color_run_ok (evs : list (Z * Color.action)) :
  forall w : Color.world, color_ok w -> color_ok (Color.run dtoa evs w).
Proof.
  induction evs as [| [t a] rest IH]; intros w Hok; [exact Hok |].
  rewrite ColorTrace.color_run_cons.
  apply IH, color_handler_ok, color_advance_ok, Hok.
Qed.

(** At every moment of every trace, at most one timeout is pending in
    either controller, and the controller knows whether one is: in the
    colour controller [pending] is set exactly when one is pending; in the
    dimmer [commandTimeout] is undefined exactly when none is, and otherwise
    holds the handle of the pending one. *)
Theorem at_most_one_timeout :
  forall (state : string) (t : Z),
    (forall evs : list (Z * Color.action),
        let w := Color.advance dtoa t (Color.run dtoa evs (Color.init state)) in
        (List.length (Timeout.queue (Loop.timers w)) <= 1)%nat
        /\ (Color.pending (Loop.vars w) = true <->
            Timeout.queue (Loop.timers w) <> []))
    /\ (forall evs : list (Z * Dimmer.action),
          let w := Dimmer.advance t (Dimmer.run evs (Dimmer.init state)) in
          (List.length (Timeout.queue (Loop.timers w)) <= 1)%nat
          /\ (Dimmer.commandTimeout (Loop.vars w) = None <->
              Timeout.queue (Loop.timers w) = [])
          /\ (forall h, Dimmer.commandTimeout (Loop.vars w) = Some h ->
                exists d c,
                  Timeout.queue (Loop.timers w)
                  = [{| Timeout.handle := h; Timeout.due := d;
                        Timeout.callback := Dimmer.SendLater c |}])).
Proof.
  intros state t. split.
  - intros evs w.
    assert (Hok : color_ok w).
    { apply color_advance_ok, color_run_ok. left. split; reflexivity. }
    destruct Hok as [[Hp Hq] | (d & cb & Hp & h & Hq)]; rewrite Hp, Hq.
    + split; [simpl; lia |]. split; [discriminate | congruence].
    + split; [simpl; lia |]. split; [discriminate | reflexivity].
  - intros evs w.
    assert (Hok : dimmer_ok w).
    { apply dimmer_advance_ok, dimmer_run_ok. left. split; reflexivity. }
    destruct Hok as [[Hct Hq] | (h & d & c & Hct & Hq)]; rewrite Hct, Hq.
    + split; [simpl; lia |]. split; [tauto |]. discriminate.
    + split; [simpl; lia |]. split; [split; discriminate |].
      intros h' E. injection E as <-. exists d, c. reflexivity.
Qed.

(** The rest of a trace of brightness moves, in the order of their times,
    leaves a brightness timeout pending and the last value in the slider. *)
Lemma brightness_run (rest : list (Z * value)) :
  forall (now d : Z) (v : value) (w : Color.world),
    ColorTrace.waiting d Color.BrightnessTimeout w ->
    Color.brightness (Loop.vars w) = v ->
    ordered now rest -> d <= now + 300 ->
    let w' := Color.run dtoa (ColorTrace.brightness_events rest) w in
    exists d',
      ColorTrace.waiting d' Color.BrightnessTimeout w'
      /\ Color.brightness (Loop.vars w') = last_of v rest
      /\ d' <= last_time now rest + 300.
Proof.
  induction rest as [| [t v'] rest IH]; intros now d v w Hw Hv Hord Hd.
  - exists d. split; [exact Hw | split; [exact Hv | exact Hd]].
  - destruct Hord as [Hle Hord].
    cbn [ColorTrace.brightness_events map fst snd].
    fold (ColorTrace.brightness_events rest).
    rewrite ColorTrace.color_run_cons.
    cbn [last_time last_of fold_left fst snd].
    fold (last_time t rest). fold (last_of v' rest).
    destruct (Z.le_gt_cases d t) as [Hdue | Hearly].
    + destruct (ColorTrace.advance_due dtoa t d _ w Hw Hdue) as (Hi & _ & _).
      destruct (ColorTrace.handler_idle t (Color.SetBrightness v') _ Hi)
        as (Hw' & _ & Hvars).
      apply (IH t (t + 300) v' _ Hw'); [| exact Hord | lia].
      rewrite Hvars. reflexivity.
    + rewrite (ColorTrace.advance_early dtoa t d _ w Hw Hearly).
      destruct Hw as (Hp & h & Hq).
      rewrite (ColorTrace.handler_pending t _ w Hp).
      apply (IH t d v'); [| reflexivity | exact Hord | lia].
      split; [exact Hp | exists h; exact Hq].
Qed.

(** The last value is never lost.  In the dimmer, however the submits fall,
    the last command sent is the last one submitted, 300 ms after it.  In the
    colour controller, after brightness moves in the order of their times,
    the last command sent carries the last brightness, at most 300 ms after
    the last move. *)
Theorem last_value_is_sent :
  forall (state : string) (t1 t_end : Z),
    (forall (a1 : Dimmer.action) (rest : list (Z * Dimmer.action)),
        last_time t1 rest + 300 <= t_end ->
        exists earlier,
          Loop.sent
            (Dimmer.advance t_end
               (Dimmer.run ((t1, a1) :: rest) (Dimmer.init state)))
          = earlier ++ [(last_time t1 rest + 300,
                         DimmerFacts.command_of (last_of a1 rest))])
    /\ (forall (v1 : value) (rest : list (Z * value)),
          ordered t1 rest ->
          last_time t1 rest + 300 <= t_end ->
          exists earlier d,
            d <= last_time t1 rest + 300
            /\ Loop.sent
                 (Color.advance dtoa t_end
                    (Color.run dtoa
                       (ColorTrace.brightness_events ((t1, v1) :: rest))
                       (Color.init state)))
               = earlier ++ [(d, Color.orZeroString (last_of v1 rest))]).
Proof.
  intros state t1 t_end. split.
  - intros a1 rest Hend. rewrite DimmerFacts.dimmer_run_cons.
    destruct (DimmerFacts.dimmer_first state t1 a1) as [Harm _].
    pose proof (dimmer_run_armed rest t1 a1 _ Harm) as Ha.
    destruct (DimmerFacts.dimmer_advance _ t_end _ _ Ha) as [[Hc _] | [_ He]];
      [lia |].
    eexists. exact He.
  - intros v1 rest Hord Hend.
    cbn [ColorTrace.brightness_events map fst snd].
    fold (ColorTrace.brightness_events rest).
    rewrite ColorTrace.color_run_cons.
    assert (Hi : ColorTrace.idle (Color.advance dtoa t1 (Color.init state)))
      by (split; reflexivity).
    destruct (ColorTrace.handler_idle t1 (Color.SetBrightness v1) _ Hi)
      as (Hw & _ & Hv).
    destruct (brightness_run rest t1 (t1 + 300) v1 _ Hw) as (d & Hw' & Hb & Hd);
      [rewrite Hv; reflexivity | exact Hord | lia |].
    destruct (ColorTrace.advance_due dtoa t_end d _ _ Hw' ltac:(lia))
      as (_ & _ & Hsent).
    rewrite ColorTrace.fire_brightness, Hb in Hsent.
    eexists. exists d. split; [exact Hd | exact Hsent].
Qed.

(** The sliders as a trace of moves leaves them, with [pending] set. *)
Definition sliders (state : string) (a1 : Color.action)
    (rest : list (Z * Color.action)) : Color.scope :=
  fold_left (fun sc e => ColorTrace.moved (snd e) sc) rest
    (Color.set_pending true
       (ColorTrace.moved a1 (Loop.vars (Color.init state)))).

Lemma color_window_any (d : Z) (cb : Color.callback)
    (rest : list (Z * Color.action)) :
  forall w : Color.world,
    ColorTrace.waiting d cb w ->
    Forall (fun e => fst e < d) rest ->
    let w' := Color.run dtoa rest w in
    ColorTrace.waiting d cb w'
    /\ Loop.vars w'
       = fold_left (fun sc e => ColorTrace.moved (snd e) sc) rest (Loop.vars w)
    /\ Loop.sent w' = Loop.sent w.
Proof.
  induction rest as [| [t a] rest IH]; intros w Hw Hwin.
  - split; [exact Hw | split; reflexivity].
  - inversion Hwin as [| ? ? Ht Hwin']; subst. cbn [fst] in Ht.
    rewrite ColorTrace.color_run_cons.
    rewrite (ColorTrace.advance_early dtoa t d cb w Hw Ht).
    destruct Hw as (Hp & h & Hq).
    rewrite (ColorTrace.handler_pending t a w Hp).
    destruct (IH (Color.set_vars (ColorTrace.moved a (Loop.vars w)) w))
      as (H1 & H2 & H3);
      [split; [destruct a; exact Hp | exists h; exact Hq] | exact Hwin' |].
    split; [exact H1 | split; [exact H2 | exact H3]].
Qed.

Lemma snd_fire (cb : Color.callback) (sc : Color.scope) :
  snd (Color.fire dtoa cb sc)
  = snd (match cb with
         | Color.BrightnessTimeout => Color.brightnessTimeout sc
         | Color.ColorTimeout => Color.colorTimeout dtoa sc
         end).
Proof.
  unfold Color.fire.
  destruct cb;
    [destruct (Color.brightnessTimeout sc)
    | destruct (Color.colorTimeout dtoa sc)]; reflexivity.
Qed.

(** Moves of any of the three sliders within the 300 ms after the first
    send exactly one command, when the window closes, and the first move
    decides which: after a brightness move it is the brightness alone, so
    hue and saturation moves made in the window are not sent; after a hue or
    saturation move it is the colour command of [setColor], computed from
    the three sliders as the moves left them. *)
Theorem one_command_per_window :
  forall (state : string) (t1 : Z) (a1 : Color.action)
         (rest : list (Z * Color.action)) (t_end : Z),
    within_window t1 rest ->
    t1 + 300 <= t_end ->
    let out :=
      Loop.sent
        (Color.advance dtoa t_end
           (Color.run dtoa ((t1, a1) :: rest) (Color.init state))) in
    (forall v, a1 = Color.SetBrightness v ->
       out = [(t1 + 300,
               Color.orZeroString (Color.brightness (sliders state a1 rest)))])
    /\ ((forall v, a1 <> Color.SetBrightness v) ->
        out = Loop.stamp (t1 + 300)
                (snd (Color.colorTimeout dtoa (sliders state a1 rest)))).
Proof.
  intros state t1 a1 rest t_end Hwin Hend out.
  assert (Hout : out = Loop.stamp (t1 + 300)
                         (snd (Color.fire dtoa (ColorTrace.callback_of a1)
                                 (sliders state a1 rest)))).
  { unfold out. rewrite ColorTrace.color_run_cons.
    assert (Hi : ColorTrace.idle (Color.advance dtoa t1 (Color.init state)))
      by (split; reflexivity).
    destruct (ColorTrace.handler_idle t1 a1 _ Hi) as (Hw & Hs & Hv).
    destruct (color_window_any (t1 + 300) _ rest _ Hw) as (H1 & H2 & H3).
    { eapply Forall_impl; [| exact Hwin]. intros e He. simpl in He. lia. }
    destruct (ColorTrace.advance_due dtoa t_end (t1 + 300) _ _ H1 Hend)
      as (_ & _ & Hsent).
    rewrite Hsent, H3, Hs, H2, Hv. reflexivity. }
  rewrite snd_fire in Hout. split.
  - intros v ->. exact Hout.
  - intros Hne. destruct a1 as [v | v | v]; [destruct (Hne v eq_refl) | |];
      exact Hout.
Qed.

End Rendering.

(** A brightness move at 0, then hue and saturation moves at 100 and 200:
    the brightness alone is sent. *)
Lemma one_command_per_window_example :
  Loop.sent
    (Color.advance (fun _ => "") 1000
       (Color.run (fun _ => "")
          [(0, Color.SetBrightness (num 70)); (100, Color.SetHue (num 200));
           (200, Color.SetSaturation (num 50))]
          (Color.init "120,80,100")))
  = [(300, num 70)].
Proof.
  exact (proj1 (one_command_per_window (fun _ => "") "120,80,100" 0
                  (Color.SetBrightness (num 70))
                  [(100, Color.SetHue (num 200));
                   (200, Color.SetSaturation (num 50))] 1000
                  ltac:(repeat constructor; cbn; lia) ltac:(lia))
           (num 70) eq_refl).
Defined.

End TraceInvariants.

(** ** Coalescing: what goes out for the submissions of one window *)

Module Coalescing.

Import Trace.

Local Open Scope string_scope.
Local Open Scope list_scope.
Local Open Scope Z_scope.

(** Brightness moves of the dimmer. *)
Definition dimmer_moves (evs : list (Z * value)) : list (Z * Dimmer.action) :=
  map (fun e => (fst e, Dimmer.SetBrightness (snd e))) evs.

(** Moving a slider to the value it holds changes nothing. *)
Lemma moved_twice (a : Color.action) (sc : Color.scope) :
  ColorTrace.moved a (ColorTrace.moved a sc) = ColorTrace.moved a sc.
Proof. destruct a; reflexivity. Qed.

(** After the moves of a trace, the slider that was moved last holds the
    last value. *)
Lemma last_move_stays (rest : list (Z * Color.action)) :
  forall (a0 : Color.action) (sc0 : Color.scope),
    ColorTrace.moved a0 sc0 = sc0 ->
    let sc := fold_left (fun sc e => ColorTrace.moved (snd e) sc) rest sc0 in
    ColorTrace.moved (last_of a0 rest) sc = sc.
Proof.
  induction rest as [| [t a] rest IH]; intros a0 sc0 H0; [exact H0 |].
  cbn [fold_left last_of snd]. fold (last_of a rest).
  apply IH. apply moved_twice.
Qed.

Lemma moves_keep_state (rest : list (Z * Color.action)) :
  forall sc0 : Color.scope,
    Color.item_state
      (fold_left (fun sc e => ColorTrace.moved (snd e) sc) rest sc0)
    = Color.item_state sc0.
Proof.
  induction rest as [| [t a] rest IH]; intros sc0; [reflexivity |].
  cbn [fold_left snd]. rewrite IH. destruct a; reflexivity.
Qed.

Lemma sliders_state (state : string) (a1 : Color.action)
    (rest : list (Z * Color.action)) :
  Color.isUninitialized
    (Color.item_state (TraceInvariants.sliders state a1 rest))
  = Color.isUninitialized state.
Proof.
  unfold TraceInvariants.sliders. rewrite moves_keep_state.
  assert (E : Color.item_state
                (Color.set_pending true
                   (ColorTrace.moved a1 (Loop.vars (Color.init state))))
              = if String.eqb state "UNDEF" || String.eqb state "NULL"
                then "-" else state).
  { destruct a1; reflexivity. }
  rewrite E. unfold Color.isUninitialized.
  destruct (String.eqb state "UNDEF") eqn:E1;
    [apply String.eqb_eq in E1; subst state; reflexivity |].
  destruct (String.eqb state "NULL") eqn:E2;
    [apply String.eqb_eq in E2; subst state; reflexivity |].
  cbn [orb]. rewrite E1, E2. reflexivity.
Qed.

Section Rendering.

Variable dtoa : Q -> string.

(** What goes out for the moves of one window: the output of the callback
    that the first move registered, run on the sliders as the moves left
    them. *)
Lemma window_output (state : string) (t1 : Z) (a1 : Color.action)
    (rest : list (Z * Color.action)) (t_end : Z) :
  within_window t1 rest ->
  t1 + 300 <= t_end ->
  Loop.sent
    (Color.advance dtoa t_end
       (Color.run dtoa ((t1, a1) :: rest) (Color.init state)))
  = Loop.stamp (t1 + 300)
      (snd (match ColorTrace.callback_of a1 with
            | Color.BrightnessTimeout =>
                Color.brightnessTimeout
                  (TraceInvariants.sliders state a1 rest)
            | Color.ColorTimeout =>
                Color.colorTimeout dtoa
                  (TraceInvariants.sliders state a1 rest)
            end)).
Proof.
  intros Hwin Hend. rewrite <- TraceInvariants.snd_fire.
  rewrite ColorTrace.color_run_cons.
  assert (Hi : ColorTrace.idle (Color.advance dtoa t1 (Color.init state)))
    by (split; reflexivity).
  destruct (ColorTrace.handler_idle t1 a1 _ Hi) as (Hw & Hs & Hv).
  destruct (TraceInvariants.color_window_any dtoa (t1 + 300) _ rest _ Hw)
    as (H1 & H2 & H3).
  { eapply Forall_impl; [| exact Hwin]. intros e He. simpl in He. lia. }
  destruct (ColorTrace.advance_due dtoa t_end (t1 + 300) _ _ H1 Hend)
    as (_ & _ & Hsent).
  rewrite Hsent, H3, Hs, H2, Hv. reflexivity.
Qed.

(** The colour command over a state that is a colour. *)
Lemma colorTimeout_initialized (sc : Color.scope) :
  Color.isUninitialized (Color.item_state sc) = false ->
  snd (Color.colorTimeout dtoa sc)
  = [VString
       (Color.toState dtoa
          {| Color.h := Color.orZeroString (Color.hue sc);
             Color.s := Color.orZeroString (Color.saturation sc);
             Color.b := Color.orZeroString (Color.brightness sc) |})].
Proof. intros H. unfold Color.colorTimeout. rewrite H. reflexivity. Qed.

Lemma colorTimeout_forced (sc : Color.scope) :
  Color.isUninitialized (Color.item_state sc) = true ->
  snd (Color.colorTimeout dtoa sc)
  = [VString
       (Number_toString dtoa (Math_ceil (Color.orZeroString (Color.hue sc)))
        ++ ",100,100")].
Proof. intros H. unfold Color.colorTimeout. rewrite H. reflexivity. Qed.

End Rendering.

(** C2 (as amended): submissions that all fall within the 300 ms after the
    first send exactly one command, and nothing else however long one waits.
    The dimmer, which restarts its window at each submission, sends the last
    command submitted, 300 ms after the last submission.  The colour
    controller sends its command when the window of the first submission
    closes: after brightness moves alone, the last brightness (or '0' when
    it is not a number); after a first move of the hue or the saturation,
    whatever sliders are moved then, the colour written from the three
    sliders as the moves left them, the one moved last holding the last value
    submitted; over a state that is UNDEF, NULL or a dash that colour has 100
    for saturation and brightness. *)
Theorem C2_coalescing :
  forall dtoa : Q -> string,
    (forall (state : string) (t1 : Z) (a1 : Dimmer.action)
            (rest : list (Z * Dimmer.action)) (t_end : Z),
        within_window t1 rest ->
        last_time t1 rest + 300 <= t_end ->
        Loop.sent
          (Dimmer.advance t_end
             (Dimmer.run ((t1, a1) :: rest) (Dimmer.init state)))
        = [(last_time t1 rest + 300,
            DimmerFacts.command_of (last_of a1 rest))])
    /\ (forall (state : string) (t1 : Z) (v1 : value)
               (rest : list (Z * value)) (t_end : Z),
          within_window t1 rest ->
          t1 + 300 <= t_end ->
          Loop.sent
            (Color.advance dtoa t_end
               (Color.run dtoa
                  (ColorTrace.brightness_events ((t1, v1) :: rest))
                  (Color.init state)))
          = [(t1 + 300, Color.orZeroString (last_of v1 rest))])
    /\ (forall (state : string) (t1 : Z) (a1 : Color.action)
               (rest : list (Z * Color.action)) (t_end : Z),
          (forall v, a1 <> Color.SetBrightness v) ->
          within_window t1 rest ->
          t1 + 300 <= t_end ->
          let sc := TraceInvariants.sliders state a1 rest in
          let out :=
            Loop.sent
              (Color.advance dtoa t_end
                 (Color.run dtoa ((t1, a1) :: rest) (Color.init state))) in
          ColorTrace.moved (last_of a1 rest) sc = sc
          /\ (Color.isUninitialized state = false ->
              out = [(t1 + 300,
                      VString
                        (Color.toState dtoa
                           {| Color.h := Color.orZeroString (Color.hue sc);
                              Color.s :=
                                Color.orZeroString (Color.saturation sc);
                              Color.b :=
                                Color.orZeroString (Color.brightness sc) |}))])
          /\ (Color.isUninitialized state = true ->
              out = [(t1 + 300,
                      VString
                        (Number_toString dtoa
                           (Math_ceil (Color.orZeroString (Color.hue sc)))
                         ++ ",100,100"))])).
Proof.
  intros dtoa. split; [| split].
  - intros state t1 a1 rest t_end Hwin Hend.
    exact (DimmerFacts.dimmer_coalesce state t1 a1 rest t_end Hwin Hend).
  - intros state t1 v1 rest t_end Hwin Hend.
    exact (ColorTrace.color_coalesce dtoa state t1 v1 rest t_end Hwin Hend).
  - intros state t1 a1 rest t_end Hfirst Hwin Hend sc out.
    assert (Hout : out = Loop.stamp (t1 + 300)
                           (snd (Color.colorTimeout dtoa sc))).
    { unfold out. rewrite (window_output dtoa state t1 a1 rest t_end Hwin Hend).
      destruct a1 as [v | v | v]; [destruct (Hfirst v eq_refl) | |];
        reflexivity. }
    pose proof (sliders_state state a1 rest) as Hstate. fold sc in Hstate.
    split; [| split].
    + unfold sc, TraceInvariants.sliders. apply last_move_stays.
      destruct a1; reflexivity.
    + intros Hinit. rewrite Hout, colorTimeout_initialized by congruence.
      reflexivity.
    + intros Hinit. rewrite Hout, colorTimeout_forced by congruence.
      reflexivity.
Qed.

(** C2 at the submissions of the specification, 5, 12 and 9 within one
    window: the dimmer and the brightness slider of a colour item send 9
    alone; and hue 10, brightness 60 and hue 200 send the colour with hue 200
    and brightness 60. *)
Lemma C2_coalescing_5_12_9 :
  (within_window 0 [(100, Dimmer.SetBrightness (num 12));
                    (200, Dimmer.SetBrightness (num 9))]
   /\ within_window 0 [(100, num 12); (200, num 9)]
   /\ within_window 0 [(100, Color.SetBrightness (num 60));
                       (200, Color.SetHue (num 200))])
  /\ Loop.sent
       (Dimmer.advance 500
          (Dimmer.run (dimmer_moves [(0, num 5); (100, num 12); (200, num 9)])
             (Dimmer.init "40")))
     = [(500, num 9)]
  /\ Loop.sent
       (Color.advance (fun _ => "") 300
          (Color.run (fun _ => "")
             (ColorTrace.brightness_events
                [(0, num 5); (100, num 12); (200, num 9)])
             (Color.init "120,80,100")))
     = [(300, num 9)]
  /\ Loop.sent
       (Color.advance (fun _ => "") 300
          (Color.run (fun _ => "")
             [(0, Color.SetHue (num 10)); (100, Color.SetBrightness (num 60));
              (200, Color.SetHue (num 200))]
             (Color.init "120,80,100")))
     = [(300, VString "200,80,60")].
Proof.
  assert (H1 : within_window 0 [(100, Dimmer.SetBrightness (num 12));
                                (200, Dimmer.SetBrightness (num 9))]).
  { repeat constructor; cbn; lia. }
  assert (H2 : within_window 0 [(100, num 12); (200, num 9)]).
  { repeat constructor; cbn; lia. }
  assert (H3 : within_window 0 [(100, Color.SetBrightness (num 60));
                                (200, Color.SetHue (num 200))]).
  { repeat constructor; cbn; lia. }
  split; [split; [exact H1 | split; [exact H2 | exact H3]] |].
  destruct (C2_coalescing (fun _ => "")) as (Hd & Hb & Hc).
  split; [| split].
  - exact (Hd "40" 0 (Dimmer.SetBrightness (num 5))
             [(100, Dimmer.SetBrightness (num 12));
              (200, Dimmer.SetBrightness (num 9))] 500 H1 ltac:(cbn; lia)).
  - exact (Hb "120,80,100" 0 (num 5) [(100, num 12); (200, num 9)] 300 H2
             ltac:(lia)).
  - destruct (Hc "120,80,100" 0 (Color.SetHue (num 10))
                [(100, Color.SetBrightness (num 60));
                 (200, Color.SetHue (num 200))] 300
                ltac:(intros v; discriminate) H3 ltac:(lia))
      as (_ & Hinit & _).
    exact (Hinit eq_refl).
Defined.

(** C2, where the claim fails.  Over a state that is a dash, a move of the
    saturation slider to 50 sends "0,100,100": not the value submitted.  A
    move of the brightness slider to 70, then of the hue to 200 and of the
    saturation to 50, all within 300 ms, sends 70 alone, and nothing more
    however long one waits: not the value submitted last.  And the dimmer
    sends nothing when the 300 ms of the first of three submissions are
    over: the one command goes out 300 ms after the last. *)
Lemma C2_last_value_not_sent :
  Loop.sent
    (Color.advance (fun _ => "") 10000
       (Color.run (fun _ => "") [(0, Color.SetSaturation (num 50))]
          (Color.init "-")))
  = [(300, VString "0,100,100")]
  /\ Loop.sent
       (Color.advance (fun _ => "") 10000
          (Color.run (fun _ => "")
             [(0, Color.SetBrightness (num 70)); (100, Color.SetHue (num 200));
              (200, Color.SetSaturation (num 50))]
             (Color.init "120,80,100")))
     = [(300, num 70)]
  /\ Loop.sent
       (Dimmer.advance 300
          (Dimmer.run (dimmer_moves [(0, num 5); (100, num 12); (200, num 9)])
             (Dimmer.init "40")))
     = []
  /\ Loop.sent
       (Dimmer.advance 10000
          (Dimmer.run (dimmer_moves [(0, num 5); (100, num 12); (200, num 9)])
             (Dimmer.init "40")))
     = [(500, num 9)].
Proof. repeat split; vm_compute; reflexivity. Qed.

End Coalescing.

(** ** PlayerItemController: commands counted against presses *)

Module PlayerCounts.

Import Player.

Local Open Scope string_scope.
Local Open Scope list_scope.

(** A tap command or the PLAY that follows a hold: what a release sends. *)
Definition isRelease (e : Z * value) : bool :=
  match snd e with
  | VString x =>
      String.eqb x "PREVIOUS" || String.eqb x "NEXT" || String.eqb x "PLAY"
  | _ => false
  end.

(** A hold command. *)
Definition isHold (e : Z * value) : bool :=
  match snd e with
  | VString x => String.eqb x "REWIND" || String.eqb x "FASTFORWARD"
  | _ => false
  end.

Definition isSettle (tm : Timeout.timer callback) : bool :=
  match Timeout.callback tm with
  | Settle => true
  | _ => false
  end.

Definition isUp (e : Z * action) : bool :=
  match snd e with
  | PrevUp | NextUp => true
  | _ => false
  end.

Definition number {A : Type} (f : A -> bool) (l : list A) : nat :=
  List.length (filter f l).

Lemma number_app {A : Type} (f : A -> bool) (l l' : list A) :
  number f (l ++ l') = (number f l + number f l')%nat.
Proof. unfold number. rewrite filter_app, length_app. reflexivity. Qed.

Lemma number_enqueue (f : Timeout.timer callback -> bool)
    (tm : Timeout.timer callback) (q : list (Timeout.timer callback)) :
  number f (Timeout.enqueue tm q) = number f (tm :: q).
Proof.
  induction q as [| x q' IH]; [reflexivity |].
  cbn [Timeout.enqueue]. destruct (Timeout.due x <=? Timeout.due tm)%Z;
    [| reflexivity].
  unfold number in *. cbn [filter] in *.
  destruct (f x), (f tm); cbn [List.length] in *; lia.
Qed.

(** Letting time pass turns each pending PLAY into one PLAY sent, each
    pending hold into at most one hold command, and sends nothing else. *)
Lemma run_due_counts (t : Z) (q : list (Timeout.timer callback)) :
  forall (v : scope) (out : list (Z * value)),
    let r := Loop.run_due fire t q v out in
    (number isRelease (snd r) + number isSettle (fst (fst r))
     = number isRelease out + number isSettle q)%nat
    /\ (number isHold (snd r) + number (fun tm => negb (isSettle tm)) (fst (fst r))
        <= number isHold out + number (fun tm => negb (isSettle tm)) q)%nat.
Proof.
  induction q as [| tm q' IH]; intros v out; cbn [Loop.run_due].
  - cbn [fst snd]. split; lia.
  - destruct (Timeout.due tm <=? t)%Z; [| cbn [fst snd]; split; lia].
    destruct tm as [h d cb].
    cbn [Timeout.callback Timeout.due].
    destruct cb; cbn [fire];
      try (destruct (notInterrupted v));
      match goal with
      | |- context [Loop.run_due fire t q' ?v' ?out'] =>
          destruct (IH v' out') as [H1 H2];
          remember (Loop.run_due fire t q' v' out') as r eqn:Er; clear Er
      end;
      rewrite ?number_app in H1, H2;
      unfold number in *; cbn in H1, H2 |- *; split; lia.
Qed.

Lemma advance_counts (t : Z) (w : world) :
  (number isRelease (Loop.sent (advance t w))
   + number isSettle (Timeout.queue (Loop.timers (advance t w)))
   = number isRelease (Loop.sent w)
     + number isSettle (Timeout.queue (Loop.timers w)))%nat
  /\ (number isHold (Loop.sent (advance t w))
      + number (fun tm => negb (isSettle tm))
          (Timeout.queue (Loop.timers (advance t w)))
      <= number isHold (Loop.sent w)
         + number (fun tm => negb (isSettle tm))
             (Timeout.queue (Loop.timers w)))%nat.
Proof.
  pose proof (run_due_counts t (Timeout.queue (Loop.timers w)) (Loop.vars w)
                (Loop.sent w)) as H.
  unfold advance, Loop.advance.
  destruct (Loop.run_due fire t (Timeout.queue (Loop.timers w)) (Loop.vars w)
              (Loop.sent w)) as [[q v] out].
  exact H.
Qed.

Lemma handler_counts (now : Z) (a : action) (w : world) :
  (number isRelease (Loop.sent (handler now a w))
   + number isSettle (Timeout.queue (Loop.timers (handler now a w)))
   = number isRelease (Loop.sent w)
     + number isSettle (Timeout.queue (Loop.timers w))
     + number isUp [(now, a)])%nat
  /\ (number isHold (Loop.sent (handler now a w))
      + number (fun tm => negb (isSettle tm))
          (Timeout.queue (Loop.timers (handler now a w)))
      = number isHold (Loop.sent w)
        + number (fun tm => negb (isSettle tm))
            (Timeout.queue (Loop.timers w))
        + number (fun e => negb (isUp e)) [(now, a)])%nat.
Proof.
  destruct w as [v [n q] out].
  destruct a; unfold handler, onPrevDown, onPrevUp, onNextDown, onNextUp,
    onDown, onUp, scope_sendCommand;
    try (destruct (withinThreshold _ now));
    cbn [Loop.vars Loop.timers Loop.sent Timeout.start Timeout.queue
         Timeout.next_handle];
    rewrite ?number_app, ?number_enqueue;
    unfold number; cbn; split; lia.
Qed.

Lemma run_counts (evs : list (Z * action)) :
  forall w : world,
    (number isRelease (Loop.sent (run evs w))
     + number isSettle (Timeout.queue (Loop.timers (run evs w)))
     = number isRelease (Loop.sent w)
       + number isSettle (Timeout.queue (Loop.timers w))
       + number isUp evs)%nat
    /\ (number isHold (Loop.sent (run evs w))
        + number (fun tm => negb (isSettle tm))
            (Timeout.queue (Loop.timers (run evs w)))
        <= number isHold (Loop.sent w)
           + number (fun tm => negb (isSettle tm))
               (Timeout.queue (Loop.timers w))
           + number (fun e => negb (isUp e)) evs)%nat.
Proof.
  induction evs as [| [t a] rest IH]; intros w.
  - change (run [] w) with w.
    change (number isUp []) with 0%nat.
    change (number (fun e : Z * action => negb (isUp e)) []) with 0%nat.
    split; lia.
  - rewrite PlayerFacts.player_run_cons.
    destruct (IH (handler t a (advance t w))) as [H1 H2].
    destruct (handler_counts t a (advance t w)) as [K1 K2].
    destruct (advance_counts t w) as [A1 A2].
    change ((t, a) :: rest) with ([(t, a)] ++ rest).
    rewrite !number_app. split; lia.
Qed.

(** Whatever the user does with the two buttons, every release accounts for
    exactly one command, a tap or a PLAY, sent or still to be sent by a
    pending timeout, and a press for at most one hold command.  So once no
    timeout is pending, as many tap and PLAY commands have been sent as
    there were releases, and at most as many hold commands as presses. *)
Theorem releases_and_presses_counted :
  forall (evs : list (Z * action)) (t : Z),
    let w := advance t (run evs init) in
    (number isRelease (Loop.sent w)
     + number isSettle (Timeout.queue (Loop.timers w))
     = number isUp evs)%nat
    /\ (number isHold (Loop.sent w) <= number (fun e => negb (isUp e)) evs)%nat
    /\ (Timeout.queue (Loop.timers w) = [] ->
        number isRelease (Loop.sent w) = number isUp evs).
Proof.
  intros evs t w.
  destruct (run_counts evs init) as [H1 H2].
  destruct (advance_counts t (run evs init)) as [A1 A2].
  fold w in A1, A2.
  change (number isRelease (Loop.sent init)) with 0%nat in H1.
  change (number isSettle (Timeout.queue (Loop.timers init))) with 0%nat in H1.
  change (number isHold (Loop.sent init)) with 0%nat in H2.
  change (number (fun tm => negb (isSettle tm))
            (Timeout.queue (Loop.timers init))) with 0%nat in H2.
  split; [lia | split; [lia |]].
  intros Hq. rewrite Hq in A1. change (number isSettle []) with 0%nat in A1.
  lia.
Qed.

End PlayerCounts.

(** ** ControlPageController and ControlController: tabs and things *)

Module Pages.

(** [name.replace(/_/g, ' ')]. *)
Fixpoint getItemName (itemName : string) : string :=
  match itemName with
  | EmptyString => EmptyString
  | String c rest =>
      String (if Ascii.eqb c "_" then " "%char else c) (getItemName rest)
  end.

(** A channel of a thing, as [thingConfigService.getThingChannels] lists it
    in its group, with the items [renderThing] attaches. *)
Record channel : Type := mkChannel {
  linkedItems : list string;
  items : list Control.item
}.

Record channelGroup : Type := mkChannelGroup { channels : list channel }.

(** A thing: its location (which may be undefined), its label, and the
    channel groups that [renderThing] stores in it. *)
Record thing : Type := mkThing {
  location : option string;
  label : string;
  thingChannels : list channelGroup
}.

Record tab : Type := mkTab { name : string; hasThings : bool }.

(** [new Set()] filled in order, then [Array.from]: each value once, at the
    place of its first occurrence. *)
Fixpoint distinct (seen : list string) (l : list string) : list string :=
  match l with
  | [] => []
  | x :: rest =>
      if existsb (String.eqb x) seen then distinct seen rest
      else x :: distinct (x :: seen) rest
  end.

(** [Array.prototype.sort] as a stable insertion sort.  On values that the
    comparison orders consistently, as it does the distinct names of
    [getTabs], every conforming sort gives this result. *)
Fixpoint insert (compare : string -> string -> Z) (x : string)
    (sorted : list string) : list string :=
  match sorted with
  | [] => [x]
  | y :: rest =>
      if compare x y <? 0 then x :: sorted
      else y :: insert compare x rest
  end.

Definition sort (compare : string -> string -> Z) (l : list string)
  : list string :=
  fold_left (fun sorted x => insert compare x sorted) l [].

(** The position of the first tab of a name, as [find] and [indexOf] give
    it. *)
Fixpoint indexOfTab (wanted : string) (tabs : list tab) : option nat :=
  match tabs with
  | [] => None
  | t :: rest =>
      if String.eqb (name t) wanted then Some O
      else option_map S (indexOfTab wanted rest)
  end.

Section Strings.

(** [s.toUpperCase()]: the upper case of every letter of Unicode, which can
    be longer than the string.  It is a parameter of the development. *)
Variable toUpperCase : string -> string.

(** [a < b] on strings: the order of the engine, character by character.  It
    is a parameter of the development. *)
Variable lessThan : string -> string -> bool.

(** [thing.location ? thing.location.toUpperCase() : 'OTHER']: an undefined
    or empty location counts as OTHER. *)
Definition locationOf (th : thing) : string :=
  match location th with
  | Some (String c rest) => toUpperCase (String c rest)
  | _ => "OTHER"%string
  end.

(** What the loop of [getTabs] does to a thing. *)
Definition relocate (th : thing) : thing :=
  {| location := Some (locationOf th);
     label := label th;
     thingChannels := thingChannels th |}.

(** The function given to [sort] in [getTabs]. *)
Definition compareTabs (a b : string) : Z :=
  if String.eqb a "OTHER" then 1
  else if String.eqb b "OTHER" then -1
  else if lessThan a b then -1
  else if lessThan b a then 1
  else 0.

(** [getTabs(things)]: the tabs, and the things with their locations
    rewritten.  [None] is an undefined or null list. *)
Definition getTabs (things : option (list thing)) : list tab * list thing :=
  match things with
  | None => ([], [])
  | Some things =>
      let things' := map relocate things in
      let locations := distinct [] (map locationOf things) in
      let renderedTabs := sort compareTabs locations in
      (map (fun location => {| name := location; hasThings := false |})
         renderedTabs,
       things')
  end.

(** The index [renderTabs] selects for the tab named in the route: the first
    tab of that name in upper case, or the first tab when there is none of
    that name.  When the route names no tab ([None], or the empty string) no
    index is set. *)
Definition selectedTabIndex (tabs : list tab) (selectedTabName : option string)
  : option nat :=
  match selectedTabName with
  | Some (String c rest) =>
      match indexOfTab (toUpperCase (String c rest)) tabs with
      | Some i => Some i
      | None => Some O
      end
  | _ => None
  end.

(** The things [renderItems] keeps for a tab. *)
Definition thingsForTab (t : tab) (things : list thing) : list thing :=
  filter (fun th => String.eqb (locationOf th) (name t)) things.

End Strings.

Section Collaborators.

Variable dtoa : Q -> string.
Variable getItemStateText : Control.item -> string.

(** [$scope.data.items]. *)
Variable data_items : list Control.item.

(** [renderThing] on a thing whose channel groups are those that
    [thingConfigService.getThingChannels] returned: channels without linked
    items are dropped, the others get their items, and the thing is returned
    only when a channel is left. *)
Definition renderThing (th : thing) : option thing :=
  let groups :=
    map (fun g =>
           {| channels :=
                filter (fun ch => negb (Nat.eqb (List.length (linkedItems ch)) 0))
                  (channels g) |})
      (thingChannels th) in
  let groups :=
    map (fun g =>
           {| channels :=
                map (fun ch =>
                       {| linkedItems := linkedItems ch;
                          items := Control.getItems dtoa getItemStateText
                                     data_items (linkedItems ch) |})
                  (channels g) |})
      groups in
  let hasChannels :=
    existsb (fun g => negb (Nat.eqb (List.length (channels g)) 0)) groups in
  if hasChannels
  then Some {| location := location th; label := label th;
               thingChannels := groups |}
  else None.

End Collaborators.

End Pages.

Module PagesFacts.

Import Pages.

Local Open Scope string_scope.
Local Open Scope list_scope.
Local Open Scope Z_scope.

(** *** Sets of names *)

Lemma distinct_spec (l : list string) :
  forall seen : list string,
    NoDup (distinct seen l)
    /\ (forall x, In x (distinct seen l) <-> In x l /\ ~ In x seen).
Proof.
  induction l as [| y rest IH]; intros seen; cbn [distinct].
  - split; [constructor |]. intros x. cbn. tauto.
  - destruct (existsb (String.eqb y) seen) eqn:E.
    + destruct (IH seen) as [H1 H2]. split; [exact H1 |].
      intros x. rewrite H2. cbn [In].
      apply existsb_exists in E. destruct E as (z & Hz & Ez).
      apply String.eqb_eq in Ez. subst z.
      split; [tauto |]. intros [[<- | H] Hn]; [contradiction | tauto].
    + assert (Hy : ~ In y seen).
      { intros H. assert (existsb (String.eqb y) seen = true) as K.
        { apply existsb_exists. exists y. split; [exact H | apply String.eqb_refl]. }
        congruence. }
      destruct (IH (y :: seen)) as [H1 H2]. split.
      * constructor; [| exact H1]. rewrite H2. cbn [In]. tauto.
      * intros x. cbn [In]. rewrite H2. cbn [In].
        destruct (String.eqb_spec y x) as [-> | Hne]; tauto.
Qed.

Lemma filter_one (x : string) (l : list string) :
  NoDup l -> In x l -> List.length (filter (String.eqb x) l) = 1%nat.
Proof.
  intros Hnd. induction Hnd as [| y rest Hy Hnd IH]; intros Hin; [destruct Hin |].
  cbn [filter]. destruct (String.eqb_spec x y) as [-> | Hne].
  - cbn [List.length]. f_equal.
    assert (H : filter (String.eqb y) rest = []); [| rewrite H; reflexivity].
    clear IH Hin Hnd. induction rest as [| z rest IH]; [reflexivity |].
    cbn [filter]. destruct (String.eqb_spec y z) as [-> | _].
    + exfalso. apply Hy. left. reflexivity.
    + apply IH. intros H. apply Hy. right. exact H.
  - destruct Hin as [-> | Hin]; [congruence | exact (IH Hin)].
Qed.

Lemma indexOfTab_found (wanted : string) (tabs : list tab) :
  In wanted (map name tabs) ->
  exists i t,
    indexOfTab wanted tabs = Some i /\ nth_error tabs i = Some t
    /\ name t = wanted.
Proof.
  induction tabs as [| t rest IH]; intros Hin; [destruct Hin |].
  cbn [indexOfTab]. destruct (String.eqb_spec (name t) wanted) as [E | Hne].
  - exists O, t. repeat split. exact E.
  - destruct Hin as [E | Hin]; [congruence |].
    destruct (IH Hin) as (i & t' & Hi & Hn & E). rewrite Hi.
    exists (S i), t'. repeat split; assumption.
Qed.

Section Strings.

Variable toUpperCase : string -> string.
Variable lessThan : string -> string -> bool.

Abbreviation locationOf := (Pages.locationOf toUpperCase).
Abbreviation relocate := (Pages.relocate toUpperCase).
Abbreviation compareTabs := (Pages.compareTabs lessThan).
Abbreviation getTabs := (Pages.getTabs toUpperCase lessThan).
Abbreviation selectedTabIndex := (Pages.selectedTabIndex toUpperCase).
Abbreviation thingsForTab := (Pages.thingsForTab toUpperCase).

(** [compareTabs a b] is negative exactly when [a] is not OTHER and [b] is
    OTHER or a later string. *)
Lemma compareTabs_negative (a b : string) :
  compareTabs a b < 0 <->
  a <> "OTHER" /\ (b = "OTHER" \/ lessThan a b = true).
Proof.
  unfold Pages.compareTabs.
  destruct (String.eqb_spec a "OTHER") as [-> | Ha].
  - split; [lia | intros [H _]; congruence].
  - destruct (String.eqb_spec b "OTHER") as [-> | Hb].
    + split; [auto | lia].
    + destruct (lessThan a b) eqn:E.
      * split; [auto | lia].
      * split.
        -- destruct (lessThan b a); lia.
        -- intros [_ [H | H]]; congruence.
Qed.

Lemma names_of_tabs (things : list thing) :
  map name (fst (getTabs (Some things)))
  = sort compareTabs (distinct [] (map locationOf things)).
Proof.
  cbn [Pages.getTabs fst]. rewrite map_map. cbn [name]. apply map_id.
Qed.

Lemma insert_perm (x : string) (l : list string) :
  Permutation (insert compareTabs x l) (x :: l).
Proof.
  induction l as [| y rest IH]; cbn [insert]; [reflexivity |].
  destruct (compareTabs x y <? 0); [reflexivity |].
  rewrite IH. apply perm_swap.
Qed.

Lemma sort_perm_from (l : list string) :
  forall acc : list string,
    Permutation (fold_left (fun s x => insert compareTabs x s) l acc)
      (l ++ acc).
Proof.
  induction l as [| x rest IH]; intros acc; cbn [fold_left app];
    [reflexivity |].
  rewrite IH, (insert_perm x acc). symmetry. apply Permutation_middle.
Qed.

(** Sorting keeps each name, once. *)
Lemma sort_perm (l : list string) : Permutation (sort compareTabs l) l.
Proof.
  unfold sort. rewrite sort_perm_from, app_nil_r. reflexivity.
Qed.

(** The names of the tabs are the locations of the things, each once. *)
Lemma tab_names (things : list thing) :
  NoDup (map name (fst (getTabs (Some things))))
  /\ (forall n, In n (map name (fst (getTabs (Some things)))) <->
                exists th, In th things /\ locationOf th = n).
Proof.
  rewrite names_of_tabs.
  destruct (distinct_spec (map locationOf things) []) as [Hnd Hin].
  pose proof (sort_perm (distinct [] (map locationOf things))) as Hp.
  split; [exact (Permutation_NoDup (Permutation_sym Hp) Hnd) |].
  intros n. split.
  - intros H. apply (Permutation_in _ Hp) in H. apply Hin in H.
    destruct H as [H _]. apply in_map_iff in H.
    destruct H as (th & E & Hth). exists th. split; assumption.
  - intros (th & Hth & E). apply (Permutation_in _ (Permutation_sym Hp)).
    apply Hin. split; [| intros []].
    apply in_map_iff. exists th. split; assumption.
Qed.

(** Every thing is shown under exactly one tab: its location in upper case
    is the name of one tab and no other, [renderItems] lists it under the tab
    of that name, and a route that names a tab whose upper case is that name
    selects it.  The rewriting of the locations by [getTabs] changes the
    tab of no thing when the upper case of no location is empty, or changed
    by taking the upper case again. *)
Theorem every_thing_under_one_tab :
  forall (things : list thing) (th : thing),
    In th things ->
    let tabs := fst (getTabs (Some things)) in
    List.length (filter (fun t => String.eqb (locationOf th) (name t)) tabs)
    = 1%nat
    /\ (forall t, In th (thingsForTab t things) <-> locationOf th = name t)
    /\ (forall selectedTabName,
          selectedTabName <> "" ->
          toUpperCase selectedTabName = locationOf th ->
          exists i,
            selectedTabIndex tabs (Some selectedTabName) = Some i
            /\ nth_error tabs i
               = Some {| name := locationOf th; hasThings := false |})
    /\ ((forall th', In th' things ->
           locationOf th' <> ""
           /\ toUpperCase (locationOf th') = locationOf th') ->
        map locationOf (snd (getTabs (Some things))) = map locationOf things).
Proof.
  intros things th Hth tabs.
  destruct (tab_names things) as [Hnd' Hnames]. fold tabs in Hnd', Hnames.
  assert (Hmem : In (locationOf th) (map name tabs)).
  { apply Hnames. exists th. split; [exact Hth | reflexivity]. }
  split; [| split; [| split]].
  - pose proof (filter_one _ _ Hnd' Hmem) as H.
    rewrite <- H. clear. induction tabs as [| t rest IH]; [reflexivity |].
    cbn [filter map]. destruct (String.eqb (locationOf th) (name t));
      cbn [List.length]; rewrite IH; reflexivity.
  - intros t. unfold Pages.thingsForTab. rewrite filter_In, String.eqb_eq.
    tauto.
  - intros sel Hne Hsel. unfold Pages.selectedTabIndex.
    destruct sel as [| c rest]; [congruence |]. rewrite Hsel.
    destruct (indexOfTab_found _ _ Hmem) as (i & t & Hi & Hn & E).
    rewrite Hi. exists i. split; [reflexivity |]. rewrite Hn. f_equal.
    assert (Ht : In t tabs) by (eapply nth_error_In; exact Hn).
    unfold tabs in Ht. cbn [Pages.getTabs fst] in Ht. apply in_map_iff in Ht.
    destruct Ht as (n & <- & _). cbn [name] in E. subst n. reflexivity.
  - intros Hup. cbn [Pages.getTabs snd]. rewrite map_map.
    apply map_ext_in. intros th' Hth'. destruct (Hup th' Hth') as [Hne E].
    unfold Pages.relocate. unfold Pages.locationOf at 1. cbn [location].
    destruct (locationOf th') as [| c rest]; [congruence | exact E].
Qed.

(** The order of the engine is transitive, and of two different strings one
    comes before the other. *)
Hypothesis lessThan_transitive :
  forall a b c : string,
    lessThan a b = true -> lessThan b c = true -> lessThan a c = true.
Hypothesis lessThan_total :
  forall a b : string,
    lessThan a b = false -> lessThan b a = false -> a = b.

Lemma compareTabs_trans (a b c : string) :
  compareTabs a b < 0 -> compareTabs b c < 0 -> compareTabs a c < 0.
Proof.
  rewrite !compareTabs_negative.
  intros [Ha [Hb | Hab]] [Hb' Hc]; [congruence |].
  split; [exact Ha |]. destruct Hc as [Hc | Hbc]; [left; exact Hc |].
  right. exact (lessThan_transitive a b c Hab Hbc).
Qed.

Lemma compareTabs_total (a b : string) :
  ~ compareTabs a b < 0 -> a = b \/ compareTabs b a < 0.
Proof.
  rewrite !compareTabs_negative. intros H.
  destruct (String.eqb_spec a "OTHER") as [-> | Ha].
  - destruct (String.eqb_spec b "OTHER") as [-> | Hb]; [left; reflexivity |].
    right. split; [exact Hb | left; reflexivity].
  - destruct (String.eqb_spec b "OTHER") as [-> | Hb].
    + exfalso. apply H. split; [exact Ha | left; reflexivity].
    + destruct (lessThan a b) eqn:Eab.
      * exfalso. apply H. split; [exact Ha | right; reflexivity].
      * destruct (lessThan b a) eqn:Eba.
        -- right. split; [exact Hb | right; reflexivity].
        -- left. exact (lessThan_total a b Eab Eba).
Qed.

(** *** Sorting *)

Definition sorted (l : list string) : Prop :=
  StronglySorted (fun a b => compareTabs a b < 0) l.

Lemma insert_sorted (x : string) (l : list string) :
  sorted l -> ~ In x l -> sorted (insert compareTabs x l).
Proof.
  unfold sorted. intros Hs. induction Hs as [| y rest Hrest IH Hy]; intros Hx.
  - constructor; constructor.
  - cbn [insert]. destruct (Z.ltb_spec (compareTabs x y) 0) as [Hlt | Hge].
    + constructor; [constructor; assumption |].
      constructor; [exact Hlt |].
      eapply Forall_impl; [| exact Hy]. intros z Hz.
      exact (compareTabs_trans x y z Hlt Hz).
    + constructor; [apply IH; intros H; apply Hx; right; exact H |].
      rewrite Forall_forall. intros z Hz.
      apply (Permutation_in _ (insert_perm x rest)) in Hz.
      destruct Hz as [<- | Hz].
      * destruct (compareTabs_total x y ltac:(lia)) as [-> | H]; [| exact H].
        exfalso. apply Hx. left. reflexivity.
      * rewrite Forall_forall in Hy. exact (Hy z Hz).
Qed.

Lemma sort_from (l : list string) :
  forall acc : list string,
    sorted acc -> NoDup (l ++ acc) ->
    sorted (fold_left (fun s x => insert compareTabs x s) l acc).
Proof.
  induction l as [| x rest IH]; intros acc Hs Hnd; cbn [fold_left app].
  - exact Hs.
  - cbn [app] in Hnd. inversion Hnd as [| ? ? Hx Hnd']; subst.
    apply IH.
    + apply insert_sorted; [exact Hs |].
      intros H. apply Hx. apply in_or_app. right. exact H.
    + apply (Permutation_NoDup (l := x :: rest ++ acc)); [| exact Hnd].
      rewrite (insert_perm x acc). apply Permutation_middle.
Qed.

(** Sorting distinct names puts them in the order of [compareTabs]. *)
Lemma sort_distinct (l : list string) :
  NoDup l -> sorted (sort compareTabs l).
Proof.
  intros Hnd. apply sort_from; [constructor |].
  rewrite app_nil_r. exact Hnd.
Qed.

Lemma sorted_OTHER_last (l : list string) :
  sorted l -> In "OTHER" l -> exists front, l = front ++ ["OTHER"].
Proof.
  unfold sorted. intros Hs. induction Hs as [| y rest Hrest IH Hy]; intros Hin.
  - destruct Hin.
  - destruct Hin as [-> | Hin].
    + destruct rest as [| z rest']; [exists []; reflexivity |].
      inversion Hy as [| ? ? Hz _]; subst.
      apply compareTabs_negative in Hz. destruct Hz as [Hz _]. congruence.
    + destruct (IH Hin) as [front ->]. exists (y :: front). reflexivity.
Qed.

(** [getTabs] gives one tab for each location of a thing, and no other: the
    names are the locations in upper case, and OTHER for a thing without a
    location; they are distinct and in the order of the comparison function:
    a name that is not OTHER comes before every later name that is greater
    in the order of the engine, and before OTHER, which is last; every tab
    starts without things, and an undefined list of things gives no tab.
    The order of the engine is any that is transitive and total. *)
Theorem getTabs_one_tab_per_location :
  forall things : list thing,
    let names := map name (fst (getTabs (Some things))) in
    NoDup names
    /\ (forall n, In n names <-> exists th, In th things /\ locationOf th = n)
    /\ (forall n, In n names ->
          n = "OTHER"
          \/ exists th l, In th things /\ location th = Some l
                          /\ n = toUpperCase l)
    /\ StronglySorted
         (fun a b => a <> "OTHER" /\ (b = "OTHER" \/ lessThan a b = true))
         names
    /\ (In "OTHER" names -> exists front, names = front ++ ["OTHER"])
    /\ Forall (fun t => hasThings t = false) (fst (getTabs (Some things)))
    /\ fst (getTabs None) = [].
Proof.
  intros things names.
  destruct (tab_names things) as [Hnd Hmem]. fold names in Hnd, Hmem.
  assert (Hs : sorted names).
  { unfold names. rewrite names_of_tabs. apply sort_distinct.
    apply distinct_spec. }
  split; [exact Hnd |]. split; [exact Hmem |]. split; [| split; [| split]].
  - intros n Hn. apply Hmem in Hn. destruct Hn as (th & Hth & <-).
    unfold Pages.locationOf. destruct (location th) as [[| c rest] |] eqn:E;
      [left; reflexivity | right | left; reflexivity].
    exists th, (String c rest). repeat split; assumption.
  - clear - Hs. unfold sorted in Hs.
    induction Hs as [| y rest Hrest IH Hy]; constructor; [exact IH |].
    eapply Forall_impl; [| exact Hy]. intros z Hz.
    apply compareTabs_negative. exact Hz.
  - apply sorted_OTHER_last. exact Hs.
  - split; [| reflexivity]. rewrite Forall_forall. intros t Ht.
    cbn [Pages.getTabs fst] in Ht. apply in_map_iff in Ht.
    destruct Ht as (n & <- & _). reflexivity.
Qed.

End Strings.

(** *** The strings of one byte a character

    For strings of ASCII characters the upper case is that of the letters a
    to z, and the order is that of the bytes. *)

Lemma ascii_compare_lt_trans (a b c : ascii) :
  Ascii.compare a b = Lt -> Ascii.compare b c = Lt -> Ascii.compare a c = Lt.
Proof.
  unfold Ascii.compare. rewrite !N.compare_lt_iff. apply N.lt_trans.
Qed.

Lemma string_compare_lt_trans (x : string) :
  forall y z : string,
    String.compare x y = Lt -> String.compare y z = Lt ->
    String.compare x z = Lt.
Proof.
  induction x as [| a x' IH]; intros [| b y'] [| c z']; cbn [String.compare];
    try congruence.
  destruct (Ascii.compare a b) eqn:Eab; try discriminate;
    destruct (Ascii.compare b c) eqn:Ebc; try discriminate; intros Hxy Hyz.
  - apply Ascii.compare_eq_iff in Eab, Ebc. subst b c.
    replace (Ascii.compare a a) with Eq
      by (symmetry; unfold Ascii.compare; apply N.compare_refl).
    exact (IH y' z' Hxy Hyz).
  - apply Ascii.compare_eq_iff in Eab. subst b. rewrite Ebc. reflexivity.
  - apply Ascii.compare_eq_iff in Ebc. subst c. rewrite Eab. reflexivity.
  - rewrite (ascii_compare_lt_trans a b c Eab Ebc). reflexivity.
Qed.

Lemma ltb_lt (x y : string) : String.ltb x y = true <-> String.compare x y = Lt.
Proof.
  unfold String.ltb. destruct (String.compare x y); split; congruence.
Qed.

Lemma ltb_transitive (a b c : string) :
  String.ltb a b = true -> String.ltb b c = true -> String.ltb a c = true.
Proof.
  rewrite !ltb_lt. apply string_compare_lt_trans.
Qed.

Lemma ltb_total (a b : string) :
  String.ltb a b = false -> String.ltb b a = false -> a = b.
Proof.
  unfold String.ltb. rewrite (String.compare_antisym b a).
  destruct (String.compare a b) eqn:E; cbn [CompOpp]; try discriminate.
  intros _ _. apply String.compare_eq_iff. exact E.
Qed.

(** Two things in the kitchen, whatever the case, one in the attic and one
    without a location: the tabs are ATTIC, KITCHEN and OTHER. *)
Lemma getTabs_example :
  let things := [ {| location := Some "Kitchen"; label := "Lamp";
                     thingChannels := [] |};
                  {| location := None; label := "Radio"; thingChannels := [] |};
                  {| location := Some "kitchen"; label := "Fan";
                     thingChannels := [] |};
                  {| location := Some "attic"; label := "Sensor";
                     thingChannels := [] |} ] in
  let tabs := fst (getTabs OnOffValue.toUpperCase String.ltb (Some things)) in
  tabs = [ {| name := "ATTIC"; hasThings := false |};
           {| name := "KITCHEN"; hasThings := false |};
           {| name := "OTHER"; hasThings := false |} ]
  /\ NoDup (map name tabs).
Proof.
  split; [reflexivity |].
  exact (proj1 (getTabs_one_tab_per_location OnOffValue.toUpperCase String.ltb
                  ltb_transitive ltb_total
                  [ {| location := Some "Kitchen"; label := "Lamp";
                       thingChannels := [] |};
                    {| location := None; label := "Radio";
                       thingChannels := [] |};
                    {| location := Some "kitchen"; label := "Fan";
                       thingChannels := [] |};
                    {| location := Some "attic"; label := "Sensor";
                       thingChannels := [] |} ])).
Defined.

(** Two things in the kitchen, whatever the case, and one without a
    location: each is under one tab, the lamp under KITCHEN, and the
    rewriting of the locations changes no tab. *)
Lemma every_thing_under_one_tab_example :
  let things := [ {| location := Some "Kitchen"; label := "Lamp";
                     thingChannels := [] |};
                  {| location := None; label := "Radio"; thingChannels := [] |};
                  {| location := Some "kitchen"; label := "Fan";
                     thingChannels := [] |} ] in
  fst (getTabs OnOffValue.toUpperCase String.ltb (Some things))
  = [ {| name := "KITCHEN"; hasThings := false |};
      {| name := "OTHER"; hasThings := false |} ]
  /\ List.length
       (filter (fun t => String.eqb "KITCHEN" (name t))
          (fst (getTabs OnOffValue.toUpperCase String.ltb (Some things))))
     = 1%nat
  /\ selectedTabIndex OnOffValue.toUpperCase
       (fst (getTabs OnOffValue.toUpperCase String.ltb (Some things)))
       (Some "kitchen") = Some 0%nat
  /\ map (locationOf OnOffValue.toUpperCase)
       (snd (getTabs OnOffValue.toUpperCase String.ltb (Some things)))
     = ["KITCHEN"; "OTHER"; "KITCHEN"].
Proof.
  split; [reflexivity |].
  pose proof (every_thing_under_one_tab OnOffValue.toUpperCase String.ltb
                [ {| location := Some "Kitchen"; label := "Lamp";
                     thingChannels := [] |};
                  {| location := None; label := "Radio";
                     thingChannels := [] |};
                  {| location := Some "kitchen"; label := "Fan";
                     thingChannels := [] |} ]
                {| location := Some "Kitchen"; label := "Lamp";
                   thingChannels := [] |}
                (or_introl eq_refl)) as (H1 & _ & _ & H4).
  split; [exact H1 |]. split; [reflexivity |].
  rewrite H4; [reflexivity |].
  intros th' [<- | [<- | [<- | []]]]; split;
    first [discriminate | reflexivity].
Defined.

End PagesFacts.

(** ** ControlController: items and the channels of a thing *)

Module ThingsFacts.

Import Pages.

Local Open Scope string_scope.
Local Open Scope list_scope.

(** An underscore becomes a space and nothing else changes: the name keeps
    its length, no underscore is left, every other character stays where it
    was, and a name without underscores, or one already shown, is
    unchanged. *)
Theorem getItemName_replaces_underscores :
  forall itemName : string,
    String.length (getItemName itemName) = String.length itemName
    /\ indexOf "_" (getItemName itemName) = (-1)%Z
    /\ (forall n c, String.get n itemName = Some c ->
          String.get n (getItemName itemName)
          = Some (if Ascii.eqb c "_" then " "%char else c))
    /\ (indexOf "_" itemName = (-1)%Z -> getItemName itemName = itemName)
    /\ getItemName (getItemName itemName) = getItemName itemName.
Proof.
  induction itemName as [| a rest (IH1 & IH2 & IH3 & IH4 & IH5)].
  - repeat split. intros n c H. destruct n; discriminate H.
  - cbn [getItemName String.length indexOf].
    split; [rewrite IH1; reflexivity |].
    split; [| split; [| split]].
    + destruct (Ascii.eqb_spec a "_") as [-> | Hne].
      * cbn. rewrite IH2. reflexivity.
      * destruct (Ascii.eqb_spec a "_") as [E | _]; [congruence |].
        rewrite IH2. reflexivity.
    + intros n c H. destruct n as [| n]; cbn [String.get] in *.
      * injection H as <-. reflexivity.
      * exact (IH3 n c H).
    + destruct (Ascii.eqb_spec a "_") as [-> | Hne]; [discriminate |].
      destruct (Z.ltb_spec (indexOf "_" rest) 0) as [Hlt | Hge]; [| lia].
      intros _. rewrite IH4 by (apply DecimalFacts.indexOf_negative; exact Hlt).
      reflexivity.
    + rewrite IH5. f_equal.
      destruct (Ascii.eqb_spec a "_") as [-> | Hne]; [reflexivity |].
      destruct (Ascii.eqb_spec a "_") as [E | _]; [congruence | reflexivity].
Qed.

Section Collaborators.

Variable dtoa : Q -> string.
Variable getItemStateText : Control.item -> string.
Variable data_items : list Control.item.

Lemma each_keeps (it : Control.item) :
  Control.name (Control.each dtoa getItemStateText it) = Control.name it
  /\ Control.stateDescription (Control.each dtoa getItemStateText it)
     = Control.stateDescription it
  /\ Control.readOnly (Control.each dtoa getItemStateText it)
     = Control.isReadOnly it
  /\ (Control.isNumeric it = false ->
      Control.state (Control.each dtoa getItemStateText it) = Control.state it).
Proof.
  assert (Hd : Control.name (Control.decodeState dtoa it) = Control.name it
               /\ Control.stateDescription (Control.decodeState dtoa it)
                  = Control.stateDescription it).
  { unfold Control.decodeState.
    destruct (0 <? indexOf " " (ToString dtoa (Control.state it)))%Z;
      match goal with
      | |- context [isNaN ?v] => destruct (isNaN v)
      end; split; reflexivity. }
  destruct Hd as [Hn Hsd].
  unfold Control.each, Control.isReadOnly.
  destruct (Control.isNumeric it).
  - destruct (Control.isImage (Control.decodeState dtoa it));
      cbn; rewrite ?Hn, ?Hsd; repeat split; intros H; discriminate H.
  - destruct (Control.isImage it); cbn; repeat split.
Qed.

(** [getItems] returns the items of [$scope.data.items] whose names are
    asked for, in the order of the data and each once, whatever the order
    and repetitions of the names; a name without an item is passed over.
    Every item returned keeps its name and its state description, gets its
    read-only flag from that description, and keeps its state unless it is
    of a numeric type. *)
Theorem getItems_selects_by_name :
  forall itemNames : list string,
    let result :=
      Control.getItems dtoa getItemStateText data_items itemNames in
    map Control.name result
    = filter (fun n => existsb (String.eqb n) itemNames)
        (map Control.name data_items)
    /\ Forall (fun n => In n itemNames) (map Control.name result)
    /\ (List.length result <= List.length data_items)%nat
    /\ Forall (fun it' => Control.readOnly it' = Control.isReadOnly it') result
    /\ (forall it', In it' result ->
          exists it, In it data_items
                     /\ Control.name it' = Control.name it
                     /\ Control.stateDescription it'
                        = Control.stateDescription it
                     /\ (Control.isNumeric it = false ->
                         Control.state it' = Control.state it))
    /\ Control.getItems dtoa getItemStateText data_items [] = [].
Proof.
  intros itemNames result. unfold result, Control.getItems.
  set (keep := fun it : Control.item =>
                 existsb (String.eqb (Control.name it)) itemNames).
  assert (Hnames : map Control.name
                     (map (Control.each dtoa getItemStateText)
                        (filter keep data_items))
                   = filter (fun n => existsb (String.eqb n) itemNames)
                       (map Control.name data_items)).
  { rewrite map_map.
    rewrite (map_ext _ Control.name)
      by (intros it; apply (proj1 (each_keeps it))).
    clear. induction data_items as [| it rest IH]; [reflexivity |].
    cbn [filter map]. unfold keep at 1.
    destruct (existsb (String.eqb (Control.name it)) itemNames);
      cbn [map]; rewrite IH; reflexivity. }
  split; [exact Hnames |]. split; [| split; [| split; [| split]]].
  - rewrite Hnames, Forall_forall. intros n Hn.
    apply filter_In in Hn. destruct Hn as [_ Hn].
    apply existsb_exists in Hn. destruct Hn as (m & Hm & E).
    apply String.eqb_eq in E. subst m. exact Hm.
  - rewrite length_map. apply filter_length_le.
  - rewrite Forall_forall. intros it' Hit'.
    apply in_map_iff in Hit'. destruct Hit' as (it & <- & _).
    destruct (each_keeps it) as (_ & Hsd & Hro & _).
    rewrite Hro. unfold Control.isReadOnly. rewrite Hsd. reflexivity.
  - intros it' Hit'. apply in_map_iff in Hit'.
    destruct Hit' as (it & <- & Hit). apply filter_In in Hit.
    exists it. destruct (each_keeps it) as (H1 & H2 & _ & H4).
    split; [apply Hit | split; [exact H1 | split; [exact H2 | exact H4]]].
  - clear. induction data_items as [| it rest IH]; [reflexivity | exact IH].
Qed.

Definition linked (ch : channel) : Prop := linkedItems ch <> [].

Lemma linked_test (ch : channel) :
  negb (Nat.eqb (List.length (linkedItems ch)) 0) = true <-> linked ch.
Proof.
  unfold linked. destruct (linkedItems ch); cbn; split;
    congruence || discriminate.
Qed.

(** [renderThing] returns the thing exactly when one of its channels has a
    linked item.  The thing returned keeps its groups, in each group the
    channels with a linked item, in their order, and each of these channels
    has the items that [getItems] finds for its links. *)
Theorem renderThing_keeps_linked_channels :
  forall th : thing,
    (renderThing dtoa getItemStateText data_items th = None <->
       Forall (fun g => Forall (fun ch => linkedItems ch = []) (channels g))
         (thingChannels th))
    /\ (forall th',
          renderThing dtoa getItemStateText data_items th = Some th' ->
          location th' = location th /\ label th' = label th
          /\ map (fun g => map linkedItems (channels g)) (thingChannels th')
             = map (fun g =>
                      filter (fun l => negb (Nat.eqb (List.length l) 0))
                        (map linkedItems (channels g)))
                 (thingChannels th)
          /\ Forall
               (fun g =>
                  Forall
                    (fun ch =>
                       linked ch
                       /\ items ch
                          = Control.getItems dtoa getItemStateText data_items
                              (linkedItems ch))
                    (channels g))
               (thingChannels th')).
Proof.
  intros th. unfold renderThing.
  set (keep := fun ch : channel => negb (Nat.eqb (List.length (linkedItems ch)) 0)).
  set (fill := fun ch : channel =>
                 {| linkedItems := linkedItems ch;
                    items := Control.getItems dtoa getItemStateText data_items
                               (linkedItems ch) |}).
  set (groups := map (fun g => {| channels := map fill (channels g) |})
                   (map (fun g => {| channels := filter keep (channels g) |})
                      (thingChannels th))).
  assert (Hnone : existsb (fun g => negb (Nat.eqb (List.length (channels g)) 0))
                    groups = false <->
                  Forall (fun g => Forall (fun ch => linkedItems ch = [])
                                     (channels g)) (thingChannels th)).
  { unfold groups. clear groups.
    induction (thingChannels th) as [| g rest IH]; cbn [map existsb].
    - split; [constructor | reflexivity].
    - rewrite orb_false_iff, IH. cbn [channels]. rewrite length_map.
      split.
      + intros [H Hrest]. constructor; [| exact Hrest].
        apply negb_false_iff, Nat.eqb_eq in H.
        rewrite Forall_forall. intros ch Hch.
        destruct (linkedItems ch) as [| l ls] eqn:E; [reflexivity |].
        assert (In ch (filter keep (channels g))) as K.
        { apply filter_In. split; [exact Hch |]. unfold keep. rewrite E.
          reflexivity. }
        destruct (filter keep (channels g)); [destruct K | discriminate H].
      + intros H. inversion H as [| ? ? Hg Hrest]; subst.
        split; [| exact Hrest].
        apply negb_false_iff, Nat.eqb_eq.
        assert (filter keep (channels g) = []) as ->; [| reflexivity].
        clear - Hg. induction Hg as [| ch chs Hch _ IH]; [reflexivity |].
        cbn [filter]. unfold keep at 1. rewrite Hch. exact IH. }
  split.
  - destruct (existsb _ groups) eqn:E.
    + split; [discriminate |]. intros H. apply Hnone in H. congruence.
    + split; [intros _; apply Hnone; reflexivity | reflexivity].
  - intros th' H. destruct (existsb _ groups); [| discriminate H].
    injection H as <-. cbn [location label thingChannels].
    split; [reflexivity | split; [reflexivity | split]].
    + unfold groups. rewrite !map_map. apply map_ext. intros g.
      cbn [channels]. rewrite map_map. cbn [linkedItems].
      clear. induction (channels g) as [| ch chs IH]; [reflexivity |].
      cbn [filter map]. unfold keep at 1.
      destruct (negb (Nat.eqb (List.length (linkedItems ch)) 0));
        cbn [map]; rewrite IH; reflexivity.
    + unfold groups. rewrite Forall_forall. intros g Hg.
      apply in_map_iff in Hg. destruct Hg as (g1 & <- & Hg1).
      apply in_map_iff in Hg1. destruct Hg1 as (g0 & <- & _).
      cbn [channels]. rewrite Forall_forall. intros ch Hch.
      apply in_map_iff in Hch. destruct Hch as (ch0 & <- & Hch0).
      apply filter_In in Hch0. destruct Hch0 as [_ Hk].
      split; [| reflexivity].
      unfold fill. unfold linked. cbn [linkedItems].
      apply linked_test. exact Hk.
Qed.

End Collaborators.

End ThingsFacts.

(** ** getItems on an item it has already read *)

Module ItemTwice.

Import Control.

Local Open Scope string_scope.

Section Collaborators.

Variable dtoa : Q -> string.
Variable getItemStateText : Control.item -> string.

Lemma each_isNumeric (it : Control.item) :
  isNumeric (each dtoa getItemStateText it) = isNumeric it.
Proof.
  assert (Hd : isNumeric (decodeState dtoa it) = isNumeric it).
  { unfold decodeState.
    destruct (0 <? indexOf " " (ToString dtoa (state it)))%Z;
      match goal with
      | |- context [isNaN ?v] => destruct (isNaN v)
      end; reflexivity. }
  unfold each. destruct (isNumeric it) eqn:E.
  - destruct (isImage (decodeState dtoa it)); cbn; exact Hd.
  - destruct (isImage it); cbn; exact E.
Qed.

(** An item linked to two channels is read twice by [getItems].  The second
    reading changes neither state nor unit when the state was an integer
    with a unit (the integer being below [10^21] in size), and when its
    numeric part was not a number. *)
Theorem getItems_twice :
  forall (it : Control.item) (x : string),
    isNumeric it = true ->
    state it = VString x ->
    ((exists z u, (Z.abs z < 10 ^ 21)%Z /\ x = Z_to_string z ++ " " ++ u)
     \/ (0 < indexOf " " x)%Z
        /\ Number_ofString (substring x 0 (indexOf " " x)) = NaN
     \/ (indexOf " " x <= 0)%Z /\ Number_ofString x = NaN) ->
    let once := each dtoa getItemStateText it in
    let twice := each dtoa getItemStateText once in
    state twice = state once /\ unit twice = unit once.
Proof.
  intros it x Hnum Hst Hcases once twice.
  pose proof (each_isNumeric it) as Hnum1. fold once in Hnum1.
  rewrite Hnum in Hnum1.
  destruct (ItemFacts.each_fields dtoa getItemStateText it) as (_ & Hf & _).
  destruct (Hf Hnum) as [Es Eu]. fold once in Es, Eu. clear Hf.
  destruct (ItemFacts.each_fields dtoa getItemStateText once) as (_ & Hf & _).
  destruct (Hf Hnum1) as [Es2 Eu2]. fold twice in Es2, Eu2. clear Hf.
  destruct Hcases as [(z & u & Hz & ->) | [[Hi Hnan] | [Hi Hnan]]].
  - destruct (ItemFacts.each_integer_with_unit dtoa getItemStateText it z u
                Hnum Hst) as [Hs Hu].
    fold once in Hs, Hu.
    destruct (NumberFacts.toDouble_below_1e21 z Hz) as (r & Er & Hd & Hr).
    rewrite Er in Hs.
    destruct (WritingFacts.Number_toString_reads_back dtoa r Hd Hr)
      as [Hback Hclean].
    rewrite Es2, Eu2. unfold decodeState. rewrite Hs. cbn [ToString].
    rewrite Hclean. cbn [Z.ltb Z.compare].
    rewrite Hback.
    cbn [isNaN ToNumber negb state unit set_state]. split; reflexivity.
  - destruct (ControlFacts.decodeState_cut dtoa it x Hst Hi) as [Hs Hu].
    unfold ControlFacts.stored in Hs. rewrite Hnan in Hs.
    assert (Hst1 : state once = VString x) by congruence.
    destruct (ControlFacts.decodeState_cut dtoa once x Hst1 Hi) as [Hs2 Hu2].
    unfold ControlFacts.stored in Hs2. rewrite Hnan in Hs2.
    split; congruence.
  - destruct (ControlFacts.decodeState_whole dtoa it x Hst Hi) as [Hs Hu].
    unfold ControlFacts.stored in Hs. rewrite Hnan in Hs.
    assert (Hst1 : state once = VString x) by congruence.
    destruct (ControlFacts.decodeState_whole dtoa once x Hst1 Hi) as [Hs2 Hu2].
    unfold ControlFacts.stored in Hs2. rewrite Hnan in Hs2.
    split; congruence.
Qed.

End Collaborators.

(** A temperature of 21 degrees, read twice. *)
Lemma getItems_twice_21 :
  let once := each (fun _ => "") (fun _ => "")
                (ControlFacts.temperature "21 °C") in
  let twice := each (fun _ => "") (fun _ => "") once in
  state twice = state once /\ unit twice = unit once.
Proof.
  apply (getItems_twice (fun _ => "") (fun _ => "")
           (ControlFacts.temperature "21 °C") "21 °C");
    [reflexivity | reflexivity |].
  left. exists 21%Z, "°C". split; [vm_compute; reflexivity | reflexivity].
Defined.

End ItemTwice.
